(** * mpitest: a test harness for MPI programs

    A shallow embedding of [src/mpitest/mpitest.h] (the registry types and
    the comparison predicates) and [src/mpitest/mpitest.cpp] (error
    registration and the driver [main] with its failure-aggregation
    protocol), followed by the properties of the harness. *)

From Stdlib Require Import ZArith Lia Bool.
From Stdlib Require Import Floats.SpecFloat.
From stdpp Require Import base list strings pretty.

Open Scope Z_scope.

(** ** Registry types (mpitest.h, lines 17-63) *)

(** [test_ptr] is a pointer to a function from [MPI_Comm] to [void]; it is
    kept as the address of the entry point. *)
Definition test_ptr := nat.

Record assert_info := {
  line : Z;
  file : string;
  test_string : string
}.

Record fail_info := {
  assertion : assert_info;
  reason : string
}.

Record test_info := {
  fptr : test_ptr;
  test_size : Z;
  test_name : string;
  fails : list fail_info
}.

Record test_list := {
  current_test : Z;
  tests : list test_info
}.

(** [test_list::instance()] hands out a function-local static: its
    [current_test] is zero-initialised and its [tests] vector is empty. *)
Definition instance0 : test_list :=
  {| current_test := 0; tests := [] |}.

(** ** The registry as state

    Every process owns one [test_list]; the functions that touch it are
    state transformers.  [None] stands for the undefined behaviour of an
    out-of-range [tests[current_test]]. *)
Definition M (A : Type) : Type := test_list -> option (A * test_list).

#[global] Instance M_ret : MRet M := fun A a l => Some (a, l).
#[global] Instance M_bind : MBind M := fun A B k m l =>
  match m l with
  | Some (a, l') => k a l'
  | None => None
  end.

(** [v.push_back(x)] *)
Definition push_back {A} (v : list A) (x : A) : list A := v ++ [x].

Definition with_fails (t : test_info) (fs : list fail_info) : test_info :=
  {| fptr := fptr t; test_size := test_size t; test_name := test_name t;
     fails := fs |}.

Definition with_tests (l : test_list) (ts : list test_info) : test_list :=
  {| current_test := current_test l; tests := ts |}.

Definition set_current_test (l : test_list) (ti : Z) : test_list :=
  {| current_test := ti; tests := tests l |}.

(** mpitest.cpp, lines 15-22.  One [test_info] per requested size, each
    with an empty [fails] vector. *)
Definition add_test (test : test_ptr) (test_sizes : list Z) (name : string)
    (l : test_list) : test_list :=
  fold_left
    (fun l test_size =>
       with_tests l
         (push_back (tests l)
            {| fptr := test; test_size := test_size; test_name := name;
               fails := [] |}))
    test_sizes l.

(** mpitest.cpp, lines 24-28:
    [list->tests[list->current_test].fails.push_back({assertion, reason})].
    There is no test on [current_test]; the vector is indexed as it is. *)
Definition register_error (assertion : assert_info) (reason : string) : M unit :=
  fun l =>
    if decide (0 <= current_test l) then
      let i := Z.to_nat (current_test l) in
      match tests l !! i with
      | Some t =>
          Some (tt,
                with_tests l
                  (<[i := with_fails t
                            (push_back (fails t)
                               {| assertion := assertion; reason := reason |})]>
                     (tests l)))
      | None => None
      end
    else None.

(** The index held by [current_test] names a registered test. *)
Definition current_valid (l : test_list) : Prop :=
  0 <= current_test l < Z.of_nat (length (tests l)).

#[global] Instance current_valid_dec (l : test_list) : Decision (current_valid l).
Proof. unfold current_valid. apply _. Defined.

(** The ledger that [register_error] writes to. *)
Definition current_fails (l : test_list) : list fail_info :=
  match tests l !! Z.to_nat (current_test l) with
  | Some t => fails t
  | None => []
  end.

(** ** What an assertion needs of its argument type

    The templates [assert_true] and [assert_eq] use the contextual
    conversion to [bool], [operator==] and [operator<<] of [T]. *)
Class Primitive (T : Type) := {
  truthy : T -> bool;
  op_eq : T -> T -> bool;
  show : T -> string
}.

(** [int]: [operator<<] prints the decimal numeral. *)
#[global] Instance Primitive_int : Primitive Z := {|
  truthy z := negb (z =? 0);
  op_eq := Z.eqb;
  show := pretty
|}.

(** [bool]: without [boolalpha] a stream prints 0 or 1. *)
#[global] Instance Primitive_bool : Primitive bool := {|
  truthy b := b;
  op_eq := Bool.eqb;
  show b := if b then "1" else "0"
|}.

(** ** Comparison predicates (mpitest.h, lines 79-103) *)

Definition assert_true {T} `{Primitive T} (statement : T)
    (assertion : assert_info) : M bool :=
  if truthy statement then mret true
  else
    let reason := show statement +:+ " is falsy" in
    register_error assertion reason ;; mret false.

Definition assert_eq {T} `{Primitive T} (a b : T)
    (assertion : assert_info) : M bool :=
  if op_eq a b then mret true
  else
    let reason := show a +:+ " does not equal " +:+ show b in
    register_error assertion reason ;; mret false.

(** ** IEEE 754 operands

    [fxx] is [float] or [double]; its values are the [spec_float]s of the
    format, and arithmetic and comparisons are those of [SpecFloat]
    (round to nearest, ties to even).  [uxx] is the unsigned integer type of
    the same width. *)
Record float_format := {
  prec : Z;               (* bits of the significand, hidden bit included *)
  emax : Z;               (* exponent of the infinities *)
  width : Z;              (* bits of [uxx] *)
  digits10 : nat;         (* [numeric_limits<fxx>::digits10] *)
  epsilon : spec_float    (* [numeric_limits<fxx>::epsilon()] *)
}.

(** [<float, uint32_t>] *)
Definition binary32 : float_format :=
  {| prec := 24; emax := 128; width := 32; digits10 := 6;
     epsilon := S754_finite false 8388608 (-46) |}.

(** [<double, uint64_t>] *)
Definition binary64 : float_format :=
  {| prec := 53; emax := 1024; width := 64; digits10 := 15;
     epsilon := S754_finite false 4503599627370496 (-104) |}.

Definition isnan (x : spec_float) : bool :=
  match x with S754_nan => true | _ => false end.

Definition isinf (x : spec_float) : bool :=
  match x with S754_infinity _ => true | _ => false end.

Definition signbit (x : spec_float) : bool :=
  match x with
  | S754_zero s | S754_infinity s | S754_finite s _ _ => s
  | S754_nan => false
  end.

Definition fabs (x : spec_float) : spec_float := SFabs x.

Definition flt_sub (fmt : float_format) (x y : spec_float) : spec_float :=
  SFsub (prec fmt) (emax fmt) x y.

(** [x < y] and [x > y] on floating-point operands; both are false as soon
    as one side is NaN. *)
Definition flt_lt (x y : spec_float) : bool := SFltb x y.

Definition flt_gt (x y : spec_float) : bool :=
  match SFcompare x y with
  | Some Gt => true
  | _ => false
  end.

(** Neither NaN nor infinite, and a value the format can hold. *)
Definition finite (fmt : float_format) (x : spec_float) : Prop :=
  isnan x = false /\ isinf x = false /\
  valid_binary (prec fmt) (emax fmt) x = true.

(** [*reinterpret_cast<uxx*>(&x)]: sign, biased exponent and fraction
    fields of the interchange format.  A [spec_float] NaN has no payload; the
    quiet NaN with an empty payload is taken (the predicate never looks at
    the bits of a NaN). *)
Definition bits_of (fmt : float_format) (x : spec_float) : Z :=
  let mw := prec fmt - 1 in
  let sign (s : bool) := Z.shiftl (if s then 1 else 0) (width fmt - 1) in
  let expo_all_ones := 2 * emax fmt - 1 in
  match x with
  | S754_zero s => sign s
  | S754_infinity s => Z.lor (sign s) (Z.shiftl expo_all_ones mw)
  | S754_nan => Z.lor (Z.shiftl expo_all_ones mw) (Z.shiftl 1 (mw - 1))
  | S754_finite s m e =>
      if Z.pos m <? Z.shiftl 1 mw then
        (* subnormal: exponent field 0 *)
        Z.lor (sign s) (Z.pos m)
      else
        Z.lor (sign s)
          (Z.lor (Z.shiftl (e - emin (prec fmt) (emax fmt) + 1) mw)
                 (Z.pos m - Z.shiftl 1 mw))
  end.

(** The conversion of the [int] [ulp_tol] to [uxx] that the comparison
    [au - bu > ulp_tol] performs. *)
Definition to_unsigned (fmt : float_format) (i : Z) : Z :=
  i mod 2 ^ width fmt.

(** [int] values. *)
Definition int_range (i : Z) : Prop := - 2 ^ 31 <= i < 2 ^ 31.

Section Ieee754.

(** [os << std::setprecision(p) << x] for a floating-point [x]: the text
    the stream writes.  The C++ library decides it; the harness only
    concatenates it. *)
Variable stream_float : float_format -> nat -> spec_float -> string.

(** [double] under [assert_true] and [assert_eq]: a stream starts with
    precision 6; NaN is truthy, and [operator==] is the IEEE comparison. *)
Definition Primitive_double : Primitive spec_float := {|
  truthy x := negb (SFeqb x (S754_zero false));
  op_eq := SFeqb;
  show := stream_float binary64 6
|}.

Variable fmt : float_format.

Definition garbage_first (a : spec_float) : string * bool :=
  if isnan a then ("the first argument is nan! ", true)
  else if isinf a then ("the first argument is inf! ", true)
  else ("", false).

Definition garbage_second (b : spec_float) : string * bool :=
  if isnan b then ("the second argument is nan! ", true)
  else if isinf b then ("the second argument is inf! ", true)
  else ("", false).

Definition abs_reason (a b diff abs_tol : spec_float) : string :=
  let p := S (digits10 fmt) in
  "absolute difference between " +:+ stream_float fmt p a +:+ " and "
    +:+ stream_float fmt p b +:+ " (" +:+ stream_float fmt p diff +:+ ")"
    +:+ " is outside the requested tolerance " +:+ stream_float fmt p abs_tol.

Definition ulp_reason (a b : spec_float) (dist ulp_tol : Z) : string :=
  let p := S (digits10 fmt) in
  stream_float fmt p a +:+ " and " +:+ stream_float fmt p b
    +:+ " differ by " +:+ pretty dist
    +:+ " ULPs, the requested tolerance is " +:+ pretty ulp_tol +:+ " ULPs".

(** mpitest.h, lines 114-212. *)
Definition assert_ieee754_eq (assertion : assert_info) (a b : spec_float)
    (ulp_tol : Z) (abs_tol : spec_float) : M bool :=
  (* quick out if the input is garbage *)
  let '(r1, q1) := garbage_first a in
  let '(r2, q2) := garbage_second b in
  let reason := r1 +:+ r2 in
  let quick_exit := q1 || q2 in
  if quick_exit then
    register_error assertion reason ;; mret false
  else
    (* reinterpret to unsigned integers *)
    let au := bits_of fmt a in
    let bu := bits_of fmt b in
    (* absolute comparison *)
    if negb (Bool.eqb (signbit a) (signbit b))
       || (flt_lt (fabs a) abs_tol && flt_lt (fabs b) abs_tol)
    then
      let diff := fabs (flt_sub fmt a b) in
      let tol := abs_tol in
      if flt_gt diff tol then
        register_error assertion (abs_reason a b diff abs_tol) ;; mret false
      else mret true
    (* ulp comparison *)
    else if au >? bu then
      if au - bu >? to_unsigned fmt ulp_tol then
        register_error assertion (ulp_reason a b (au - bu) ulp_tol) ;;
        mret false
      else mret true
    else if bu >? au then
      if bu - au >? to_unsigned fmt ulp_tol then
        register_error assertion (ulp_reason a b (bu - au) ulp_tol) ;;
        mret false
      else mret true
    else mret true.

(** The call with [abs_tol] left to its default argument. *)
Definition assert_ieee754_eq_default (assertion : assert_info)
    (a b : spec_float) (ulp_tol : Z) : M bool :=
  assert_ieee754_eq assertion a b ulp_tol (epsilon fmt).

End Ieee754.

(** Literals of the repository's own tests (src/dummy/dummy_tests.cpp,
    lines 114-124) as [double]s: 1e-8 is 0x3E45798EE2308C3A, 5e-8 is
    0x3E6AD7F29ABCAF48 and 0.000001 is 0x3EB0C6F7A0B5ED8D. *)
Definition dbl_0 : spec_float := S754_zero false.
Definition dbl_1e_8 : spec_float := S754_finite false 6044629098073146 (-79).
Definition dbl_5e_8 : spec_float := S754_finite false 7555786372591432 (-77).
Definition dbl_1e_6 : spec_float := S754_finite false 4722366482869645 (-72).
Definition dbl_neg_1e_6 : spec_float := SFopp dbl_1e_6.
Definition dbl_1 : spec_float := S754_finite false 4503599627370496 (-52).

(** [n / d] rounded to the nearest [double], for integers below 2^53: what
    a decimal literal with that value denotes. *)
Definition dbl_quotient (n d : Z) : spec_float :=
  SFdiv 53 1024 (binary_normalize 53 1024 n 0 false)
                (binary_normalize 53 1024 d 0 false).

(** ** The driver (mpitest.cpp, lines 32-225)

    One program image runs on every process of [MPI_COMM_WORLD].  A process
    is a program point with its local variables; the world is the list of
    processes, indexed by rank, and the history of what they did.  Message
    passing is read off that history: what was gathered, which sends are
    posted, which are matched, who entered which barrier. *)

Definition FAIL_MESSAGE_SIZE : nat := 1024.

(** The line feed of the format strings. *)
Definition nl : string := String (Ascii.ascii_of_nat 10) "".

(** [(int)x] on a two's-complement machine. *)
Definition to_int (z : Z) : Z := (z + 2 ^ 31) mod 2 ^ 32 - 2 ^ 31.

(** [x * y] on [int]s: undefined where the product does not fit. *)
Definition int_mul (x y : Z) : option Z :=
  if (- 2 ^ 31 <=? x * y) && (x * y <? 2 ^ 31) then Some (x * y) else None.

Arguments int_mul : simpl never.

(** [snprintf(buf, n, ...)] keeps at most [n - 1] characters. *)
Definition snprintf (n : nat) (s : string) : string :=
  String.substring 0 (n - 1) s.

(** [s.c_str()] as [%s] reads it: the characters before the first NUL.  A
    [std::string] may hold NUL characters (the reason of [EXPECT_TRUE] on a
    [char] of value 0 does); the [const char*] fields of the registry are
    modelled by the text they point to, which holds none. *)
Fixpoint c_str (s : string) : string :=
  match s with
  | EmptyString => EmptyString
  | String c s' =>
      if Ascii.eqb c Ascii.zero then EmptyString else String c (c_str s')
  end.

(** Lines 163-168: the text that the format and its arguments make for one
    failure on rank [rank]. *)
Definition fail_text (rank : nat) (f : fail_info) : string :=
  "  " +:+ test_string (assertion f) +:+ " FAILED (on proc "
    +:+ pretty (Z.of_nat rank) +:+ " line " +:+ pretty (line (assertion f))
    +:+ " of " +:+ file (assertion f) +:+ ")" +:+ nl +:+ "    "
    +:+ c_str (reason f).

(** Lines 161-168: the text of one failure, as rank [rank] writes it into
    its send buffer. *)
Definition fail_message (rank : nat) (f : fail_info) : string :=
  snprintf FAIL_MESSAGE_SIZE (fail_text rank f).

(** Lines 107-111, 145, 213 and 66: the report lines. *)
Definition running_line (t : test_info) : string :=
  "[ RUNNING ] " +:+ test_name t +:+ " (" +:+ pretty (test_size t) +:+ " proc"
    +:+ (if test_size t >? 1 then "s" else "") +:+ ")" +:+ nl.

Definition success_line (t : test_info) : string :=
  "[ SUCCESS ] " +:+ test_name t +:+ nl.

Definition fail_line (t : test_info) : string :=
  "[ FAIL    ] " +:+ test_name t +:+ nl.

Definition shortfall_line (largest_test_size : Z) : string :=
  "please launch with at least " +:+ pretty largest_test_size +:+ " procs!"
    +:+ nl.

(** Lines 56-61. *)
Definition largest_test_size (l : test_list) : Z :=
  fold_left
    (fun largest t => if test_size t >? largest then test_size t else largest)
    (tests l) 0.

(** Program points of [main]. *)
Inductive pc :=
| PStart               (* 43-44: the blank lines *)
| PBarrier0            (* 46: entering the barrier *)
| PWait0               (* 46: inside the barrier *)
| PCheck               (* 56-70: enough processes? *)
| PExitEarly           (* 69: returned *)
| PBarrier1            (* 72 *)
| PWait1
| PLoop                (* 76-98: loop test, current_test, MPI_Comm_split *)
| PRunning             (* 105-112 *)
| PBody                (* 115: the entry point *)
| PGather              (* 123-135 *)
| PSum                 (* 138-146 *)
| PSend (fi : nat)     (* 155-177 *)
| PRecv (ri fi : nat)  (* 180-199 *)
| PWaitall             (* 204 *)
| PDelete              (* 205-209 *)
| PVerdict             (* 212-213 *)
| PBarrierT            (* 216 *)
| PWaitT
| PCommFree            (* 218, ++ti *)
| PExit                (* 223-224: returned *)
| PUndefined.          (* after undefined behaviour *)

(** What a process does that another process, or the terminal, can see.
    The communicator of test [ti] is named by [ti]. *)
Inductive event :=
| EPrintf (s : string)
| EBarrier
| EFinalize
| EReturn (status : Z)
| ESplit (ti : nat) (color : Z)
| EBody (ti : nat)
| EGather (ti : nat) (n : Z)
| EIssend (ti : nat) (dest tag : nat) (buf : string)
| ERecv (ti : nat) (src tag : nat) (buf : string)
| EWaitall (ti : nat) (count : nat)
| EDelete (ti : nat)
| ECommFree (ti : nat).

Record proc := {
  p_pc : pc;
  p_ti : nat;                      (* [ti] *)
  p_list : test_list;              (* [*list] *)
  p_by_rank : list Z;              (* [num_fails_by_rank], on rank 0 *)
  p_total : Z                      (* [num_fails_total] *)
}.

Record world := {
  procs : list proc;
  log : list (nat * event)         (* (rank, event), oldest first *)
}.

(** *** The message-passing substrate, read off the history *)

(** Barriers of [MPI_COMM_WORLD] that rank [r] has entered. *)
Definition entered (lg : list (nat * event)) (r : nat) : nat :=
  length (omap (fun x => match x with
                         | (r', EBarrier) =>
                             if decide (r' = r) then Some tt else None
                         | _ => None
                         end) lg).

(** A process leaves its k-th barrier once every process has entered its
    k-th barrier. *)
Definition barrier_open (lg : list (nat * event)) (size r : nat) : bool :=
  forallb (fun r' => entered lg r <=? entered lg r')%nat (seq 0 size).

(** The counts that rank [ri] handed to the gather of test [ti] (one, once
    it has called [MPI_Gather]). *)
Definition contributions (lg : list (nat * event)) (ti ri : nat) : list Z :=
  omap (fun x => match x with
                 | (r, EGather ti' n) =>
                     if decide (r = ri /\ ti' = ti) then Some n else None
                 | _ => None
                 end) lg.

Definition contribution (lg : list (nat * event)) (ti ri : nat) : option Z :=
  head (contributions lg ti ri).

(** What rank 0 receives from [MPI_Gather]: its own count and, once they
    are all there, the counts of ranks 1 .. n-1, in rank order. *)
Definition gather_all (lg : list (nat * event)) (ti : nat) (n : Z) (own : Z)
    : option (list Z) :=
  mapM (fun ri => if (ri =? 0)%nat then Some own else contribution lg ti ri)
       (seq 0 (Z.to_nat n)).

(** The buffers rank [src] has sent to rank 0 with tag [tag] on the
    communicator of test [ti], in the order of posting. *)
Definition posted (lg : list (nat * event)) (ti src tag : nat) : list string :=
  omap (fun x => match x with
                 | (r, EIssend ti' dest tag' buf) =>
                     if decide (r = src /\ ti' = ti /\ dest = 0%nat /\ tag' = tag)
                     then Some buf else None
                 | _ => None
                 end) lg.

(** How many of them rank 0 has received. *)
Definition matched (lg : list (nat * event)) (ti src tag : nat) : nat :=
  length (omap (fun x => match x with
                         | (r, ERecv ti' src' tag' _) =>
                             if decide (r = 0%nat /\ ti' = ti /\ src' = src
                                        /\ tag' = tag)
                             then Some tt else None
                         | _ => None
                         end) lg).

(** [MPI_Recv(.., src, tag, test_comm, ..)] on rank 0: messages of one
    sender and tag are matched in the order they were sent. *)
Definition incoming (lg : list (nat * event)) (ti src tag : nat)
    : option string :=
  posted lg ti src tag !! matched lg ti src tag.

(** The tags of the sends rank [r] has posted on the communicator of test
    [ti]: one request each. *)
Definition sent_tags (lg : list (nat * event)) (ti r : nat) : list nat :=
  omap (fun x => match x with
                 | (r', EIssend ti' _ tag _) =>
                     if decide (r' = r /\ ti' = ti) then Some tag else None
                 | _ => None
                 end) lg.

(** [MPI_Waitall] returns once every request is complete; a synchronous
    send is complete when its message has been matched by a receive. *)
Definition sends_complete (lg : list (nat * event)) (ti r : nat) : bool :=
  forallb (fun tag => length (posted lg ti r tag) <=? matched lg ti r tag)%nat
          (sent_tags lg ti r).

(** What a process asks of MPI where it may block: may rank [r] leave the
    barrier it is in; the gathered counts on rank 0; the next message of a
    sender and tag; whether all sends of rank [r] are complete. *)
Record mpi := {
  mpi_barrier : nat -> bool;
  mpi_gather : nat -> Z -> Z -> option (list Z);
  mpi_recv : nat -> nat -> nat -> option string;
  mpi_waitall : nat -> nat -> bool
}.

(** MPI as the history so far determines it, for [size] processes. *)
Definition substrate (lg : list (nat * event)) (size : nat) : mpi :=
  {| mpi_barrier := barrier_open lg size;
     mpi_gather := gather_all lg;
     mpi_recv := incoming lg;
     mpi_waitall := sends_complete lg |}.

(** *** One step of one process *)

Definition goto (p : proc) (k : pc) : proc :=
  {| p_pc := k; p_ti := p_ti p; p_list := p_list p;
     p_by_rank := p_by_rank p; p_total := p_total p |}.

Definition with_list (p : proc) (l : test_list) : proc :=
  {| p_pc := p_pc p; p_ti := p_ti p; p_list := l;
     p_by_rank := p_by_rank p; p_total := p_total p |}.

Definition with_by_rank (p : proc) (c : list Z) : proc :=
  {| p_pc := p_pc p; p_ti := p_ti p; p_list := p_list p;
     p_by_rank := c; p_total := p_total p |}.

Definition with_total (p : proc) (n : Z) : proc :=
  {| p_pc := p_pc p; p_ti := p_ti p; p_list := p_list p;
     p_by_rank := p_by_rank p; p_total := n |}.

Definition next_test (p : proc) : proc :=
  {| p_pc := PLoop; p_ti := S (p_ti p); p_list := p_list p;
     p_by_rank := p_by_rank p; p_total := p_total p |}.

(** Rank [r] becomes [p'] and the events [evs] join the history. *)
Definition emit (r : nat) (evs : list event) (p' : proc) (w : world) : world :=
  {| procs := <[r := p']> (procs w);
     log := log w ++ map (fun e => (r, e)) evs |}.

(** [if (rank == 0) printf(s)] *)
Definition root_prints (r : nat) (s : string) : list event :=
  if (r =? 0)%nat then [EPrintf s] else [].

Section Driver.

(** [body_errors f rank n] lists, in order, the [register_error] calls that
    the failing assertions of the entry point at [f] make on rank [rank] of
    a communicator of [n] processes.  An entry point acts on the harness
    through nothing else. *)
Variable body_errors : test_ptr -> nat -> Z -> list (assert_info * string).

(** Line 115: [this_test.fptr(test_comm)]. *)
Definition run_entry (f : test_ptr) (rank : nat) (n : Z) : M unit :=
  fun l =>
    foldl (fun acc '(info, why) =>
             match acc with
             | Some (_, l') => register_error info why l'
             | None => None
             end)
          (Some (tt, l)) (body_errors f rank n).

(** Lines 141-142: the sum of the gathered counts, in [int]. *)
Definition sum_counts (n : Z) (by_rank : list Z) : Z :=
  fold_left (fun total ri => to_int (total + nth ri by_rank 0))
            (seq 0 (Z.to_nat n)) 0.

(** One step of [main] on rank [r] of [size] processes, from the program
    point and the local variables [p]: the new program point and variables
    and what the step did.  [None]: the process is blocked (in a barrier, in
    the root's [MPI_Gather], in [MPI_Recv] or in [MPI_Waitall]), has
    returned, or is past undefined behaviour.

    In the send loop the offset [FAIL_MESSAGE_SIZE * fi] into the send
    buffer (lines 161 and 170) is a product of two [int]s: from record 2^21
    on it overflows, which is undefined.  In [MPI_Gather] the ranks other
    than 0 pass [num_fails_by_rank] without having given it a value (lines
    123-131): an indeterminate pointer, which [MPI_Gather] ignores on these
    ranks; the step takes the call to hand in the count, and does not
    count the pass as undefined. *)
Definition local_step (net : mpi) (r size : nat) (p : proc)
    : option (proc * list event) :=
  let ti := p_ti p in
  (* inside the loop: [this_test = list->tests[ti]] *)
  let in_test (k : test_info -> option (proc * list event)) :=
    match tests (p_list p) !! ti with
    | Some this_test => k this_test
    | None => Some (goto p PUndefined, [])
    end in
  match p_pc p with
  | PStart => Some (goto p PBarrier0, root_prints r (nl +:+ nl))
  | PBarrier0 => Some (goto p PWait0, [EBarrier])
  | PWait0 => if mpi_barrier net r then Some (goto p PCheck, []) else None
  | PCheck =>
      let largest := largest_test_size (p_list p) in
      if Z.of_nat size <? largest then
        Some (goto p PExitEarly,
              root_prints r (shortfall_line largest) ++ [EFinalize; EReturn 0])
      else Some (goto p PBarrier1, [])
  | PBarrier1 => Some (goto p PWait1, [EBarrier])
  | PWait1 => if mpi_barrier net r then Some (goto p PLoop, []) else None
  | PLoop =>
      match tests (p_list p) !! ti with
      | None => Some (goto p PExit, [EFinalize; EReturn 0])
      | Some this_test =>
          let p' := with_list p (set_current_test (p_list p) (Z.of_nat ti)) in
          if Z.of_nat r <? test_size this_test
          then Some (goto p' PRunning, [ESplit ti 1])
          else Some (goto p' PBarrierT, [ESplit ti 0])
      end
  | PRunning =>
      in_test (fun this_test =>
        Some (goto p PBody, root_prints r (running_line this_test)))
  | PBody =>
      in_test (fun this_test =>
        match run_entry (fptr this_test) r (test_size this_test) (p_list p) with
        | Some (_, l') => Some (goto (with_list p l') PGather, [EBody ti])
        | None => Some (goto p PUndefined, [EBody ti])
        end)
  | PGather =>
      in_test (fun this_test =>
        let num_fails_local := to_int (Z.of_nat (length (fails this_test))) in
        if (r =? 0)%nat then
          match mpi_gather net ti (test_size this_test) num_fails_local with
          | Some counts =>
              Some (goto (with_by_rank p counts) PSum,
                    [EGather ti num_fails_local])
          | None => None
          end
        else Some (goto p PSum, [EGather ti num_fails_local]))
  | PSum =>
      in_test (fun this_test =>
        if (r =? 0)%nat then
          let total := sum_counts (test_size this_test) (p_by_rank p) in
          Some (goto (with_total p total) (PSend 0),
                if total =? 0 then [EPrintf (success_line this_test)] else [])
        else Some (goto (with_total p 0) (PSend 0), []))
  | PSend fi =>
      in_test (fun this_test =>
        match fails this_test !! fi with
        | Some f =>
            match int_mul (Z.of_nat FAIL_MESSAGE_SIZE) (Z.of_nat fi) with
            | Some _ =>
                Some (goto p (PSend (S fi)),
                      [EIssend ti 0 fi (fail_message r f)])
            | None => Some (goto p PUndefined, [])
            end
        | None =>
            Some (goto p (if (r =? 0)%nat then PRecv 0 0 else PWaitall), [])
        end)
  | PRecv ri fi =>
      in_test (fun this_test =>
        if Z.of_nat ri <? test_size this_test then
          if Z.of_nat fi <? nth ri (p_by_rank p) 0 then
            match mpi_recv net ti ri fi with
            | Some buf =>
                Some (goto p (PRecv ri (S fi)),
                      [ERecv ti ri fi buf; EPrintf (buf +:+ nl)])
            | None => None
            end
          else Some (goto p (PRecv (S ri) 0), [])
        else Some (goto p PWaitall, []))
  | PWaitall =>
      in_test (fun this_test =>
        if mpi_waitall net ti r
        then Some (goto p PDelete, [EWaitall ti (length (fails this_test))])
        else None)
  | PDelete => Some (goto p PVerdict, [EDelete ti])
  | PVerdict =>
      in_test (fun this_test =>
        Some (goto p PBarrierT,
              if (r =? 0)%nat && negb (p_total p =? 0)
              then [EPrintf (fail_line this_test)] else []))
  | PBarrierT => Some (goto p PWaitT, [EBarrier])
  | PWaitT => if mpi_barrier net r then Some (goto p PCommFree, []) else None
  | PCommFree => Some (next_test p, [ECommFree ti])
  | PExitEarly | PExit | PUndefined => None
  end.

(** One step of the process of rank [r] in the world: a blocked or
    returned process leaves the world as it is. *)
Definition step (r : nat) (w : world) : world :=
  match procs w !! r with
  | None => w
  | Some p =>
      let size := length (procs w) in
      match local_step (substrate (log w) size) r size p with
      | Some (p', evs) => emit r evs p' w
      | None => w
      end
  end.

(** A schedule names, step after step, the rank that runs. *)
Definition run (schedule : list nat) (w : world) : world :=
  foldl (fun w r => step r w) w schedule.

End Driver.

(** Every process starts [main] with the registry that dynamic
    initialisation built. *)
Definition init_proc (registry : test_list) : proc :=
  {| p_pc := PStart; p_ti := 0; p_list := registry;
     p_by_rank := []; p_total := 0 |}.

Definition init_world (size : nat) (registry : test_list) : world :=
  {| procs := replicate size (init_proc registry); log := [] |}.

(** What rank [r] has done, and what rank 0 has printed. *)
Definition events_of (r : nat) (w : world) : list event :=
  omap (fun x => if decide (x.1 = r) then Some x.2 else None) (log w).

Definition console (w : world) : list string :=
  omap (fun e => match e with EPrintf s => Some s | _ => None end)
       (events_of 0 w).

Definition returned (p : proc) : bool :=
  match p_pc p with PExit | PExitEarly => true | _ => false end.

Definition all_returned (w : world) : bool := forallb returned (procs w).

(** Round-robin: every rank in turn, [rounds] times over. *)
Definition round_robin (size rounds : nat) : list nat :=
  concat (replicate rounds (seq 0 size)).

(** A concrete stream for closed examples: it writes the bit pattern of
    the operand as a decimal numeral (the real text is the C++ library's). *)
Definition stream_bits (fmt : float_format) (p : nat) (x : spec_float) : string :=
  pretty (bits_of fmt x).

(** The registry that the [TEST] declarations of src/dummy/dummy_tests.cpp
    build during dynamic initialisation; entry points are numbered in
    declaration order. *)
Definition dummy_tests : test_list :=
  add_test 8%nat [1] "serial_double_straddle"
    (add_test 7%nat [1] "serial_double_signed_zero"
      (add_test 6%nat [1] "serial_double_zero"
        (add_test 5%nat [1] "serial_float"
          (add_test 4%nat [1] "serial_double"
            (add_test 3%nat [1] "serial_add"
              (add_test 2%nat [2] "float_add_test"
                (add_test 1%nat [4] "sub_test"
                  (add_test 0%nat [2] "add_test" instance0)))))))).

(** The assertion of [serial_add] (dummy_tests.cpp, line 99) and the
    registry while that test, the fourth, is running. *)
Definition serial_add_info : assert_info :=
  {| line := 99; file := "dummy_tests.cpp";
     test_string := "ASSERT_EQ(2, 1 + 1)" |}.

Definition running_serial_add : test_list := set_current_test dummy_tests 3.

Definition dbl_2 : spec_float := S754_finite false 4503599627370496 (-51).

(** ** Vocabulary of the statements *)

(** [l'] is [l] with the record [f] appended to the ledger of the test
    that [current_test] names, and nothing else changed. *)
Definition recorded (l l' : test_list) (f : fail_info) : Prop :=
  current_test l' = current_test l /\
  length (tests l') = length (tests l) /\
  current_fails l' = current_fails l ++ [f] /\
  forall j t, tests l !! j = Some t ->
    exists t', tests l' !! j = Some t' /\
      fptr t' = fptr t /\ test_size t' = test_size t /\
      test_name t' = test_name t /\
      (j <> Z.to_nat (current_test l) -> fails t' = fails t).

(** What a predicate may do to the registry: nothing when it answers
    [true], one appended record with the given reason when it answers
    [false]. *)
Definition outcome (l : test_list) (res : option (bool * test_list))
    (verdict : bool) (info : assert_info) (why : string) : Prop :=
  if verdict then res = Some (true, l)
  else exists l', res = Some (false, l') /\
         recorded l l' {| assertion := info; reason := why |}.

(** The ledger rule of the comparison predicates for one call with result
    [res] from registry [l]: the call answers; a [true] answer leaves the
    registry as it was; a [false] answer has appended exactly one record,
    for this assertion, whose reason is one of [whys]. *)
Definition ledger_rule (l : test_list) (info : assert_info)
    (res : option (bool * test_list)) (whys : list string) : Prop :=
  (exists v l', res = Some (v, l')) /\
  (forall l', res = Some (true, l') -> l' = l) /\
  (forall l', res = Some (false, l') ->
     exists why, why ∈ whys /\
       recorded l l' {| assertion := info; reason := why |}).

(** [sub] occurs in [s]. *)
Definition contains (s sub : string) : Prop :=
  exists p q, s = p +:+ sub +:+ q.

(** The two instantiations the header's macros make. *)
Definition instantiated (fmt : float_format) : Prop :=
  fmt = binary32 \/ fmt = binary64.

(** [abs_tol >= 0]. *)
Definition flt_nonneg (x : spec_float) : Prop :=
  SFleb (S754_zero false) x = true.

(** The branch of [assert_ieee754_eq] that compares absolutely: the
    operands straddle zero or both are closer to zero than [abs_tol]. *)
Definition absolute_case (a b abs_tol : spec_float) : bool :=
  negb (Bool.eqb (signbit a) (signbit b))
  || (flt_lt (fabs a) abs_tol && flt_lt (fabs b) abs_tol).

(** The text of the quick exit: it depends on the operands only. *)
Definition garbage_reason (a b : spec_float) : string :=
  (garbage_first a).1 +:+ (garbage_second b).1.

Definition garbage (a b : spec_float) : bool :=
  isnan a || isinf a || isnan b || isinf b.

(** [|au - bu|], the distance the ULP branch measures. *)
Definition ulp_distance (fmt : float_format) (a b : spec_float) : Z :=
  Z.abs (bits_of fmt a - bits_of fmt b).

Module Expected.

(** ** The run the driver is meant to make

    What every process computes is fixed by the registry and by what the
    entry points record; the definitions below spell it out, and the
    properties compare the steps of [main] with it. *)

Section Run.

Variable body_errors : test_ptr -> nat -> Z -> list (assert_info * string).
Variable registry : test_list.

Definition ntests : nat := length (tests registry).

(** The records the entry point of test [t] leaves on rank [r]. *)
Definition errors_of (t : test_info) (r : nat) : list fail_info :=
  map (fun '(info, why) => {| assertion := info; reason := why |})
      (body_errors (fptr t) r (test_size t)).

(** The ledger of test [ti] on rank [r] once the test has run there:
    empty on a rank that does not take part. *)
Definition ledger (ti r : nat) : list fail_info :=
  match tests registry !! ti with
  | Some t => if Z.of_nat r <? test_size t then errors_of t r else []
  | None => []
  end.

Definition count (ti r : nat) : nat := length (ledger ti r).

(** Participants of test [ti]: ranks [0 .. comm_size ti - 1]. *)
Definition comm_size (ti : nat) : nat :=
  match tests registry !! ti with
  | Some t => Z.to_nat (test_size t)
  | None => 0
  end.

Definition counts (ti : nat) : list Z :=
  map (fun r => Z.of_nat (count ti r)) (seq 0 (comm_size ti)).

Definition total (ti : nat) : nat :=
  sum_list_with (count ti) (seq 0 (comm_size ti)).

(** The failure lines of test [ti]: by rank, and within a rank in the
    order of recording. *)
Definition failure_lines (ti : nat) : list string :=
  concat (map (fun r => map (fun f => fail_message r f +:+ nl) (ledger ti r))
              (seq 0 (comm_size ti))).

(** The report of test [ti] on the terminal of rank 0. *)
Definition report (ti : nat) : list string :=
  match tests registry !! ti with
  | Some t =>
      if 0 <? test_size t then
        running_line t ::
          (if (total ti =? 0)%nat then [success_line t]
           else failure_lines ti ++ [fail_line t])
      else []
  | None => []
  end.

(** MPI when nothing is late: barriers open, the gather delivers the
    counts, every expected message is there, every send is complete. *)
Definition ideal : mpi :=
  {| mpi_barrier := fun _ => true;
     mpi_gather := fun ti _ _ => Some (counts ti);
     mpi_recv := fun ti src tag => fail_message src <$> ledger ti src !! tag;
     mpi_waitall := fun _ _ => true |}.

(** The registry was just built: no ledger has a record yet. *)
Definition fresh : Prop := Forall (fun t => fails t = []) (tests registry).

(** The counts of every test fit [int], sum included. *)
Definition counts_fit : Prop := forall ti, Z.of_nat (total ti) < 2 ^ 31.

(** No rank records more than 2^21 failures in a test: every offset
    [FAIL_MESSAGE_SIZE * fi] of the send loop fits [int]. *)
Definition records_fit : Prop :=
  forall ti r, Z.of_nat FAIL_MESSAGE_SIZE * Z.of_nat (count ti r) <= 2 ^ 31.

(** *** The run that stops short of undefined behaviour

    [main] with a process held where its next step would be undefined.
    The expected run is compared with these steps; a launch follows them
    until a process meets undefined behaviour, and a process that has
    stays out of the history from then on. *)
Definition safe_local_step (net : mpi) (r size : nat) (p : proc)
    : option (proc * list event) :=
  match local_step body_errors net r size p with
  | Some (p', evs) =>
      match p_pc p' with
      | PUndefined => None
      | _ => Some (p', evs)
      end
  | None => None
  end.

Definition safe_step (r : nat) (w : world) : world :=
  match procs w !! r with
  | None => w
  | Some p =>
      let size := length (procs w) in
      match safe_local_step (substrate (log w) size) r size p with
      | Some (p', evs) => emit r evs p' w
      | None => w
      end
  end.

Definition safe_run (schedule : list nat) (w : world) : world :=
  foldl (fun w r => safe_step r w) w schedule.

(** [q] is the process [p] of the held run on rank [r], as it is or
    after the step from [p], which is undefined whatever MPI does. *)
Definition lagging (size r : nat) (p q : proc) : Prop :=
  q = p \/
  (q = goto p PUndefined /\
   forall net, local_step body_errors net r size p = Some (q, [])).

(** The world [w] of a launch against the world [ws] of the held run:
    the same history, and the same processes but for those past undefined
    behaviour. *)
Definition tracks (ws w : world) : Prop :=
  log w = log ws /\ length (procs w) = length (procs ws) /\
  forall r p q, procs ws !! r = Some p -> procs w !! r = Some q ->
    lagging (length (procs ws)) r p q.

(** *** Where a process is *)

Definition phase (k : pc) : nat :=
  match k with
  | PStart => 0 | PBarrier0 => 1 | PWait0 => 2 | PCheck => 3
  | PExitEarly => 4 | PBarrier1 => 4 | PWait1 => 5
  | PLoop => 6 | PRunning => 7 | PBody => 8 | PGather => 9 | PSum => 10
  | PSend _ => 11 | PRecv _ _ => 12 | PWaitall => 13 | PDelete => 14
  | PVerdict => 15 | PBarrierT => 16 | PWaitT => 17 | PCommFree => 18
  | PExit => 7 | PUndefined => 0
  end%nat.

(** Progress through [main]: thirteen program points per test. *)
Definition pos (p : proc) : nat := (p_ti p * 13 + phase (p_pc p))%nat.

(** Rank 0 counts after the others at a program point. *)
Definition key (r : nat) (p : proc) : nat :=
  (2 * pos p + (if (r =? 0)%nat then 1 else 0))%nat.

Definition body_done (k : pc) : bool :=
  match k with
  | PGather | PSum | PSend _ | PRecv _ _ | PWaitall | PDelete | PVerdict
  | PBarrierT | PWaitT | PCommFree => true
  | _ => false
  end.

(** The ledger of test [j] on rank [r] while the process is at [p]. *)
Definition ledger_now (r : nat) (p : proc) (j : nat) : list fail_info :=
  if (j <? p_ti p)%nat || ((j =? p_ti p)%nat && body_done (p_pc p))
  then ledger j r else [].

(** Barriers entered by a process at [p]. *)
Definition entered_of (p : proc) : nat :=
  match p_pc p with
  | PStart | PBarrier0 | PUndefined => 0
  | PWait0 | PCheck | PExitEarly | PBarrier1 => 1
  | PWait1 => 2
  | PWaitT | PCommFree => 3 + p_ti p
  | _ => 2 + p_ti p
  end%nat.

(** What rank [r] at [p] has handed to the gather of test [ti]. *)
Definition gathered (r : nat) (p : proc) (ti : nat) : list Z :=
  if decide (ti * 13 + 9 < pos p /\ r < comm_size ti)%nat
  then [Z.of_nat (count ti r)] else [].

(** How many records of test [ti] rank [r] at [p] has sent. *)
Definition sent_count (r : nat) (p : proc) (ti : nat) : nat :=
  if (ti * 13 + 11 <? pos p)%nat then count ti r
  else match p_pc p with
       | PSend fi => if (p_ti p =? ti)%nat then fi else 0%nat
       | _ => 0%nat
       end.

(** The buffers rank [r] at [p] has posted for test [ti] under [tag]. *)
Definition posted_of (r : nat) (p : proc) (ti tag : nat) : list string :=
  if (tag <? sent_count r p ti)%nat
  then option_list (fail_message r <$> ledger ti r !! tag) else [].

(** How many records of test [ti] and sender [src] rank 0 at [p] has
    received. *)
Definition recv_count (p : proc) (ti src : nat) : nat :=
  if (ti * 13 + 12 <? pos p)%nat then count ti src
  else match p_pc p with
       | PRecv ri fi =>
           if (p_ti p =? ti)%nat then
             if (src <? ri)%nat then count ti src
             else if (src =? ri)%nat then fi else 0%nat
           else 0%nat
       | _ => 0%nat
       end.

(** How many messages of test [ti], sender [src] and tag [tag] rank 0 at
    [p] has received. *)
Definition matched_of (p : proc) (ti src tag : nat) : nat :=
  if (tag <? recv_count p ti src)%nat then 1%nat else 0%nat.

(** The failure lines rank 0 has printed when its receive loops stand at
    sender [ri], record [fi]. *)
Definition lines_upto (ti ri fi : nat) : list string :=
  concat (map (fun r => map (fun f => fail_message r f +:+ nl) (ledger ti r))
              (seq 0 ri))
  ++ map (fun f => fail_message ri f +:+ nl) (take fi (ledger ti ri)).

(** What rank 0 at [p] has printed for the test it is in. *)
Definition partial_report (p : proc) : list string :=
  match tests registry !! p_ti p with
  | None => []
  | Some t =>
      let verdict := if (total (p_ti p) =? 0)%nat then [success_line t] else [] in
      match p_pc p with
      | PBody | PGather | PSum => [running_line t]
      | PSend _ => running_line t :: verdict
      | PRecv ri fi => running_line t :: verdict ++ lines_upto (p_ti p) ri fi
      | PWaitall | PDelete | PVerdict =>
          running_line t :: verdict ++ failure_lines (p_ti p)
      | PBarrierT | PWaitT | PCommFree => report (p_ti p)
      | _ => []
      end
  end.

(** What rank 0 at [p] has printed. *)
Definition console_of (p : proc) : list string :=
  match p_pc p with
  | PStart | PUndefined => []
  | PExitEarly =>
      [nl +:+ nl; shortfall_line (largest_test_size registry)]
  | _ => (nl +:+ nl) :: concat (map report (seq 0 (p_ti p))) ++ partial_report p
  end.

Section Invariant.

Variable size : nat.

Definition enough : Prop := largest_test_size registry <= Z.of_nat size.

(** How far a process is, the send and the receive loops counted in; how
    far the world is, and how far it can get. *)
Definition most : nat := sum_list_with total (seq 0 ntests).

Definition inner (p : proc) : nat :=
  match p_pc p with
  | PSend fi => fi
  | PRecv ri fi => ri * (most + 1) + fi
  | _ => 0
  end%nat.

Definition weight (p : proc) : nat :=
  (pos p * ((size + 1) * (most + 1)) + inner p)%nat.

Definition measure (w : world) : nat := sum_list_with weight (procs w).

Definition ceiling : nat :=
  (size * ((ntests * 13 + 19) * ((size + 1) * (most + 1))))%nat.

(** Inside the body of the loop, on a participant. *)
Definition in_iteration (r : nat) (p : proc) : Prop :=
  (p_ti p < ntests)%nat /\ (r < comm_size (p_ti p))%nat /\
  current_test (p_list p) = Z.of_nat (p_ti p) /\ enough.

Definition by_rank_ok (r : nat) (p : proc) : Prop :=
  r = 0%nat -> p_by_rank p = counts (p_ti p).

Definition total_ok (r : nat) (p : proc) : Prop :=
  p_total p = if (r =? 0)%nat then Z.of_nat (total (p_ti p)) else 0.

(** What holds of the local variables at each program point. *)
Definition proc_inv (r : nat) (p : proc) : Prop :=
  (forall j, tests (p_list p) !! j
             = (fun t => with_fails t (ledger_now r p j)) <$> tests registry !! j) /\
  match p_pc p with
  | PStart | PBarrier0 | PWait0 | PCheck => p_ti p = 0%nat
  | PExitEarly => p_ti p = 0%nat /\ ~ enough
  | PBarrier1 | PWait1 => p_ti p = 0%nat /\ enough
  | PLoop => (p_ti p <= ntests)%nat /\ enough
  | PRunning | PBody | PGather => in_iteration r p
  | PSum => in_iteration r p /\ by_rank_ok r p
  | PSend fi =>
      in_iteration r p /\ by_rank_ok r p /\ total_ok r p /\
      (fi <= count (p_ti p) r)%nat
  | PRecv ri fi =>
      in_iteration r p /\ by_rank_ok r p /\ total_ok r p /\ r = 0%nat /\
      (ri <= comm_size (p_ti p))%nat /\ (fi <= count (p_ti p) ri)%nat
  | PWaitall | PDelete | PVerdict => in_iteration r p /\ total_ok r p
  | PBarrierT | PWaitT | PCommFree => (p_ti p < ntests)%nat /\ enough
  | PExit => p_ti p = ntests /\ enough
  | PUndefined => False
  end.

(** What a list of events prints. *)
Definition prints (evs : list event) : list string :=
  omap (fun e => match e with EPrintf s => Some s | _ => None end) evs.

Definition is_send (e : event) : bool :=
  match e with EIssend _ _ _ _ => true | _ => false end.

Definition is_recv (e : event) : bool :=
  match e with ERecv _ _ _ _ => true | _ => false end.

Definition is_printf (e : event) : bool :=
  match e with EPrintf _ => true | _ => false end.

(** What an event says, whenever it happens. *)
Definition event_ok (r : nat) (e : event) : Prop :=
  match e with
  | EPrintf _ => r = 0%nat
  | EBody ti => (ti < ntests)%nat /\ (r < comm_size ti)%nat /\ enough
  | EGather ti n => n = Z.of_nat (count ti r) /\ (r < comm_size ti)%nat
  | EIssend ti dest tag buf =>
      dest = 0%nat /\ fail_message r <$> ledger ti r !! tag = Some buf
  | ERecv ti src tag buf =>
      r = 0%nat /\ fail_message src <$> ledger ti src !! tag = Some buf
  | EWaitall ti n => n = count ti r
  | EReturn status => status = 0
  | _ => True
  end.

(** The steps of the expected run: from [p], rank [r] goes to [p'] and
    does [evs]. *)
Inductive trans (r : nat) (p : proc) : proc -> list event -> Prop :=
| T_start :
    p_pc p = PStart ->
    trans r p (goto p PBarrier0) (root_prints r (nl +:+ nl))
| T_barrier0 :
    p_pc p = PBarrier0 -> trans r p (goto p PWait0) [EBarrier]
| T_wait0 :
    p_pc p = PWait0 -> trans r p (goto p PCheck) []
| T_check_short :
    p_pc p = PCheck -> ~ enough ->
    trans r p (goto p PExitEarly)
      (root_prints r (shortfall_line (largest_test_size registry))
         ++ [EFinalize; EReturn 0])
| T_check_enough :
    p_pc p = PCheck -> enough -> trans r p (goto p PBarrier1) []
| T_barrier1 :
    p_pc p = PBarrier1 -> trans r p (goto p PWait1) [EBarrier]
| T_wait1 :
    p_pc p = PWait1 -> trans r p (goto p PLoop) []
| T_loop_end :
    p_pc p = PLoop -> p_ti p = ntests ->
    trans r p (goto p PExit) [EFinalize; EReturn 0]
| T_loop_in :
    p_pc p = PLoop -> (p_ti p < ntests)%nat -> (r < comm_size (p_ti p))%nat ->
    trans r p
      (goto (with_list p (set_current_test (p_list p) (Z.of_nat (p_ti p))))
            PRunning)
      [ESplit (p_ti p) 1]
| T_loop_out :
    p_pc p = PLoop -> (p_ti p < ntests)%nat -> (comm_size (p_ti p) <= r)%nat ->
    trans r p
      (goto (with_list p (set_current_test (p_list p) (Z.of_nat (p_ti p))))
            PBarrierT)
      [ESplit (p_ti p) 0]
| T_running t :
    p_pc p = PRunning -> tests registry !! p_ti p = Some t ->
    trans r p (goto p PBody) (root_prints r (running_line t))
| T_body l' :
    p_pc p = PBody ->
    trans r p (goto (with_list p l') PGather) [EBody (p_ti p)]
| T_gather :
    p_pc p = PGather ->
    trans r p
      (goto (with_by_rank p (if (r =? 0)%nat then counts (p_ti p)
                             else p_by_rank p)) PSum)
      [EGather (p_ti p) (Z.of_nat (count (p_ti p) r))]
| T_sum t :
    p_pc p = PSum -> tests registry !! p_ti p = Some t ->
    trans r p
      (goto (with_total p (if (r =? 0)%nat then Z.of_nat (total (p_ti p)) else 0))
            (PSend 0))
      (if (r =? 0)%nat && (total (p_ti p) =? 0)%nat
       then [EPrintf (success_line t)] else [])
| T_send fi f :
    p_pc p = PSend fi -> ledger (p_ti p) r !! fi = Some f ->
    trans r p (goto p (PSend (S fi)))
      [EIssend (p_ti p) 0 fi (fail_message r f)]
| T_send_done :
    p_pc p = PSend (count (p_ti p) r) ->
    trans r p (goto p (if (r =? 0)%nat then PRecv 0 0 else PWaitall)) []
| T_recv ri fi f :
    p_pc p = PRecv ri fi -> r = 0%nat -> (ri < comm_size (p_ti p))%nat ->
    ledger (p_ti p) ri !! fi = Some f ->
    trans r p (goto p (PRecv ri (S fi)))
      [ERecv (p_ti p) ri fi (fail_message ri f);
       EPrintf (fail_message ri f +:+ nl)]
| T_recv_next ri :
    p_pc p = PRecv ri (count (p_ti p) ri) -> r = 0%nat ->
    (ri < comm_size (p_ti p))%nat ->
    trans r p (goto p (PRecv (S ri) 0)) []
| T_recv_done :
    p_pc p = PRecv (comm_size (p_ti p)) 0 -> r = 0%nat ->
    trans r p (goto p PWaitall) []
| T_waitall :
    p_pc p = PWaitall ->
    trans r p (goto p PDelete) [EWaitall (p_ti p) (count (p_ti p) r)]
| T_delete :
    p_pc p = PDelete -> trans r p (goto p PVerdict) [EDelete (p_ti p)]
| T_verdict t :
    p_pc p = PVerdict -> tests registry !! p_ti p = Some t ->
    trans r p (goto p PBarrierT)
      (if (r =? 0)%nat && negb (total (p_ti p) =? 0)%nat
       then [EPrintf (fail_line t)] else [])
| T_barrierT :
    p_pc p = PBarrierT -> trans r p (goto p PWaitT) [EBarrier]
| T_waitT :
    p_pc p = PWaitT -> trans r p (goto p PCommFree) []
| T_commfree :
    p_pc p = PCommFree -> trans r p (next_test p) [ECommFree (p_ti p)].

(** The history agrees with where each process is. *)
Definition proc_ok (w : world) (r : nat) (p : proc) : Prop :=
  proc_inv r p /\
  entered (log w) r = entered_of p /\
  (forall ti, contributions (log w) ti r = gathered r p ti) /\
  (forall ti, sent_tags (log w) ti r = seq 0 (sent_count r p ti)) /\
  (forall ti tag, posted (log w) ti r tag = posted_of r p ti tag).

Definition root_ok (w : world) (p0 : proc) : Prop :=
  (forall ti src tag, matched (log w) ti src tag = matched_of p0 ti src tag) /\
  console w = console_of p0.

Definition inv (w : world) : Prop :=
  length (procs w) = size /\
  (forall r p, procs w !! r = Some p -> proc_ok w r p) /\
  (forall p0, procs w !! 0%nat = Some p0 -> root_ok w p0) /\
  Forall (fun x => event_ok x.1 x.2) (log w).

(** What has happened before an event, at the moment it happens: a
    process has handed in its count before it sends; every participant has
    handed in its count, and the message has been sent, before rank 0
    receives it; all sends of a process for a test are posted and complete
    when it leaves [MPI_Waitall]; it has left [MPI_Waitall] when it frees
    its buffers and when it moves on to the next test. *)
Definition all_sent (lg : list (nat * event)) (ti r : nat) : Prop :=
  sent_tags lg ti r = seq 0 (count ti r) /\ sends_complete lg ti r = true.

Definition timely (lg : list (nat * event)) (x : nat * event) : Prop :=
  match x with
  | (r, EIssend ti _ _ _) => contributions lg ti r <> []
  | (r, ERecv ti src tag buf) =>
      (forall ri, (ri < comm_size ti)%nat -> contributions lg ti ri <> []) /\
      (src, EIssend ti 0 tag buf) ∈ lg
  | (r, EWaitall ti _) => all_sent lg ti r
  | (r, EDelete ti) =>
      all_sent lg ti r /\ (r, EWaitall ti (count ti r)) ∈ lg
  | (r, ECommFree ti) =>
      all_sent lg ti r /\
      ((r < comm_size ti)%nat -> (r, EWaitall ti (count ti r)) ∈ lg)
  | _ => True
  end.

Definition history_ok (lg : list (nat * event)) : Prop :=
  forall l1 x l2, lg = l1 ++ x :: l2 -> timely l1 x.

(** Rank 0 is past its gather only when every participant has
    contributed; a process is past its [MPI_Waitall] only when its sends
    are complete, and a participant only through [MPI_Waitall]. *)
Definition inv_order (w : world) : Prop :=
  (forall p0 ti ri,
     procs w !! 0%nat = Some p0 -> (ti * 13 + 9 < pos p0)%nat ->
     (ri < comm_size ti)%nat -> contributions (log w) ti ri <> []) /\
  (forall r p ti,
     procs w !! r = Some p -> (ti * 13 + 13 < pos p)%nat ->
     sends_complete (log w) ti r = true /\
     ((r < comm_size ti)%nat -> (r, EWaitall ti (count ti r)) ∈ log w)) /\
  history_ok (log w).

(** A process that has returned has called [MPI_Finalize] and returned 0. *)
Definition exits_ok (w : world) : Prop :=
  forall r p, procs w !! r = Some p -> returned p = true ->
    (r, EFinalize) ∈ log w /\ (r, EReturn 0) ∈ log w.

End Invariant.

End Run.

(** Before the launch size is checked, and after the early [return]. *)
Definition early (p : proc) : bool :=
  match p_pc p with
  | PStart | PBarrier0 | PWait0 | PCheck | PExitEarly => true
  | _ => false
  end.

(** Entry points that record nothing. *)
Definition silent (f : test_ptr) (rank : nat) (n : Z)
    : list (assert_info * string) := [].

(** A registry for closed examples: a test on two processes whose ranks
    record one and two failures, then a test on one process that records
    none. *)
Definition uneven_tests : test_list :=
  add_test 1%nat [1] "quiet" (add_test 0%nat [2] "uneven" instance0).

Definition uneven_info (ln : Z) (s : string) : assert_info :=
  {| line := ln; file := "uneven.cpp"; test_string := s |}.

Definition uneven_errors (f : test_ptr) (rank : nat) (n : Z)
    : list (assert_info * string) :=
  match f, rank with
  | O, O => [(uneven_info 10 "EXPECT_TRUE(a)", "0 is falsy")]
  | O, _ => [(uneven_info 12 "EXPECT_EQ(b, c)", "1 does not equal 2");
             (uneven_info 13 "EXPECT_TRUE(d)", "0 is falsy")]
  | _, _ => []
  end.

End Expected.

Import Expected.

(** ** Registries that dynamic initialisation builds

    Every [TEST(name, sizes...)] initialises a variable with a call of
    [add_test] on the registry that [test_list::instance()] hands out
    (mpitest.h, lines 218-222). *)
Inductive built : test_list -> Prop :=
| built_instance : built instance0
| built_add_test (test : test_ptr) (test_sizes : list Z) (name : string)
    (l : test_list) :
    built l -> built (add_test test test_sizes name l).

(** The [test_info] that [add_test] pushes for one size. *)
Definition registered (test : test_ptr) (name : string) (test_size : Z)
    : test_info :=
  {| fptr := test; test_size := test_size; test_name := name; fails := [] |}.

(** [l'] is [l] with the records [fs] appended, in order, to the ledger of
    the test that [current_test] names, and nothing else changed. *)
Definition appended (l l' : test_list) (fs : list fail_info) : Prop :=
  current_test l' = current_test l /\
  forall j, tests l' !! j =
    (fun t => if decide (j = Z.to_nat (current_test l))
              then with_fails t (fails t ++ fs) else t) <$> tests l !! j.

Definition record_of (e : assert_info * string) : fail_info :=
  {| assertion := e.1; reason := e.2 |}.

(** What a comparison answers does not depend on the registry: it
    answers [true] and does nothing, or registers one failure and answers
    [false]. *)
Definition verdict_of (c : M bool) (v : option (assert_info * string)) : Prop :=
  forall l, c l = match v with
                  | None => Some (true, l)
                  | Some (info, why) =>
                      (register_error info why ;; mret false) l
                  end.

(** What [assert_ieee754_eq] answers, read off its branches (lines
    149-211). *)
Definition ieee754_verdict (fmt : float_format) (a b : spec_float)
    (ulp_tol : Z) (abs_tol : spec_float) : bool :=
  if garbage a b then false
  else if absolute_case a b abs_tol then
    negb (flt_gt (fabs (flt_sub fmt a b)) abs_tol)
  else if bits_of fmt a >? bits_of fmt b then
    negb (bits_of fmt a - bits_of fmt b >? to_unsigned fmt ulp_tol)
  else if bits_of fmt b >? bits_of fmt a then
    negb (bits_of fmt b - bits_of fmt a >? to_unsigned fmt ulp_tol)
  else true.

(** ** The assertion macros (mpitest.h, lines 228-291)

    [LINE] and [FILE] stand for [__LINE__] and [__FILE__]; [a_src] and
    [b_src] are the texts of the macro arguments, which [#a] and [#b] turn
    into string literals. *)
Definition info_of (LINE : Z) (FILE : string) (text : string) : assert_info :=
  {| line := LINE; file := FILE; test_string := text |}.

(** The statements of an entry point: a registry transformer that says
    whether control goes on to the next statement ([true]) or the entry
    point has returned ([false]). *)
Definition body : Type := M bool.

(** [c;] for an [EXPECT_...] macro [c], whose value is dropped. *)
Definition expression (c : M bool) : body := c ;; mret true.

(** [if (!c) { return; }] *)
Definition return_unless (c : M bool) : body :=
  c ≫= fun ok : bool => if negb ok then mret false else mret true.

(** [s1 s2], one statement after the other. *)
Definition then_ (s1 s2 : body) : body :=
  s1 ≫= fun go_on : bool => if go_on then s2 else mret false.

(** The statements [ss] in a row. *)
Definition block (ss : list body) : body := foldr then_ (mret true) ss.

(** Lines 228-236.  Both macros write ["EXPECT_TRUE("]. *)
Definition EXPECT_TRUE {T} `{Primitive T} (LINE : Z) (FILE a_src : string)
    (a : T) : M bool :=
  assert_true a (info_of LINE FILE ("EXPECT_TRUE(" +:+ a_src +:+ ")")).

Definition ASSERT_TRUE {T} `{Primitive T} (LINE : Z) (FILE a_src : string)
    (a : T) : body :=
  return_unless
    (assert_true a (info_of LINE FILE ("EXPECT_TRUE(" +:+ a_src +:+ ")"))).

(** Lines 242-251. *)
Definition EXPECT_EQ {T} `{Primitive T} (LINE : Z) (FILE a_src b_src : string)
    (a b : T) : M bool :=
  assert_eq a b
    (info_of LINE FILE ("EXPECT_EQ(" +:+ a_src +:+ ", " +:+ b_src +:+ ")")).

Definition ASSERT_EQ {T} `{Primitive T} (LINE : Z) (FILE a_src b_src : string)
    (a b : T) : body :=
  return_unless
    (assert_eq a b
       (info_of LINE FILE ("ASSERT_EQ(" +:+ a_src +:+ ", " +:+ b_src +:+ ")"))).

Section FloatMacros.

Variable stream_float : float_format -> nat -> spec_float -> string.

(** [__VA_ARGS__] of the floating-point macros: [ulp_tol], then
    optionally [abs_tol]. *)
Definition ieee754_call (fmt : float_format) (info : assert_info)
    (a b : spec_float) (ulp_tol : Z) (abs_tol : option spec_float) : M bool :=
  match abs_tol with
  | Some tol => assert_ieee754_eq stream_float fmt info a b ulp_tol tol
  | None => assert_ieee754_eq_default stream_float fmt info a b ulp_tol
  end.

(** Lines 259-274: [<float, uint32_t>]. *)
Definition EXPECT_FLOAT_EQ (LINE : Z) (FILE a_src b_src : string)
    (a b : spec_float) (ulp_tol : Z) (abs_tol : option spec_float) : M bool :=
  ieee754_call binary32
    (info_of LINE FILE ("EXPECT_FLOAT_EQ(" +:+ a_src +:+ ", " +:+ b_src +:+ ")"))
    a b ulp_tol abs_tol.

Definition ASSERT_FLOAT_EQ (LINE : Z) (FILE a_src b_src : string)
    (a b : spec_float) (ulp_tol : Z) (abs_tol : option spec_float) : body :=
  return_unless
    (ieee754_call binary32
       (info_of LINE FILE
          ("ASSERT_FLOAT_EQ(" +:+ a_src +:+ ", " +:+ b_src +:+ ")"))
       a b ulp_tol abs_tol).

(** Lines 276-291: [<double, uint64_t>]. *)
Definition EXPECT_DOUBLE_EQ (LINE : Z) (FILE a_src b_src : string)
    (a b : spec_float) (ulp_tol : Z) (abs_tol : option spec_float) : M bool :=
  ieee754_call binary64
    (info_of LINE FILE ("EXPECT_DOUBLE_EQ(" +:+ a_src +:+ ", " +:+ b_src +:+ ")"))
    a b ulp_tol abs_tol.

Definition ASSERT_DOUBLE_EQ (LINE : Z) (FILE a_src b_src : string)
    (a b : spec_float) (ulp_tol : Z) (abs_tol : option spec_float) : body :=
  return_unless
    (ieee754_call binary64
       (info_of LINE FILE
          ("ASSERT_DOUBLE_EQ(" +:+ a_src +:+ ", " +:+ b_src +:+ ")"))
       a b ulp_tol abs_tol).

(** A call of one of the comparison predicates. *)
Inductive check : M bool -> Prop :=
| check_true {T} `{Primitive T} (a : T) (info : assert_info) :
    check (assert_true a info)
| check_eq {T} `{Primitive T} (a b : T) (info : assert_info) :
    check (assert_eq a b info)
| check_ieee754 (fmt : float_format) (info : assert_info) (a b : spec_float)
    (ulp_tol : Z) (abs_tol : spec_float) :
    instantiated fmt ->
    check (assert_ieee754_eq stream_float fmt info a b ulp_tol abs_tol).

(** Entry points that touch the harness through its macros only. *)
Inductive harness_body : body -> Prop :=
| hb_fall_through : harness_body (mret true)
| hb_return : harness_body (mret false)
| hb_expect (c : M bool) : check c -> harness_body (expression c)
| hb_assert (c : M bool) : check c -> harness_body (return_unless c)
| hb_then (s1 s2 : body) :
    harness_body s1 -> harness_body s2 -> harness_body (then_ s1 s2).

End FloatMacros.

(** The six serial entry points of src/dummy/dummy_tests.cpp, lines
    97-125, with the literals as [double]s and [float]s. *)
Definition flt_1337 : spec_float := S754_finite false 10952704 (-13).
Definition dbl_1337 : spec_float := S754_finite false 5880188185346048 (-42).

Section SerialTests.

Variable stream_float : float_format -> nat -> spec_float -> string.

Definition serial_add : body :=
  ASSERT_EQ 99 "dummy_tests.cpp" "2" "1 + 1" 2 (1 + 1).

Definition serial_double : body :=
  ASSERT_EQ (H := Primitive_double stream_float)
    104 "dummy_tests.cpp" "1337." "1337." dbl_1337 dbl_1337.

Definition serial_float : body :=
  ASSERT_FLOAT_EQ stream_float 109 "dummy_tests.cpp" "1337.f" "1337.f"
    flt_1337 flt_1337 10 None.

Definition serial_double_zero : body :=
  ASSERT_DOUBLE_EQ stream_float 114 "dummy_tests.cpp" "0." "1e-8"
    dbl_0 dbl_1e_8 10 (Some dbl_5e_8).

Definition serial_double_signed_zero : body :=
  ASSERT_DOUBLE_EQ stream_float 119 "dummy_tests.cpp" "-0." "1e-6"
    (S754_zero true) dbl_1e_6 10 None.

Definition serial_double_straddle : body :=
  ASSERT_DOUBLE_EQ stream_float 124 "dummy_tests.cpp" "-0.000001" "0.000001"
    dbl_neg_1e_6 dbl_1e_6 10 None.

End SerialTests.

(** ** More readings of the history *)

(** Calls of the entry point of test [ti] that rank [r] has made. *)
Definition bodies (lg : list (nat * event)) (ti r : nat) : nat :=
  length (omap (fun x => match x with
                         | (r', EBody ti') =>
                             if decide (r' = r /\ ti' = ti) then Some tt else None
                         | _ => None
                         end) lg).

(** How often rank [r] at [p] has called the entry point of test [ti]. *)
Definition body_runs (registry : test_list) (r : nat) (p : proc) (ti : nat)
    : nat :=
  if decide ((ti * 13 + 8 < pos p)%nat /\ (r < comm_size registry ti)%nat)
  then 1%nat else 0%nat.

Definition inv_body (registry : test_list) (w : world) : Prop :=
  forall r p ti, procs w !! r = Some p ->
    bodies (log w) ti r = body_runs registry r p ti.

(** A process is past the barrier that ends test [ti] only when every
    process has entered that barrier. *)
Definition inv_sync (w : world) : Prop :=
  forall r p ti r',
    procs w !! r = Some p -> (ti * 13 + 17 < pos p)%nat ->
    (r' < length (procs w))%nat -> (3 + ti <= entered (log w) r')%nat.

(** At the moment a process splits the communicator for the next test,
    every participant of the test before has run its entry point, posted
    all its sends, seen them complete and left [MPI_Waitall]. *)
Definition finished_before
    (body_errors : test_ptr -> nat -> Z -> list (assert_info * string))
    (registry : test_list) (lg : list (nat * event)) (x : nat * event) : Prop :=
  match x with
  | (_, ESplit (S ti) _) =>
      forall r', (r' < comm_size registry ti)%nat ->
        (r', EBody ti) ∈ lg /\
        all_sent body_errors registry lg ti r' /\
        (r', EWaitall ti (count body_errors registry ti r')) ∈ lg
  | _ => True
  end.

Definition inv_separate
    (body_errors : test_ptr -> nat -> Z -> list (assert_info * string))
    (registry : test_list) (w : world) : Prop :=
  forall l1 x l2, log w = l1 ++ x :: l2 ->
    finished_before body_errors registry l1 x.


(** ** The code under test of the dummy (src/dummy/dummy.cpp)

    An array of [n] elements is dealt out in blocks to the processes of a
    communicator, and the blocks are added or subtracted element by
    element. *)
Module Dummy.

Inductive MPI_Datatype := MPI_FLOAT | MPI_DOUBLE | MPI_INT.

(** What the templates need of [real]: the overload of [init] that its
    type selects (lines 21-40), and [operator+] and [operator-], which are
    undefined where a signed integer overflows. *)
Class Real (real : Type) := {
  init : MPI_Datatype;
  plus : real -> real -> option real;
  minus : real -> real -> option real
}.

(** An [int] result, [None] where it overflows. *)
Definition int_result (z : Z) : option Z :=
  if decide (- 2 ^ 31 <= z < 2 ^ 31) then Some z else None.

#[global] Instance Real_int : Real Z := {|
  init := MPI_INT;
  plus x y := int_result (x + y);
  minus x y := int_result (x - y)
|}.

(** [float], as the [spec_float]s of binary32. *)
Definition Real_float : Real spec_float := {|
  init := MPI_FLOAT;
  plus x y := Some (SFadd 24 128 x y);
  minus x y := Some (SFsub 24 128 x y)
|}.

Definition Real_double : Real spec_float := {|
  init := MPI_DOUBLE;
  plus x y := Some (SFadd 53 1024 x y);
  minus x y := Some (SFsub 53 1024 x y)
|}.

(** Lines 8-19.  [new real[n]] leaves its elements without a value:
    [None]. *)
Record arrays (real : Type) := {
  rank : Z;
  size : Z;
  comm : nat;
  type : MPI_Datatype;
  n_local : Z;
  a_local : list (option real);
  b_local : list (option real);
  c_local : list (option real)
}.

Arguments rank {real}.
Arguments size {real}.
Arguments comm {real}.
Arguments type {real}.
Arguments n_local {real}.
Arguments a_local {real}.
Arguments b_local {real}.
Arguments c_local {real}.

(** How a call ends: in undefined behaviour, with the exception of a
    [new] of negative length, in [MPI_Abort], inside a barrier that never
    opens, or with a value. *)
Inductive ending (A : Type) :=
| Undefined
| Thrown
| Aborted (text : string) (errorcode : Z)
| Stuck
| Returns (a : A).

Arguments Undefined {A}.
Arguments Thrown {A}.
Arguments Aborted {A}.
Arguments Stuck {A}.
Arguments Returns {A}.

(** [p[i]] for an [int] index [i] into an array of known extent; an
    element without a value cannot be read. *)
Definition at_index {A} (p : list (option A)) (i : Z) : option A :=
  if decide (0 <= i) then mjoin (p !! Z.to_nat i) else None.

(** [p[i] = x] *)
Definition store {A} (p : list (option A)) (i : Z) (x : A)
    : option (list (option A)) :=
  if decide (0 <= i < Z.of_nat (length p)) then Some (<[Z.to_nat i := Some x]> p)
  else None.

(** [new real[n]] *)
Definition new_array {A} (n : Z) : option (list (option A)) :=
  if decide (0 <= n) then Some (replicate (Z.to_nat n) None) else None.

(** [for (int i = 0; i < n; ++i) step], on the state [s]; [None] is
    undefined behaviour. *)
Definition for_each {S} (n : Z) (step : Z -> S -> option S) (s : S) : option S :=
  foldl (fun acc i => acc ≫= step (Z.of_nat i)) (Some s) (seq 0 (Z.to_nat n)).

Section Templates.

Context {real : Type} `{Real real}.

(** Lines 42-76.  [rank] and [size] are what [MPI_Comm_rank] and
    [MPI_Comm_size] report for [comm]; [a] and [b] are the caller's
    arrays; [barrier] says whether [MPI_Barrier] returns. *)
Definition setup (comm : nat) (rank size : Z) (barrier : bool)
    (a b : list (option real)) (n : Z) : ending (arrays real) :=
  if decide (size = 0) then Undefined
  else if negb (Z.rem n size =? 0) && (rank =? 0) then
    Aborted "choose an array size that divides evenly!" 1
  else if negb barrier then Stuck
  else
    let n_local := Z.quot n size in
    match new_array n_local, new_array n_local, new_array n_local with
    | Some a0, Some b0, Some c0 =>
        match int_result (rank * n_local) ≫= fun offset =>
              for_each n_local
                (fun i '(a_local, b_local) =>
                   j ← int_result (i + offset);
                   x ← at_index a j; a_local' ← store a_local i x;
                   y ← at_index b j; b_local' ← store b_local i y;
                   Some (a_local', b_local'))
                (a0, b0) with
        | Some (a_local, b_local) =>
            Returns {| rank := rank; size := size; comm := comm; type := init;
                       n_local := n_local; a_local := a_local;
                       b_local := b_local; c_local := c0 |}
        | None => Undefined
        end
    | _, _, _ => Thrown
    end.

Definition with_c_local (state : arrays real) (c : list (option real))
    : arrays real :=
  {| rank := rank state; size := size state; comm := comm state;
     type := type state; n_local := n_local state; a_local := a_local state;
     b_local := b_local state; c_local := c |}.

(** The loop of [add] and [sub] (lines 126-138) for the operator [op]. *)
Definition combine (op : real -> real -> option real) (state : arrays real)
    : ending (arrays real) :=
  match for_each (n_local state)
          (fun i c =>
             x ← at_index (a_local state) i;
             y ← at_index (b_local state) i;
             z ← op x y;
             store c i z)
          (c_local state) with
  | Some c => Returns (with_c_local state c)
  | None => Undefined
  end.

Definition add (state : arrays real) : ending (arrays real) :=
  combine plus state.

Definition sub (state : arrays real) : ending (arrays real) :=
  combine minus state.

End Templates.

End Dummy.

(** [xs] with every element holding a value, and the block of [k]
    elements that rank [r] gets. *)
Definition values {A} (xs : list A) : list (option A) := map Some xs.

Definition block_of {A} (xs : list A) (r k : nat) : list A :=
  take k (drop (r * k) xs).

(** [op] on the elements of two arrays side by side; [None] as soon as
    one result is undefined. *)
Definition elementwise {A} (op : A -> A -> option A) (xs ys : list A)
    : option (list A) :=
  mapM (fun p => op p.1 p.2) (zip xs ys).

(** The fixture of src/dummy/dummy_tests.cpp, lines 7-12. *)
Definition int_fixture_a : list Z := [1; 2; 3; 4; 5; 6; 7; 8].
Definition int_fixture_b : list Z := [0; 1; 2; 3; 4; 5; 6; 7].

(** * Properties *)

(** ** Error registration *)

Lemma register_error_valid (l : test_list) (info : assert_info) (why : string) :
  current_valid l ->
  exists l', register_error info why l = Some (tt, l') /\
             recorded l l' {| assertion := info; reason := why |}.
Proof.
  intros [Hlo Hhi]. unfold register_error.
  destruct (decide (0 <= current_test l)) as [_|]; [|lia].
  set (i := Z.to_nat (current_test l)).
  assert (Hi : (i < length (tests l))%nat) by (unfold i; lia).
  destruct (lookup_lt_is_Some_2 _ _ Hi) as [t Ht]. rewrite Ht.
  eexists; split; [reflexivity|].
  unfold recorded, current_fails; simpl. fold i.
  split; [reflexivity|]. split; [apply length_insert|]. split.
  - rewrite list_lookup_insert_eq by assumption. now rewrite Ht.
  - intros j u Hj. destruct (decide (j = i)) as [->|Hne].
    + rewrite list_lookup_insert_eq by assumption.
      assert (u = t) as -> by congruence.
      eexists; split; [reflexivity|]. simpl. tauto.
    + rewrite list_lookup_insert_ne by congruence.
      exists u. tauto.
Qed.

Lemma register_error_invalid (l : test_list) (info : assert_info) (why : string) :
  ~ current_valid l -> register_error info why l = None.
Proof.
  intros Hn. unfold register_error.
  destruct (decide (0 <= current_test l)) as [Hlo|]; [|reflexivity].
  destruct (tests l !! Z.to_nat (current_test l)) as [t|] eqn:Ht; [|reflexivity].
  exfalso. apply Hn. apply lookup_lt_Some in Ht. unfold current_valid. lia.
Qed.

Lemma recorded_changes (l l' : test_list) (f : fail_info) :
  recorded l l' f -> l' <> l.
Proof.
  intros (_ & _ & Hf & _) ->.
  apply (f_equal length) in Hf. rewrite length_app in Hf. simpl in Hf. lia.
Qed.

Lemma register_error_never_silent (l : test_list) (info : assert_info)
    (why : string) :
  register_error info why l <> Some (tt, l).
Proof.
  intros Heq. destruct (decide (current_valid l)) as [Hv|Hv].
  - destruct (register_error_valid l info why Hv) as (l' & Hl' & Hrec).
    rewrite Heq in Hl'. injection Hl' as <-.
    now apply recorded_changes in Hrec.
  - rewrite register_error_invalid in Heq by assumption. discriminate.
Qed.

(** A failing predicate ends in [register_error ... ;; mret false]. *)
Lemma fail_with_valid (l : test_list) (info : assert_info) (why : string) :
  current_valid l ->
  outcome l ((register_error info why ;; mret false) l) false info why.
Proof.
  intros Hv. destruct (register_error_valid l info why Hv) as (l' & Hl' & Hrec).
  exists l'. split; [|assumption].
  unfold mbind, M_bind. now rewrite Hl'.
Qed.

(** ** Truthiness and exact equality *)

Lemma assert_true_outcome {T} `{Primitive T} (statement : T)
    (info : assert_info) (l : test_list) :
  current_valid l ->
  outcome l (assert_true statement info l) (truthy statement) info
    (show statement +:+ " is falsy").
Proof.
  intros Hv. unfold assert_true. destruct (truthy statement).
  - reflexivity.
  - now apply fail_with_valid.
Qed.

Lemma assert_eq_outcome {T} `{Primitive T} (a b : T)
    (info : assert_info) (l : test_list) :
  current_valid l ->
  outcome l (assert_eq a b info l) (op_eq a b) info
    (show a +:+ " does not equal " +:+ show b).
Proof.
  intros Hv. unfold assert_eq. destruct (op_eq a b).
  - reflexivity.
  - now apply fail_with_valid.
Qed.

(** ** Tolerance-based equality *)

Section Ieee754Facts.

Variable stream_float : float_format -> nat -> spec_float -> string.
Variable fmt : float_format.

Lemma to_unsigned_nonneg (i : Z) : 0 <= width fmt -> 0 <= to_unsigned fmt i.
Proof.
  intros Hw. unfold to_unsigned. apply Z.mod_pos_bound.
  now apply Z.pow_pos_nonneg.
Qed.

Lemma to_unsigned_id (i : Z) :
  instantiated fmt -> int_range i -> 0 <= i -> to_unsigned fmt i = i.
Proof.
  unfold int_range, to_unsigned. intros [-> | ->] Hr Hi; simpl width;
    apply Z.mod_small; lia.
Qed.

Lemma instantiated_width : instantiated fmt -> 0 <= width fmt.
Proof. intros [-> | ->]; simpl; lia. Qed.

(** The whole predicate, branch by branch. *)
Lemma assert_ieee754_eq_cases (info : assert_info) (a b : spec_float)
    (ulp_tol : Z) (abs_tol : spec_float) (l : test_list) :
  current_valid l ->
  let res := assert_ieee754_eq stream_float fmt info a b ulp_tol abs_tol l in
  if garbage a b then
    outcome l res false info (garbage_reason a b)
  else if absolute_case a b abs_tol then
    outcome l res (negb (flt_gt (fabs (flt_sub fmt a b)) abs_tol)) info
      (abs_reason stream_float fmt a b (fabs (flt_sub fmt a b)) abs_tol)
  else
    0 <= width fmt ->
    outcome l res (negb (ulp_distance fmt a b >? to_unsigned fmt ulp_tol))
      info
      (ulp_reason stream_float fmt a b (ulp_distance fmt a b) ulp_tol).
Proof.
  intros Hv res. subst res.
  unfold assert_ieee754_eq, garbage, garbage_reason.
  destruct (garbage_first a) as [r1 q1] eqn:Ha.
  destruct (garbage_second b) as [r2 q2] eqn:Hb.
  assert (Hq1 : q1 = isnan a || isinf a).
  { unfold garbage_first in Ha. destruct (isnan a), (isinf a); now inversion Ha. }
  assert (Hq2 : q2 = isnan b || isinf b).
  { unfold garbage_second in Hb. destruct (isnan b), (isinf b); now inversion Hb. }
  rewrite <- orb_assoc, <- Hq2, <- Hq1. simpl fst.
  destruct (q1 || q2); [now apply fail_with_valid|].
  fold (absolute_case a b abs_tol).
  destruct (absolute_case a b abs_tol).
  - destruct (flt_gt _ abs_tol); simpl negb.
    + now apply fail_with_valid.
    + reflexivity.
  - intros Hw. unfold ulp_distance.
    pose proof (to_unsigned_nonneg ulp_tol Hw) as Hu.
    destruct (Z.gtb_spec (bits_of fmt a) (bits_of fmt b)) as [Hgt|Hle].
    + rewrite Z.abs_eq by lia.
      destruct (_ - _ >? _); simpl negb;
        [now apply fail_with_valid | reflexivity].
    + destruct (Z.gtb_spec (bits_of fmt b) (bits_of fmt a)) as [Hgt'|Hle'].
      * rewrite Z.abs_neq by lia.
        replace (- (bits_of fmt a - bits_of fmt b))
          with (bits_of fmt b - bits_of fmt a) by lia.
        destruct (_ - _ >? _); simpl negb;
          [now apply fail_with_valid | reflexivity].
      * replace (bits_of fmt a - bits_of fmt b) with 0 by lia.
        change (Z.abs 0) with 0.
        destruct (Z.gtb_spec 0 (to_unsigned fmt ulp_tol)); [lia|].
        reflexivity.
Qed.

(** A successful comparison never touches the registry, whatever
    [current_test] holds. *)
Lemma assert_ieee754_eq_true_pure (info : assert_info) (a b : spec_float)
    (ulp_tol : Z) (abs_tol : spec_float) (l l' : test_list) :
  assert_ieee754_eq stream_float fmt info a b ulp_tol abs_tol l
    = Some (true, l') -> l' = l.
Proof.
  assert (Hfail : forall why,
    (register_error info why ;; mret false) l <> Some (true, l')).
  { intros why. unfold mbind, M_bind.
    destruct (register_error info why l) as [[[] l1]|]; discriminate. }
  unfold assert_ieee754_eq.
  destruct (garbage_first a) as [r1 q1], (garbage_second b) as [r2 q2].
  repeat match goal with
  | |- context [if ?c then _ else _] => destruct c
  end; intros Heq; try (now apply Hfail in Heq);
    now inversion Heq.
Qed.

Lemma sub_self_zero (x : spec_float) :
  isnan x = false -> isinf x = false ->
  flt_sub fmt x x = S754_zero false.
Proof.
  destruct x as [[]|s| |s m e]; simpl; try discriminate; try reflexivity.
  intros _ _. unfold flt_sub, SFsub. now rewrite Z.sub_diag.
Qed.

(** A finite operand equals itself under every pair of tolerances. *)
Lemma assert_ieee754_eq_refl (info : assert_info) (x : spec_float)
    (ulp_tol : Z) (abs_tol : spec_float) (l : test_list) :
  isnan x = false -> isinf x = false ->
  assert_ieee754_eq stream_float fmt info x x ulp_tol abs_tol l
    = Some (true, l).
Proof.
  intros Hn Hi. unfold assert_ieee754_eq, garbage_first, garbage_second.
  rewrite Hn, Hi. simpl orb. cbv iota.
  rewrite Bool.eqb_reflx. simpl negb. rewrite orb_false_l.
  rewrite sub_self_zero by assumption.
  destruct (flt_lt (fabs x) abs_tol) eqn:Hlt; simpl andb; cbv iota.
  - assert (Hgt : flt_gt (fabs (S754_zero false)) abs_tol = false).
    { destruct x as [s|s| |s m e], abs_tol as [t|[]| |[] m' e'];
        try discriminate; reflexivity. }
    now rewrite Hgt.
  - assert (Hirr : (bits_of fmt x >? bits_of fmt x) = false)
      by (rewrite Z.gtb_ltb; apply Z.ltb_irrefl).
    now rewrite Hirr.
Qed.

End Ieee754Facts.

(** ** The ledger rule *)

Lemma outcome_ledger_rule (l : test_list) (info : assert_info)
    (res : option (bool * test_list)) (v : bool) (why : string)
    (whys : list string) :
  why ∈ whys -> outcome l res v info why -> ledger_rule l info res whys.
Proof.
  intros Hin Hout. destruct v; simpl in Hout.
  - subst res. split; [eauto|]. split; intros l' Heq; [congruence|discriminate].
  - destruct Hout as (l1 & -> & Hrec). split; [eauto|].
    split; intros l' Heq; [discriminate|].
    injection Heq as <-. eauto.
Qed.

Lemma assert_ieee754_eq_ledger_rule
    (stream_float : float_format -> nat -> spec_float -> string)
    (fmt : float_format) (info : assert_info) (a b : spec_float)
    (ulp_tol : Z) (abs_tol : spec_float) (l : test_list) :
  current_valid l -> 0 <= width fmt ->
  ledger_rule l info
    (assert_ieee754_eq stream_float fmt info a b ulp_tol abs_tol l)
    [garbage_reason a b;
     abs_reason stream_float fmt a b (fabs (flt_sub fmt a b)) abs_tol;
     ulp_reason stream_float fmt a b (ulp_distance fmt a b) ulp_tol].
Proof.
  intros Hv Hw.
  pose proof (assert_ieee754_eq_cases stream_float fmt info a b ulp_tol
                abs_tol l Hv) as Hc.
  cbv zeta in Hc.
  destruct (garbage a b); [|destruct (absolute_case a b abs_tol)].
  - eapply outcome_ledger_rule; [|exact Hc]. repeat constructor.
  - eapply outcome_ledger_rule; [|exact Hc]. repeat constructor.
  - eapply outcome_ledger_rule; [|exact (Hc Hw)]. repeat constructor.
Qed.


Lemma running_serial_add_valid : current_valid running_serial_add.
Proof. vm_compute. split; [discriminate|reflexivity]. Qed.


(** ** The registry has no guard *)

(** C4, as stated, fails.  The registry that dynamic initialisation leaves
    behind has [current_test] at its zero initial value although the driver
    has not started any test; a record registered then is not dropped, it
    lands in the ledger of the first test.  More generally there is no
    registry at all from which [register_error] returns with the registry
    unchanged. *)
Lemma C4_register_error_counterexample :
  (current_test dummy_tests = 0 /\
   exists l', register_error serial_add_info "2 does not equal 3" dummy_tests
                = Some (tt, l') /\
              l' <> dummy_tests /\
              current_fails l' =
                [{| assertion := serial_add_info;
                    reason := "2 does not equal 3" |}]) /\
  ~ (exists l info why, register_error info why l = Some (tt, l)).
Proof.
  split.
  - split; [reflexivity|]. eexists. split; [reflexivity|].
    split; [discriminate|reflexivity].
  - intros (l & info & why & H). now apply register_error_never_silent in H.
Qed.

(** C4, amended.  [register_error] has no guard for a missing active test:
    it indexes [tests[current_test]] as it is.  Whenever [current_test]
    names a registered test the record is appended to that test's ledger
    and nothing else changes; otherwise the indexing is out of range and
    the behaviour is undefined, not a silent drop.  From no registry does
    [register_error] return with the registry unchanged, and every
    predicate of the comparison library that answers [false] has appended
    its record. *)
Theorem C4_register_error_unguarded :
  forall (l : test_list) (info : assert_info) (why : string),
    (current_valid l ->
       exists l', register_error info why l = Some (tt, l') /\
                  recorded l l' {| assertion := info; reason := why |}) /\
    (~ current_valid l -> register_error info why l = None) /\
    register_error info why l <> Some (tt, l) /\
    (current_valid l ->
       forall (stream_float : float_format -> nat -> spec_float -> string)
              (fmt : float_format) (T : Type) (HT : Primitive T)
              (x y : T) (a b : spec_float) (ulp_tol : Z)
              (abs_tol : spec_float) (l' : test_list),
         0 <= width fmt ->
         assert_true x info l = Some (false, l') \/
         assert_eq x y info l = Some (false, l') \/
         assert_ieee754_eq stream_float fmt info a b ulp_tol abs_tol l
           = Some (false, l') ->
         exists why', recorded l l' {| assertion := info; reason := why' |}).
Proof.
  intros l info why. split; [|split; [|split]].
  - apply register_error_valid.
  - apply register_error_invalid.
  - apply register_error_never_silent.
  - intros Hv stream_float fmt T HT x y a b ulp_tol abs_tol l' Hw [H|[H|H]].
    + pose proof (assert_true_outcome x info l Hv) as Ho.
      eapply (outcome_ledger_rule _ _ _ _ _ [_]) in Ho; [|repeat constructor].
      destruct Ho as (_ & _ & Hf). destruct (Hf _ H) as (w & _ & Hr). eauto.
    + pose proof (assert_eq_outcome x y info l Hv) as Ho.
      eapply (outcome_ledger_rule _ _ _ _ _ [_]) in Ho; [|repeat constructor].
      destruct Ho as (_ & _ & Hf). destruct (Hf _ H) as (w & _ & Hr). eauto.
    + destruct (assert_ieee754_eq_ledger_rule stream_float fmt info a b
                  ulp_tol abs_tol l Hv Hw) as (_ & _ & Hf).
      destruct (Hf _ H) as (w & _ & Hr). eauto.
Qed.

(** ** Tolerance-based equality: the claims *)

Lemma string_app_assoc (s t u : string) : (s +:+ t) +:+ u = s +:+ t +:+ u.
Proof.
  induction s as [|c s IH]; [reflexivity|].
  change (String c ((s +:+ t) +:+ u) = String c (s +:+ t +:+ u)).
  now rewrite IH.
Qed.

Lemma string_app_nil_r (s : string) : s +:+ "" = s.
Proof.
  induction s as [|c s IH]; [reflexivity|].
  change (String c (s +:+ "") = String c s). now rewrite IH.
Qed.

Lemma contains_prefix (s t : string) : contains (s +:+ t) s.
Proof. exists "", t. reflexivity. Qed.

Lemma contains_suffix (s t : string) : contains (s +:+ t) t.
Proof. exists s, "". now rewrite string_app_nil_r. Qed.

Lemma contains_app_r (s t u : string) : contains t u -> contains (s +:+ t) u.
Proof.
  intros (p & q & ->). exists (s +:+ p), q. now rewrite string_app_assoc.
Qed.

Lemma contains_app_l (s t u : string) : contains s u -> contains (s +:+ t) u.
Proof.
  intros (p & q & ->). exists p, (q +:+ t).
  now rewrite !string_app_assoc.
Qed.

Lemma finite_not_garbage (fmt : float_format) (a b : spec_float) :
  finite fmt a -> finite fmt b -> garbage a b = false.
Proof.
  intros (Hna & Hia & _) (Hnb & Hib & _). unfold garbage.
  now rewrite Hna, Hia, Hnb, Hib.
Qed.

(** The decimal literals of the repository's tests are the [double]s
    nearest to them. *)
Example dbl_1e_8_literal : dbl_quotient 1 100000000 = dbl_1e_8.
Proof. vm_compute. reflexivity. Qed.

Example dbl_5e_8_literal : dbl_quotient 5 100000000 = dbl_5e_8.
Proof. vm_compute. reflexivity. Qed.

Example dbl_1e_6_literal : dbl_quotient 1 1000000 = dbl_1e_6.
Proof. vm_compute. reflexivity. Qed.

Example dbl_1e_8_bits : bits_of binary64 dbl_1e_8 = 0x3E45798EE2308C3A.
Proof. vm_compute. reflexivity. Qed.

Example dbl_1_bits : bits_of binary64 dbl_1 = 0x3FF0000000000000.
Proof. vm_compute. reflexivity. Qed.

(** C5.  The code misses the claim for a negative [ulp_tol].  1.0 and
    2.0 are finite, of one sign and not below the default [abs_tol], and
    their bit patterns are 2^52 apart, which exceeds -1; yet
    [ASSERT_DOUBLE_EQ(1.0, 2.0, -1)] succeeds: the comparison
    [au - bu > ulp_tol] of line 186 converts the [int] to [uint64_t], and
    -1 becomes 2^64 - 1, against the comment of lines 105-111, by which
    the predicate tells whether the distance is within [ulp_tol]. *)
Lemma C5_negative_ulp_tol_counterexample :
  finite binary64 dbl_1 /\ finite binary64 dbl_2 /\ int_range (-1) /\
  absolute_case dbl_1 dbl_2 (epsilon binary64) = false /\
  ulp_distance binary64 dbl_1 dbl_2 = 2 ^ 52 /\
  -1 < ulp_distance binary64 dbl_1 dbl_2 /\
  to_unsigned binary64 (-1) = 2 ^ 64 - 1 /\
  assert_ieee754_eq_default stream_bits binary64 serial_add_info
    dbl_1 dbl_2 (-1) running_serial_add = Some (true, running_serial_add).
Proof.
  repeat split; try reflexivity; try discriminate.
Qed.

(** For finite operands [a] and [b] of [assert_ieee754_eq] (at [float] and
    at [double]) and a tolerance [ulp_tol >= 0]: if the operands differ in
    sign or both magnitudes are below [abs_tol], the predicate fails iff
    [|a - b| > abs_tol]; otherwise it fails iff the unsigned difference of
    the two bit patterns exceeds [ulp_tol].  With [a = 0.0], [b = 1e-8],
    [ulp_tol = 10], [abs_tol = 5e-8] it succeeds, and with [a = -0.000001],
    [b = 0.000001], [ulp_tol = 10] and the default [abs_tol] it fails. *)
Theorem tolerance_branches_nonnegative :
  forall (stream_float : float_format -> nat -> spec_float -> string)
         (fmt : float_format) (info : assert_info) (a b : spec_float)
         (ulp_tol : Z) (abs_tol : spec_float) (l : test_list),
    instantiated fmt -> finite fmt a -> finite fmt b ->
    0 <= ulp_tol < 2 ^ 31 -> current_valid l ->
    (exists v l',
       assert_ieee754_eq stream_float fmt info a b ulp_tol abs_tol l
         = Some (v, l') /\
       v = if absolute_case a b abs_tol
           then negb (flt_gt (fabs (flt_sub fmt a b)) abs_tol)
           else negb (ulp_distance fmt a b >? ulp_tol)) /\
    assert_ieee754_eq stream_float binary64 info dbl_0 dbl_1e_8 10 dbl_5e_8 l
      = Some (true, l) /\
    (exists l',
       assert_ieee754_eq_default stream_float binary64 info
         dbl_neg_1e_6 dbl_1e_6 10 l = Some (false, l') /\
       recorded l l'
         {| assertion := info;
            reason := abs_reason stream_float binary64 dbl_neg_1e_6 dbl_1e_6
                        (fabs (flt_sub binary64 dbl_neg_1e_6 dbl_1e_6))
                        (epsilon binary64) |}).
Proof.
  intros stream_float fmt info a b ulp_tol abs_tol l Hfmt Ha Hb Hr Hv.
  assert (Hint : int_range ulp_tol) by (unfold int_range; lia).
  split; [|split].
  - pose proof (assert_ieee754_eq_cases stream_float fmt info a b ulp_tol
                  abs_tol l Hv) as Hc.
    cbv zeta in Hc. rewrite (finite_not_garbage fmt a b Ha Hb) in Hc.
    rewrite (to_unsigned_id fmt ulp_tol Hfmt Hint) in Hc by lia.
    destruct (absolute_case a b abs_tol).
    + destruct (negb _); simpl in Hc.
      * eauto.
      * destruct Hc as (l' & Hl' & _). eauto.
    + specialize (Hc (instantiated_width fmt Hfmt)).
      destruct (negb _); simpl in Hc.
      * eauto.
      * destruct Hc as (l' & Hl' & _). eauto.
  - reflexivity.
  - pose proof (assert_ieee754_eq_cases stream_float binary64 info
                  dbl_neg_1e_6 dbl_1e_6 10 (epsilon binary64) l Hv) as Hc.
    cbv zeta in Hc.
    change (garbage dbl_neg_1e_6 dbl_1e_6) with false in Hc.
    change (absolute_case dbl_neg_1e_6 dbl_1e_6 (epsilon binary64))
      with true in Hc.
    assert (Hgt : flt_gt (fabs (flt_sub binary64 dbl_neg_1e_6 dbl_1e_6))
                    (epsilon binary64) = true) by (vm_compute; reflexivity).
    rewrite Hgt in Hc. exact Hc.
Qed.

Lemma tolerance_branches_nonnegative_witness :
  instantiated binary64 /\ finite binary64 dbl_1 /\ finite binary64 dbl_2 /\
  0 <= 10 < 2 ^ 31 /\ current_valid running_serial_add /\
  exists v l',
    assert_ieee754_eq stream_bits binary64 serial_add_info dbl_1 dbl_2 10
      (epsilon binary64) running_serial_add = Some (v, l') /\
    v = if absolute_case dbl_1 dbl_2 (epsilon binary64)
        then negb (flt_gt (fabs (flt_sub binary64 dbl_1 dbl_2))
                     (epsilon binary64))
        else negb (ulp_distance binary64 dbl_1 dbl_2 >? 10).
Proof.
  assert (H1 : instantiated binary64) by (right; reflexivity).
  assert (H2 : finite binary64 dbl_1) by (repeat split; reflexivity).
  assert (H3 : finite binary64 dbl_2) by (repeat split; reflexivity).
  assert (H4 : 0 <= 10 < 2 ^ 31) by lia.
  repeat (split; [assumption || exact running_serial_add_valid|]).
  exact (proj1 (tolerance_branches_nonnegative stream_bits binary64
                  serial_add_info dbl_1 dbl_2 10 (epsilon binary64)
                  running_serial_add H1 H2 H3 H4 running_serial_add_valid)).
Defined.

Lemma assert_ieee754_eq_garbage
    (stream_float : float_format -> nat -> spec_float -> string)
    (fmt : float_format) (info : assert_info) (a b : spec_float)
    (ulp_tol : Z) (abs_tol : spec_float) (l : test_list) :
  garbage a b = true ->
  assert_ieee754_eq stream_float fmt info a b ulp_tol abs_tol l
    = (register_error info (garbage_reason a b) ;; mret false) l.
Proof.
  unfold garbage, assert_ieee754_eq, garbage_reason, garbage_first,
    garbage_second.
  destruct (isnan a), (isinf a), (isnan b), (isinf b);
    try discriminate; reflexivity.
Qed.

(** C6.  Whatever [ulp_tol] and [abs_tol] are, if either operand of
    [assert_ieee754_eq] is NaN or infinite the predicate answers [false] at
    once: the result does not depend on the tolerances, one record is
    appended, and its reason names each operand at fault (first, second)
    together with its kind (nan, inf). *)
Theorem C6_nan_or_infinite_operand_fails :
  forall (stream_float : float_format -> nat -> spec_float -> string)
         (fmt : float_format) (info : assert_info) (a b : spec_float)
         (ulp_tol : Z) (abs_tol : spec_float) (l : test_list),
    current_valid l ->
    garbage a b = true ->
    (exists l',
       assert_ieee754_eq stream_float fmt info a b ulp_tol abs_tol l
         = Some (false, l') /\
       recorded l l' {| assertion := info; reason := garbage_reason a b |}) /\
    (forall (ulp_tol' : Z) (abs_tol' : spec_float),
       assert_ieee754_eq stream_float fmt info a b ulp_tol' abs_tol' l
       = assert_ieee754_eq stream_float fmt info a b ulp_tol abs_tol l) /\
    (isnan a = true ->
       contains (garbage_reason a b) "the first argument is nan") /\
    (isinf a = true ->
       contains (garbage_reason a b) "the first argument is inf") /\
    (isnan b = true ->
       contains (garbage_reason a b) "the second argument is nan") /\
    (isinf b = true ->
       contains (garbage_reason a b) "the second argument is inf").
Proof.
  intros stream_float fmt info a b ulp_tol abs_tol l Hv Hg.
  split; [|split; [|repeat split]].
  - rewrite assert_ieee754_eq_garbage by assumption.
    exact (fail_with_valid l info (garbage_reason a b) Hv).
  - intros ulp_tol' abs_tol'. now rewrite !assert_ieee754_eq_garbage.
  - intros Hn. unfold garbage_reason, garbage_first. rewrite Hn.
    apply contains_app_l. exists "", "! ". reflexivity.
  - intros Hi. unfold garbage_reason, garbage_first. rewrite Hi.
    apply contains_app_l. destruct (isnan a) eqn:Hn.
    + destruct a; discriminate.
    + exists "", "! ". reflexivity.
  - intros Hn. unfold garbage_reason, garbage_second. rewrite Hn.
    apply contains_app_r. exists "", "! ". reflexivity.
  - intros Hi. unfold garbage_reason, garbage_second. rewrite Hi.
    apply contains_app_r. destruct (isnan b) eqn:Hn.
    + destruct b; discriminate.
    + exists "", "! ". reflexivity.
Qed.

(** [ASSERT_FLOAT_EQ(state.c_local[0], NAN, 10)] of [float_add_test]
    (dummy_tests.cpp, line 88), with 0.2f + 0.1f in the first operand. *)
Lemma C6_nan_or_infinite_operand_fails_witness :
  current_valid running_serial_add /\
  garbage (S754_finite false 10066330 (-25)) S754_nan = true /\
  exists l',
    assert_ieee754_eq stream_bits binary32 serial_add_info
      (S754_finite false 10066330 (-25)) S754_nan 10 (epsilon binary32)
      running_serial_add = Some (false, l') /\
    recorded running_serial_add l'
      {| assertion := serial_add_info;
         reason := "the second argument is nan! " |}.
Proof.
  split; [exact running_serial_add_valid|]. split; [reflexivity|].
  exact (proj1 (C6_nan_or_infinite_operand_fails stream_bits binary32
                  serial_add_info (S754_finite false 10066330 (-25)) S754_nan
                  10 (epsilon binary32) running_serial_add
                  running_serial_add_valid eq_refl)).
Defined.

(** ** Exact equality: the claims *)

Lemma SFeqb_refl (x : spec_float) : isnan x = false -> SFeqb x x = true.
Proof.
  destruct x as [s|[]| |[] m e]; try discriminate; intros _;
    try reflexivity; unfold SFeqb, SFcompare;
    rewrite Z.compare_refl, Pos.compare_cont_refl; reflexivity.
Qed.

(** C7, as stated, fails: [assert_eq] is instantiated at [double] by the
    repository's own tests ([ASSERT_EQ(1337., 1337.)]), and there
    [assert_eq(x, x)] answers [false] for [x] NaN, because [operator==] does.
    The record reads "nan does not equal nan" with the stream's text for
    NaN. *)
Lemma C7_nan_counterexample :
  exists l',
    @assert_eq spec_float (Primitive_double stream_bits) S754_nan S754_nan
      serial_add_info running_serial_add = Some (false, l') /\
    current_fails l' =
      [{| assertion := serial_add_info;
          reason := stream_bits binary64 6 S754_nan +:+ " does not equal "
                      +:+ stream_bits binary64 6 S754_nan |}].
Proof. vm_compute. eexists. split; reflexivity. Qed.

(** C7, amended.  [assert_eq] follows the [operator==] of its argument
    type.  For every value [x] that compares equal to itself -- every
    [int], and every [double] other than NaN -- [assert_eq(x, x)] answers
    [true] and leaves the registry alone; for every pair with [x == y]
    false -- every pair of distinct [int]s -- [assert_eq(x, y)] answers
    [false] and records one failure whose message is the text of [x],
    " does not equal ", and the text of [y], so it contains both values. *)
Theorem C7_assert_eq_follows_operator :
  forall (T : Type) (HT : Primitive T) (x y : T) (info : assert_info)
         (l : test_list),
    current_valid l ->
    (op_eq x x = true -> assert_eq x x info l = Some (true, l)) /\
    (op_eq x y = false ->
       exists l',
         assert_eq x y info l = Some (false, l') /\
         recorded l l'
           {| assertion := info;
              reason := show x +:+ " does not equal " +:+ show y |} /\
         contains (show x +:+ " does not equal " +:+ show y) (show x) /\
         contains (show x +:+ " does not equal " +:+ show y) (show y)) /\
    (forall i : Z, op_eq i i = true) /\
    (forall i j : Z, i <> j -> op_eq i j = false) /\
    (forall (stream_float : float_format -> nat -> spec_float -> string)
            (d : spec_float),
       isnan d = false -> @op_eq _ (Primitive_double stream_float) d d = true).
Proof.
  intros T HT x y info l Hv. split; [|split; [|split; [|split]]].
  - intros Heq. pose proof (assert_eq_outcome x x info l Hv) as Ho.
    now rewrite Heq in Ho.
  - intros Hne. pose proof (assert_eq_outcome x y info l Hv) as Ho.
    rewrite Hne in Ho. destruct Ho as (l' & Hl' & Hrec).
    exists l'. split; [assumption|]. split; [assumption|]. split.
    + apply contains_prefix.
    + apply contains_app_r, contains_suffix.
  - intros i. apply Z.eqb_refl.
  - intros i j Hij. now apply Z.eqb_neq.
  - intros stream_float d Hd. now apply SFeqb_refl.
Qed.

(** [ASSERT_EQ(2, 1 + 1)] and a failing [ASSERT_EQ(2, 3)]. *)
Lemma C7_assert_eq_follows_operator_witness :
  current_valid running_serial_add /\
  (op_eq 2 2 = true ->
   assert_eq 2 2 serial_add_info running_serial_add
     = Some (true, running_serial_add)) /\
  exists l',
    assert_eq 2 3 serial_add_info running_serial_add = Some (false, l') /\
    current_fails l' =
      [{| assertion := serial_add_info; reason := "2 does not equal 3" |}].
Proof.
  pose proof (C7_assert_eq_follows_operator Z _ 2 3 serial_add_info
                running_serial_add running_serial_add_valid)
    as (_ & Hne & _).
  pose proof (C7_assert_eq_follows_operator Z _ 2 2 serial_add_info
                running_serial_add running_serial_add_valid)
    as (Heq & _).
  split; [exact running_serial_add_valid|]. split; [exact Heq|].
  destruct (Hne eq_refl) as (l' & Hl' & (_ & _ & Hf & _) & _).
  exists l'. split; [exact Hl'|exact Hf].
Defined.

(** ** Reflexivity of the tolerance comparison *)

(** C10.  For every finite floating-point value [x] (neither NaN nor
    infinite), every [ulp_tol >= 0] and every [abs_tol >= 0],
    [assert_ieee754_eq(x, x, ulp_tol, abs_tol)] answers [true] and records
    no failure: the registry is returned as it was.  This covers the
    absolute branch ([|x| < abs_tol]) and the ULP branch. *)
Theorem C10_finite_reflexive :
  forall (stream_float : float_format -> nat -> spec_float -> string)
         (fmt : float_format) (info : assert_info) (x : spec_float)
         (ulp_tol : Z) (abs_tol : spec_float) (l : test_list),
    finite fmt x -> 0 <= ulp_tol -> flt_nonneg abs_tol ->
    assert_ieee754_eq stream_float fmt info x x ulp_tol abs_tol l
      = Some (true, l).
Proof.
  intros stream_float fmt info x ulp_tol abs_tol l (Hn & Hi & _) _ _.
  now apply assert_ieee754_eq_refl.
Qed.

(** 1e-8 against itself under [abs_tol] 5e-8 takes the absolute branch;
    1.0 against itself under the default [abs_tol] takes the ULP branch. *)
Lemma C10_finite_reflexive_witness :
  (finite binary64 dbl_1e_8 /\ 0 <= 10 /\ flt_nonneg dbl_5e_8 /\
   absolute_case dbl_1e_8 dbl_1e_8 dbl_5e_8 = true /\
   assert_ieee754_eq stream_bits binary64 serial_add_info dbl_1e_8 dbl_1e_8
     10 dbl_5e_8 running_serial_add = Some (true, running_serial_add)) /\
  (finite binary64 dbl_1 /\ 0 <= 0 /\ flt_nonneg (epsilon binary64) /\
   absolute_case dbl_1 dbl_1 (epsilon binary64) = false /\
   assert_ieee754_eq stream_bits binary64 serial_add_info dbl_1 dbl_1
     0 (epsilon binary64) running_serial_add = Some (true, running_serial_add)).
Proof.
  assert (H1 : finite binary64 dbl_1e_8) by (repeat split; reflexivity).
  assert (H2 : finite binary64 dbl_1) by (repeat split; reflexivity).
  assert (H3 : 0 <= 10) by lia.
  assert (H4 : 0 <= 0) by lia.
  assert (H5 : flt_nonneg dbl_5e_8) by reflexivity.
  assert (H6 : flt_nonneg (epsilon binary64)) by reflexivity.
  split.
  - split; [exact H1|]. split; [exact H3|]. split; [exact H5|].
    split; [reflexivity|].
    exact (C10_finite_reflexive stream_bits binary64 serial_add_info dbl_1e_8
             10 dbl_5e_8 running_serial_add H1 H3 H5).
  - split; [exact H2|]. split; [exact H4|]. split; [exact H6|].
    split; [reflexivity|].
    exact (C10_finite_reflexive stream_bits binary64 serial_add_info dbl_1
             0 (epsilon binary64) running_serial_add H2 H4 H6).
Defined.

(** ** The driver: arithmetic and registry lemmas *)

Lemma to_int_small (z : Z) : - 2 ^ 31 <= z < 2 ^ 31 -> to_int z = z.
Proof.
  intros Hz. unfold to_int. rewrite Z.mod_small; lia.
Qed.

Lemma largest_test_size_fold (ts : list test_info) (a : Z) :
  a <= fold_left
         (fun largest t => if test_size t >? largest then test_size t else largest)
         ts a /\
  Forall (fun t => test_size t <=
            fold_left
              (fun largest t => if test_size t >? largest then test_size t
                                else largest) ts a) ts.
Proof.
  revert a. induction ts as [|t ts IH]; intros a; simpl.
  - split; [lia|constructor].
  - destruct (IH (if test_size t >? a then test_size t else a)) as [H1 H2].
    split; [|constructor; [|assumption]];
      destruct (Z.gtb_spec (test_size t) a); lia.
Qed.

Lemma largest_test_size_ge (l : test_list) (t : test_info) :
  t ∈ tests l -> test_size t <= largest_test_size l.
Proof.
  intros Hin. pose proof (largest_test_size_fold (tests l) 0) as [_ H].
  rewrite Forall_forall in H. now apply H.
Qed.

Lemma largest_test_size_sizes (l1 l2 : test_list) :
  map test_size (tests l1) = map test_size (tests l2) ->
  largest_test_size l1 = largest_test_size l2.
Proof.
  unfold largest_test_size. generalize 0.
  generalize (tests l1) (tests l2). intros ts1.
  induction ts1 as [|t1 ts1 IH]; intros [|t2 ts2] a Heq; simpl in *;
    try discriminate; [reflexivity|].
  injection Heq as Ht Hts. rewrite Ht. now apply IH.
Qed.

(** [register_error], spelled out on a registry whose current test is
    registered. *)
Lemma register_error_lookup (l : test_list) (info : assert_info) (why : string) :
  current_valid l ->
  exists l', register_error info why l = Some (tt, l') /\
    current_test l' = current_test l /\
    forall j, tests l' !! j =
      (fun t => if decide (j = Z.to_nat (current_test l))
                then with_fails t (fails t ++ [{| assertion := info; reason := why |}])
                else t) <$> tests l !! j.
Proof.
  intros [Hlo Hhi]. unfold register_error.
  destruct (decide (0 <= current_test l)) as [_|]; [|lia].
  set (i := Z.to_nat (current_test l)).
  assert (Hi : (i < length (tests l))%nat) by (unfold i; lia).
  destruct (lookup_lt_is_Some_2 _ _ Hi) as [t Ht]. rewrite Ht.
  eexists; split; [reflexivity|]. split; [reflexivity|].
  intros j. simpl. destruct (decide (j = i)) as [->|Hne].
  - rewrite list_lookup_insert_eq by assumption. rewrite Ht. simpl.
    first [reflexivity | case_decide; [reflexivity | exfalso; auto]].
  - rewrite list_lookup_insert_ne by congruence.
    destruct (tests l !! j); simpl; [|reflexivity].
    first [reflexivity | case_decide; [exfalso; auto | reflexivity]].
Qed.

Section EntryPoint.

Variable body_errors : test_ptr -> nat -> Z -> list (assert_info * string).

Lemma run_entry_foldl (errs : list (assert_info * string)) (l : test_list) :
  current_valid l ->
  exists l',
    foldl (fun acc '(info, why) =>
             match acc with
             | Some (_, l') => register_error info why l'
             | None => None
             end) (Some (tt, l)) errs = Some (tt, l') /\
    current_test l' = current_test l /\
    forall j, tests l' !! j =
      (fun t => if decide (j = Z.to_nat (current_test l))
                then with_fails t
                       (fails t ++ map (fun '(info, why) =>
                                          {| assertion := info; reason := why |}) errs)
                else t) <$> tests l !! j.
Proof.
  revert l. induction errs as [|[info why] errs IH]; intros l Hv.
  - exists l. split; [reflexivity|]. split; [reflexivity|].
    intros j. destruct (tests l !! j) as [t|]; simpl; [|reflexivity].
    destruct (decide _); [|reflexivity].
    rewrite app_nil_r. now destruct t.
  - destruct (register_error_lookup l info why Hv) as (l1 & Hl1 & Hc1 & Ht1).
    assert (Hv1 : current_valid l1).
    { unfold current_valid in *. rewrite Hc1.
      assert (length (tests l1) = length (tests l)) as ->; [|assumption].
      apply Nat.le_antisymm; apply Nat.nlt_ge; intros Hlt.
      - destruct (lookup_lt_is_Some_2 _ _ Hlt) as [t Ht].
        rewrite Ht1 in Ht.
        destruct (tests l !! length (tests l)) eqn:E; [|discriminate].
        apply lookup_lt_Some in E. lia.
      - destruct (lookup_lt_is_Some_2 _ _ Hlt) as [t Ht].
        specialize (Ht1 (length (tests l1))). rewrite Ht in Ht1.
        destruct (tests l1 !! length (tests l1)) eqn:E; [|discriminate].
        apply lookup_lt_Some in E. lia. }
    destruct (IH l1 Hv1) as (l' & Hl' & Hc' & Ht').
    exists l'. simpl. rewrite Hl1. split; [exact Hl'|].
    split; [congruence|].
    intros j. rewrite Ht', Ht1, Hc1.
    destruct (tests l !! j) as [t|]; simpl; [|reflexivity].
    destruct (decide _); [|reflexivity].
    simpl. now rewrite <- app_assoc.
Qed.

Lemma run_entry_lookup (f : test_ptr) (r : nat) (n : Z) (l : test_list) :
  current_valid l ->
  exists l',
    run_entry body_errors f r n l = Some (tt, l') /\
    current_test l' = current_test l /\
    forall j, tests l' !! j =
      (fun t => if decide (j = Z.to_nat (current_test l))
                then with_fails t
                       (fails t ++ map (fun '(info, why) =>
                                          {| assertion := info; reason := why |})
                                       (body_errors f r n))
                else t) <$> tests l !! j.
Proof. apply run_entry_foldl. Qed.

End EntryPoint.

(** ** The driver: steps that stop short of undefined behaviour *)

Lemma safe_local_step_Some
    (body_errors : test_ptr -> nat -> Z -> list (assert_info * string))
    (net : mpi) (r size : nat) (p p' : proc) (evs : list event) :
  safe_local_step body_errors net r size p = Some (p', evs) <->
  local_step body_errors net r size p = Some (p', evs) /\
  p_pc p' <> PUndefined.
Proof.
  unfold safe_local_step.
  destruct (local_step body_errors net r size p) as [[q es]|].
  - split.
    + destruct (p_pc q) eqn:Eq; try discriminate;
        intros [= <- <-]; (split; [reflexivity|congruence]).
    + intros [[= <- <-] Hq]. now destruct (p_pc q).
  - split; [discriminate|now intros [? _]].
Qed.

Lemma safe_local_step_None
    (body_errors : test_ptr -> nat -> Z -> list (assert_info * string))
    (net : mpi) (r size : nat) (p : proc) :
  safe_local_step body_errors net r size p = None ->
  local_step body_errors net r size p = None \/
  exists p' evs,
    local_step body_errors net r size p = Some (p', evs) /\
    p_pc p' = PUndefined.
Proof.
  unfold safe_local_step.
  destruct (local_step body_errors net r size p) as [[q es]|]; [|now left].
  intros H. right. exists q, es. split; [reflexivity|].
  now destruct (p_pc q).
Qed.

Lemma int_mul_fits (x y : Z) :
  - 2 ^ 31 <= x * y < 2 ^ 31 -> int_mul x y = Some (x * y).
Proof.
  intros H. unfold int_mul.
  destruct (Z.leb_spec (- 2 ^ 31) (x * y)), (Z.ltb_spec (x * y) (2 ^ 31));
    try reflexivity; lia.
Qed.

Lemma int_mul_None (x y : Z) :
  int_mul x y = None -> ~ (- 2 ^ 31 <= x * y < 2 ^ 31).
Proof.
  unfold int_mul.
  destruct (Z.leb_spec (- 2 ^ 31) (x * y)), (Z.ltb_spec (x * y) (2 ^ 31));
    try discriminate; lia.
Qed.

(** ** The driver: one process against the expected run *)

Section Local.

Variable body_errors : test_ptr -> nat -> Z -> list (assert_info * string).
Variable registry : test_list.
Variable size : nat.

Local Abbreviation ledger := (ledger body_errors registry).
Local Abbreviation count := (count body_errors registry).
Local Abbreviation counts := (counts body_errors registry).
Local Abbreviation total := (total body_errors registry).
Local Abbreviation comm_size := (comm_size registry).
Local Abbreviation ntests := (ntests registry).
Local Abbreviation ideal := (ideal body_errors registry).
Local Abbreviation proc_inv := (proc_inv body_errors registry size).
Local Abbreviation in_iteration := (in_iteration registry size).
Local Abbreviation ledger_now := (ledger_now body_errors registry).
Local Abbreviation enough := (enough registry size).

Hypothesis Hfit : counts_fit body_errors registry.

Lemma lookup_registry (ti : nat) :
  (ti < ntests)%nat -> exists t, tests registry !! ti = Some t.
Proof. intros H. now apply lookup_lt_is_Some_2. Qed.

Lemma comm_size_lookup (ti : nat) (t : test_info) :
  tests registry !! ti = Some t -> comm_size ti = Z.to_nat (test_size t).
Proof. intros H. unfold Expected.comm_size. now rewrite H. Qed.

Lemma ledger_participant (ti r : nat) (t : test_info) :
  tests registry !! ti = Some t -> (r < comm_size ti)%nat ->
  ledger ti r = errors_of body_errors t r.
Proof.
  intros Ht Hr. unfold Expected.ledger. rewrite Ht.
  rewrite (comm_size_lookup _ _ Ht) in Hr.
  destruct (Z.ltb_spec (Z.of_nat r) (test_size t)); [reflexivity|lia].
Qed.

Lemma ledger_outsider (ti r : nat) :
  (comm_size ti <= r)%nat -> ledger ti r = [].
Proof.
  unfold Expected.ledger, Expected.comm_size. destruct (tests registry !! ti) as [t|];
    [|reflexivity].
  intros Hr. destruct (Z.ltb_spec (Z.of_nat r) (test_size t)); [lia|reflexivity].
Qed.

Lemma count_outsider (ti r : nat) : (comm_size ti <= r)%nat -> count ti r = 0%nat.
Proof. intros H. unfold Expected.count. now rewrite ledger_outsider. Qed.

Lemma count_le_total (ti r : nat) : (count ti r <= total ti)%nat.
Proof.
  destruct (Nat.lt_ge_cases r (comm_size ti)) as [Hr|Hr].
  - unfold Expected.total. apply sum_list_with_in, elem_of_seq. lia.
  - rewrite count_outsider by assumption. lia.
Qed.

Lemma count_fits (ti r : nat) : to_int (Z.of_nat (count ti r)) = Z.of_nat (count ti r).
Proof.
  apply to_int_small. pose proof (count_le_total ti r). pose proof (Hfit ti). lia.
Qed.

Lemma nth_counts (ti ri : nat) :
  nth ri (counts ti) 0 = Z.of_nat (count ti ri).
Proof.
  destruct (Nat.lt_ge_cases ri (comm_size ti)) as [Hr|Hr].
  - apply nth_lookup_Some. unfold Expected.counts.
    rewrite list_lookup_fmap, lookup_seq_lt by assumption. reflexivity.
  - rewrite nth_overflow.
    + now rewrite count_outsider.
    + unfold Expected.counts. rewrite length_map, length_seq. lia.
Qed.

Lemma sum_counts_prefix (ti n : nat) :
  (n <= comm_size ti)%nat ->
  fold_left (fun total ri => to_int (total + nth ri (counts ti) 0)) (seq 0 n) 0
  = Z.of_nat (sum_list_with (count ti) (seq 0 n)).
Proof.
  induction n as [|n IH]; intros Hn; [reflexivity|].
  rewrite seq_S, fold_left_app, IH by lia. simpl.
  rewrite sum_list_with_app. simpl. rewrite nth_counts.
  rewrite to_int_small; [lia|].
  pose proof (Hfit ti) as Hf. unfold Expected.total in Hf.
  assert (sum_list_with (count ti) (seq 0 n) + count ti n
          <= sum_list_with (count ti) (seq 0 (comm_size ti)))%nat; [|lia].
  replace (comm_size ti) with (S n + (comm_size ti - S n))%nat by lia.
  rewrite seq_app, sum_list_with_app, seq_S, sum_list_with_app.
  simpl. lia.
Qed.

Lemma sum_counts_total (ti : nat) (t : test_info) :
  tests registry !! ti = Some t ->
  sum_counts (test_size t) (counts ti) = Z.of_nat (total ti).
Proof.
  intros Ht. unfold sum_counts. rewrite <- (comm_size_lookup _ _ Ht).
  now rewrite sum_counts_prefix.
Qed.

Lemma reg_sizes (l : test_list) (g : nat -> list fail_info) :
  (forall j, tests l !! j = (fun t => with_fails t (g j)) <$> tests registry !! j) ->
  map test_size (tests l) = map test_size (tests registry).
Proof.
  intros H. apply list_eq. intros j.
  change (map test_size) with (fmap (M:=list) test_size).
  rewrite !list_lookup_fmap, H.
  now destruct (tests registry !! j).
Qed.

Lemma ledger_now_same (r : nat) (p q : proc) (j : nat) :
  p_ti q = p_ti p -> body_done (p_pc q) = body_done (p_pc p) ->
  ledger_now r q j = ledger_now r p j.
Proof. unfold Expected.ledger_now. now intros -> ->. Qed.

Lemma enough_sizes (t : test_info) (ti : nat) :
  enough -> tests registry !! ti = Some t -> (comm_size ti <= size)%nat.
Proof.
  intros He Ht. rewrite (comm_size_lookup _ _ Ht).
  assert (test_size t <= largest_test_size registry).
  { apply largest_test_size_ge. now apply list_elem_of_lookup_2 in Ht. }
  unfold Expected.enough in He. lia.
Qed.

(** The test a participant is in, as the registry and as the process hold
    it. *)
Lemma in_iteration_test (r : nat) (p : proc) :
  (forall j, tests (p_list p) !! j
             = (fun t => with_fails t (ledger_now r p j)) <$> tests registry !! j) ->
  (p_ti p < ntests)%nat ->
  exists t, tests registry !! p_ti p = Some t /\
    tests (p_list p) !! p_ti p
      = Some (with_fails t (if body_done (p_pc p) then ledger (p_ti p) r else [])) /\
    comm_size (p_ti p) = Z.to_nat (test_size t).
Proof.
  intros Hreg Hti. destruct (lookup_registry _ Hti) as [t Ht].
  exists t. split; [assumption|]. split; [|now apply comm_size_lookup].
  rewrite Hreg, Ht. simpl. unfold Expected.ledger_now.
  now rewrite Nat.ltb_irrefl, Nat.eqb_refl.
Qed.

Lemma participant_ltb (r ti : nat) (t : test_info) :
  tests registry !! ti = Some t ->
  (Z.of_nat r <? test_size t) = bool_decide (r < comm_size ti)%nat.
Proof.
  intros Ht. rewrite (comm_size_lookup _ _ Ht).
  destruct (Z.ltb_spec (Z.of_nat r) (test_size t)).
  - rewrite bool_decide_eq_true_2; [reflexivity|lia].
  - rewrite bool_decide_eq_false_2; [reflexivity|lia].
Qed.

(** A step under ideal MPI is a step of the expected run, and keeps the
    local variables as they should be. *)
Lemma ideal_step_trans (r : nat) (p p' : proc) (evs : list event) :
  proc_inv r p ->
  safe_local_step body_errors ideal r size p = Some (p', evs) ->
  trans body_errors registry size r p p' evs /\ proc_inv r p'.
Proof.
  intros [Hreg Hpc] Hstep.
  assert (Hsz : largest_test_size (p_list p) = largest_test_size registry)
    by (apply largest_test_size_sizes; eapply reg_sizes; exact Hreg).
  apply safe_local_step_Some in Hstep as [Hstep Hdef].
  unfold local_step in Hstep.
  destruct (p_pc p) eqn:Ek.
  - (* PStart *)
    injection Hstep as <- <-. split; [now apply T_start|].
    split; [|simpl; assumption].
    intros j. rewrite Hreg. f_equal. unfold Expected.ledger_now. simpl. now rewrite Ek.
  - (* PBarrier0 *)
    injection Hstep as <- <-. split; [now apply T_barrier0|].
    split; [|simpl; assumption].
    intros j. rewrite Hreg. unfold Expected.ledger_now. simpl. now rewrite Ek.
  - (* PWait0 *)
    simpl in Hstep. injection Hstep as <- <-. split; [now apply T_wait0|].
    split; [|simpl; assumption].
    intros j. rewrite Hreg. unfold Expected.ledger_now. simpl. now rewrite Ek.
  - (* PCheck *)
    rewrite Hsz in Hstep.
    destruct (Z.ltb_spec (Z.of_nat size) (largest_test_size registry)) as [Hlt|Hge];
      injection Hstep as <- <-.
    + split; [apply T_check_short; [assumption|unfold Expected.enough; lia]|].
      split; [|simpl; split; [assumption|unfold Expected.enough; lia]].
      intros j. rewrite Hreg. unfold Expected.ledger_now. simpl. now rewrite Ek.
    + split; [apply T_check_enough; [assumption|exact Hge]|].
      split; [|simpl; split; [assumption|exact Hge]].
      intros j. rewrite Hreg. unfold Expected.ledger_now. simpl. now rewrite Ek.
  - (* PExitEarly *) discriminate.
  - (* PBarrier1 *)
    injection Hstep as <- <-. split; [now apply T_barrier1|].
    split; [|simpl; assumption].
    intros j. rewrite Hreg. unfold Expected.ledger_now. simpl. now rewrite Ek.
  - (* PWait1 *)
    simpl in Hstep. injection Hstep as <- <-. split; [now apply T_wait1|].
    destruct Hpc as [Hti He].
    split; [|simpl; split; [lia|assumption]].
    intros j. rewrite Hreg. unfold Expected.ledger_now. simpl. now rewrite Ek.
  - (* PLoop *)
    destruct Hpc as [Hti He].
    destruct (tests (p_list p) !! p_ti p) as [this_test|] eqn:El.
    + assert (Hlt : (p_ti p < ntests)%nat).
      { rewrite Hreg in El. destruct (tests registry !! p_ti p) eqn:E;
          [|discriminate]. now apply lookup_lt_Some in E. }
      destruct (in_iteration_test r p Hreg Hlt) as (t & Ht & Hl & Hcs).
      rewrite El in Hl. injection Hl as ->. simpl test_size in Hstep.
      rewrite (participant_ltb r _ t Ht) in Hstep.
      destruct (bool_decide_reflect (r < comm_size (p_ti p))%nat) as [Hr|Hr];
        injection Hstep as <- <-.
      * split; [now apply T_loop_in|].
        split; [|simpl; repeat split; assumption].
        intros j. simpl. rewrite Hreg. unfold Expected.ledger_now. simpl.
        now rewrite Ek.
      * split; [apply T_loop_out; [assumption|assumption|lia]|].
        split; [|simpl; split; assumption].
        intros j. simpl. rewrite Hreg. unfold Expected.ledger_now. simpl.
        rewrite Ek. simpl. rewrite andb_false_r, andb_true_r.
        destruct (Nat.eqb_spec j (p_ti p)) as [->|Hne];
          [|now rewrite orb_false_r].
        rewrite Nat.ltb_irrefl. simpl.
        rewrite ledger_outsider by lia. reflexivity.
    + injection Hstep as <- <-.
      assert (Hti' : p_ti p = ntests).
      { rewrite Hreg in El. destruct (tests registry !! p_ti p) eqn:E;
          [discriminate|]. apply lookup_ge_None in E. unfold Expected.ntests in *. lia. }
      split; [now apply T_loop_end|].
      split; [|simpl; split; assumption].
      intros j. rewrite Hreg. unfold Expected.ledger_now. simpl. now rewrite Ek.
  - (* PRunning *)
    destruct Hpc as (Hti & Hr & Hcur & He).
    destruct (in_iteration_test r p Hreg Hti) as (t & Ht & Hl & Hcs).
    rewrite Hl in Hstep. injection Hstep as <- <-.
    split; [now apply (T_running _ _ _ _ _ t)|].
    split; [|simpl; repeat split; assumption].
    intros j. rewrite Hreg. unfold Expected.ledger_now. simpl. now rewrite Ek.
  - (* PBody *)
    destruct Hpc as (Hti & Hr & Hcur & He).
    destruct (in_iteration_test r p Hreg Hti) as (t & Ht & Hl & Hcs).
    rewrite Hl, Ek in Hstep. simpl in Hstep.
    assert (Hv : current_valid (p_list p)).
    { unfold current_valid. rewrite Hcur.
      apply lookup_lt_Some in Hl. lia. }
    destruct (run_entry_lookup body_errors (fptr t) r (test_size t)
                (p_list p) Hv) as (l' & Hl' & Hc' & Ht').
    rewrite Hl' in Hstep. injection Hstep as <- <-.
    split; [now apply T_body|].
    split; [|simpl; split; [assumption|]; split; [assumption|];
               split; [simpl in *; congruence|assumption]].
    intros j. simpl. rewrite Ht', Hreg, Hcur, Nat2Z.id.
    unfold Expected.ledger_now. simpl. rewrite Ek. simpl.
    rewrite andb_false_r, andb_true_r, orb_false_r.
    destruct (tests registry !! j) as [t0|] eqn:Ej; [|reflexivity]. simpl.
    destruct (decide (j = p_ti p)) as [->|Hne].
    * rewrite Nat.ltb_irrefl, Nat.eqb_refl. simpl.
      assert (t0 = t) as -> by congruence.
      rewrite (ledger_participant _ _ t Ht Hr). reflexivity.
    * destruct (Nat.eqb_spec j (p_ti p)); [contradiction|].
      now rewrite orb_false_r.
  - (* PGather *)
    destruct Hpc as (Hti & Hr & Hcur & He).
    destruct (in_iteration_test r p Hreg Hti) as (t & Ht & Hl & Hcs).
    rewrite Hl, Ek in Hstep. simpl in Hstep.
    fold (count (p_ti p) r) in Hstep. rewrite count_fits in Hstep.
    assert (Hreg' : forall q, p_ti q = p_ti p -> p_list q = p_list p ->
                      body_done (p_pc q) = true ->
                      forall j, tests (p_list q) !! j
                        = (fun t => with_fails t (ledger_now r q j))
                            <$> tests registry !! j).
    { intros q E1 E2 E3 j. rewrite E2, Hreg. unfold Expected.ledger_now.
      now rewrite E1, E3, Ek. }
    pose proof (T_gather body_errors registry size r p Ek) as HT.
    destruct (Nat.eqb_spec r 0) as [->|Hr0]; injection Hstep as <- <-.
    + split; [exact HT|].
      split; [now apply Hreg'|].
      simpl. split; [repeat split; assumption|]. intros _. reflexivity.
    + replace (with_by_rank p (p_by_rank p)) with p in HT by now destruct p.
      split; [exact HT|]. split; [now apply Hreg'|].
      simpl. split; [repeat split; assumption|]. intros ?. contradiction.
  - (* PSum *)
    destruct Hpc as ((Hti & Hr & Hcur & He) & Hbr).
    destruct (in_iteration_test r p Hreg Hti) as (t & Ht & Hl & Hcs).
    rewrite Hl in Hstep. simpl in Hstep.
    assert (Hreg' : forall q, p_ti q = p_ti p -> p_list q = p_list p ->
                      body_done (p_pc q) = true ->
                      forall j, tests (p_list q) !! j
                        = (fun t => with_fails t (ledger_now r q j))
                            <$> tests registry !! j).
    { intros q E1 E2 E3 j. rewrite E2, Hreg. unfold Expected.ledger_now.
      now rewrite E1, E3, Ek. }
    pose proof (T_sum body_errors registry size r p t Ek Ht) as HT.
    destruct (Nat.eqb_spec r 0) as [->|Hr0].
    + rewrite (Hbr eq_refl), (sum_counts_total _ t Ht) in Hstep.
      injection Hstep as <- <-. simpl in HT.
      replace (Z.of_nat (total (p_ti p)) =? 0) with (total (p_ti p) =? 0)%nat
        by (destruct (Nat.eqb_spec (total (p_ti p)) 0), (Z.eqb_spec (Z.of_nat (total (p_ti p))) 0); lia).
      split; [exact HT|]. split; [now apply Hreg'|].
      simpl. split; [repeat split; assumption|].
      split; [exact Hbr|]. split; [reflexivity|lia].
    + injection Hstep as <- <-. simpl in HT.
      split; [exact HT|]. split; [now apply Hreg'|].
      simpl. split; [repeat split; assumption|].
      split; [intros ?; contradiction|].
      split; [|lia]. unfold Expected.total_ok. simpl.
      destruct (Nat.eqb_spec r 0); [contradiction|reflexivity].
  - (* PSend *)
    destruct Hpc as ((Hti & Hr & Hcur & He) & Hbr & Htot & Hfi).
    destruct (in_iteration_test r p Hreg Hti) as (t & Ht & Hl & Hcs).
    rewrite Hl, Ek in Hstep. simpl in Hstep.
    assert (Hreg' : forall q, p_ti q = p_ti p -> p_list q = p_list p ->
                      body_done (p_pc q) = true ->
                      forall j, tests (p_list q) !! j
                        = (fun t => with_fails t (ledger_now r q j))
                            <$> tests registry !! j).
    { intros q E1 E2 E3 j. rewrite E2, Hreg. unfold Expected.ledger_now.
      now rewrite E1, E3, Ek. }
    destruct (ledger (p_ti p) r !! fi) as [f|] eqn:Ef.
    2: injection Hstep as <- <-.
    1: destruct (int_mul _ _) in Hstep; injection Hstep as <- <-;
         [|now destruct Hdef].
    + split; [now apply T_send|]. split; [now apply Hreg'|].
      simpl. split; [repeat split; assumption|].
      split; [exact Hbr|]. split; [exact Htot|].
      apply lookup_lt_Some in Ef. unfold Expected.count. lia.
    + apply lookup_ge_None in Ef.
      assert (fi = count (p_ti p) r) as -> by (unfold Expected.count in *; lia).
      split; [now apply T_send_done|].
      destruct (Nat.eqb_spec r 0) as [->|Hr0].
      * split; [now apply Hreg'|].
        simpl. split; [repeat split; assumption|].
        split; [exact Hbr|]. split; [exact Htot|]. repeat split; lia.
      * split; [now apply Hreg'|].
        simpl. split; [repeat split; assumption|exact Htot].
  - (* PRecv *)
    destruct Hpc as ((Hti & Hr & Hcur & He) & Hbr & Htot & -> & Hri & Hfi).
    destruct (in_iteration_test 0 p Hreg Hti) as (t & Ht & Hl & Hcs).
    rewrite Hl in Hstep. simpl in Hstep.
    rewrite (Hbr eq_refl), nth_counts, (participant_ltb ri _ t Ht) in Hstep.
    assert (Hreg' : forall q, p_ti q = p_ti p -> p_list q = p_list p ->
                      body_done (p_pc q) = true ->
                      forall j, tests (p_list q) !! j
                        = (fun t => with_fails t (ledger_now 0 q j))
                            <$> tests registry !! j).
    { intros q E1 E2 E3 j. rewrite E2, Hreg. unfold Expected.ledger_now.
      now rewrite E1, E3, Ek. }
    destruct (bool_decide_reflect (ri < comm_size (p_ti p))%nat) as [Hlt|Hge].
    + destruct (Z.ltb_spec (Z.of_nat fi) (Z.of_nat (count (p_ti p) ri))) as [Hf|Hf].
      * destruct (ledger (p_ti p) ri !! fi) as [f|] eqn:Ef; simpl in Hstep;
          [|apply lookup_ge_None in Ef; unfold Expected.count in *; lia].
        injection Hstep as <- <-.
        split; [now apply T_recv|]. split; [now apply Hreg'|].
        simpl. split; [repeat split; assumption|].
        split; [exact Hbr|]. split; [exact Htot|].
        repeat split; try assumption; lia.
      * injection Hstep as <- <-.
        assert (fi = count (p_ti p) ri) as -> by lia.
        split; [now apply T_recv_next|]. split; [now apply Hreg'|].
        simpl. split; [repeat split; assumption|].
        split; [exact Hbr|]. split; [exact Htot|].
        repeat split; try assumption; lia.
    + injection Hstep as <- <-.
      assert (ri = comm_size (p_ti p)) as -> by lia.
      rewrite count_outsider in Hfi by lia.
      assert (fi = 0%nat) as -> by lia.
      split; [now apply T_recv_done|]. split; [now apply Hreg'|].
      simpl. split; [repeat split; assumption|exact Htot].
  - (* PWaitall *)
    destruct Hpc as ((Hti & Hr & Hcur & He) & Htot).
    destruct (in_iteration_test r p Hreg Hti) as (t & Ht & Hl & Hcs).
    rewrite Hl, Ek in Hstep. simpl in Hstep. injection Hstep as <- <-.
    split; [exact (T_waitall _ _ _ r p Ek)|].
    split; [|simpl; split; [repeat split; assumption|exact Htot]].
    intros j. rewrite Hreg. unfold Expected.ledger_now. simpl. now rewrite Ek.
  - (* PDelete *)
    injection Hstep as <- <-. split; [now apply T_delete|].
    split; [|simpl; exact Hpc].
    intros j. rewrite Hreg. unfold Expected.ledger_now. simpl. now rewrite Ek.
  - (* PVerdict *)
    destruct Hpc as ((Hti & Hr & Hcur & He) & Htot).
    destruct (in_iteration_test r p Hreg Hti) as (t & Ht & Hl & Hcs).
    rewrite Hl in Hstep. simpl in Hstep.
    pose proof (T_verdict body_errors registry size r p t Ek Ht) as HT.
    unfold Expected.total_ok in Htot. rewrite Htot in Hstep.
    assert (Hsame : ((r =? 0)%nat && negb ((if (r =? 0)%nat then Z.of_nat (total (p_ti p)) else 0) =? 0))
                    = ((r =? 0)%nat && negb (total (p_ti p) =? 0)%nat)).
    { destruct (Nat.eqb_spec r 0); [|reflexivity]. simpl.
      destruct (Nat.eqb_spec (total (p_ti p)) 0), (Z.eqb_spec (Z.of_nat (total (p_ti p))) 0); try reflexivity; lia. }
    rewrite Hsame in Hstep. injection Hstep as <- <-.
    split; [exact HT|]. split; [|simpl; split; assumption].
    intros j. rewrite Hreg. unfold Expected.ledger_now. simpl. now rewrite Ek.
  - (* PBarrierT *)
    injection Hstep as <- <-. split; [now apply T_barrierT|].
    split; [|simpl; exact Hpc].
    intros j. rewrite Hreg. unfold Expected.ledger_now. simpl. now rewrite Ek.
  - (* PWaitT *)
    simpl in Hstep. injection Hstep as <- <-. split; [now apply T_waitT|].
    split; [|simpl; exact Hpc].
    intros j. rewrite Hreg. unfold Expected.ledger_now. simpl. now rewrite Ek.
  - (* PCommFree *)
    injection Hstep as <- <-. split; [now apply T_commfree|].
    destruct Hpc as [Hti He].
    split; [|simpl; split; [lia|assumption]].
    intros j. rewrite Hreg. unfold Expected.ledger_now. simpl. rewrite Ek. simpl.
    rewrite andb_true_r, andb_false_r, orb_false_r.
    destruct (tests registry !! j); [|reflexivity]. simpl.
    destruct (Nat.ltb_spec j (p_ti p)), (Nat.eqb_spec j (p_ti p)),
      (Nat.ltb_spec j (S (p_ti p))); try reflexivity; lia.
  - (* PExit *) discriminate.
  - (* PUndefined *) discriminate.
Qed.

(** The one step of [main] that is undefined, on a process whose local
    variables are as they should be: the offset of a record in the send
    loop that does not fit [int].  It shows nothing to the others, and MPI
    has no part in it. *)
Lemma undefined_step (net : mpi) (r : nat) (p p' : proc) (evs : list event) :
  proc_inv r p ->
  local_step body_errors net r size p = Some (p', evs) ->
  p_pc p' = PUndefined ->
  exists fi f,
    p_pc p = PSend fi /\ ledger (p_ti p) r !! fi = Some f /\
    int_mul (Z.of_nat FAIL_MESSAGE_SIZE) (Z.of_nat fi) = None /\
    evs = [] /\
    forall net', local_step body_errors net' r size p
                 = Some (goto p PUndefined, []).
Proof.
  intros [Hreg Hpc] Hs Hu. unfold local_step in Hs.
  assert (Hin : in_iteration r p ->
                exists t, tests (p_list p) !! p_ti p
                  = Some (with_fails t (if body_done (p_pc p)
                                        then ledger (p_ti p) r else [])) /\
                  current_valid (p_list p)).
  { intros (Hti & Hr & Hcur & He).
    destruct (in_iteration_test r p Hreg Hti) as (t & Ht & Hl & Hcs).
    exists t. split; [exact Hl|].
    unfold current_valid. rewrite Hcur. apply lookup_lt_Some in Hl. lia. }
  destruct (p_pc p) eqn:Ek; try discriminate;
    try (destruct Hin as (t & Hl & Hv);
         [first [exact Hpc | exact (proj1 Hpc)]|];
         rewrite Hl in Hs);
    simpl in Hs.
  - injection Hs as <- <-. discriminate.
  - injection Hs as <- <-. discriminate.
  - destruct (mpi_barrier net r); [|discriminate].
    injection Hs as <- <-. discriminate.
  - destruct (_ <? _); injection Hs as <- <-; discriminate.
  - injection Hs as <- <-. discriminate.
  - destruct (mpi_barrier net r); [|discriminate].
    injection Hs as <- <-. discriminate.
  - (* PLoop *)
    destruct (tests (p_list p) !! p_ti p); [|injection Hs as <- <-; discriminate].
    destruct (_ <? _); injection Hs as <- <-; discriminate.
  - injection Hs as <- <-. discriminate.
  - (* PBody *)
    destruct (run_entry_lookup body_errors (fptr t) r (test_size t)
                (p_list p) Hv) as (l' & Hl' & _).
    rewrite Hl' in Hs. injection Hs as <- <-. discriminate.
  - (* PGather *)
    destruct (r =? 0)%nat; [|injection Hs as <- <-; discriminate].
    destruct (mpi_gather _ _ _ _); [|discriminate].
    injection Hs as <- <-. discriminate.
  - destruct (r =? 0)%nat; injection Hs as <- <-; discriminate.
  - (* PSend *)
    destruct (ledger (p_ti p) r !! fi) as [f|] eqn:Ef;
      [|injection Hs as <- <-; now destruct (r =? 0)%nat].
    destruct (int_mul _ _) eqn:Em; [injection Hs as <- <-; discriminate|].
    injection Hs as <- <-.
    exists fi, f. split; [reflexivity|]. split; [exact Ef|].
    split; [exact Em|]. split; [reflexivity|].
    intros net'. unfold local_step. rewrite Ek, Hl. simpl.
    now rewrite Ef, Em.
  - (* PRecv *)
    destruct (_ <? _); [|injection Hs as <- <-; discriminate].
    destruct (_ <? _); [|injection Hs as <- <-; discriminate].
    destruct (mpi_recv _ _ _ _); [|discriminate].
    injection Hs as <- <-. discriminate.
  - destruct (mpi_waitall _ _ _); [|discriminate].
    injection Hs as <- <-. discriminate.
  - injection Hs as <- <-. discriminate.
  - injection Hs as <- <-. discriminate.
  - injection Hs as <- <-. discriminate.
  - destruct (mpi_barrier net r); [|discriminate].
    injection Hs as <- <-. discriminate.
  - injection Hs as <- <-. discriminate.
Qed.

End Local.

(** ** The driver: what a step of the expected run adds to the history *)

Ltac trans_cases H :=
  match type of H with Expected.trans _ _ _ ?r _ _ _ =>
    let Er0 := fresh "Er0" in
    destruct (r =? 0)%nat eqn:Er0;
    [apply Nat.eqb_eq in Er0; subst r | ];
    inversion H; subst; simpl;
    rewrite ?Er0 in *;
    repeat match goal with E : p_pc ?p = _ |- _ => rewrite E in * end;
    simpl in *; rewrite ?Er0 in *; simpl in *
  end.

Ltac trans_inv Hinv H :=
  destruct Hinv as [_ Hpc];
  trans_cases H;
  unfold Expected.in_iteration in *;
  repeat match goal with H : _ /\ _ |- _ => destruct H end.

Section Steps.

Variable body_errors : test_ptr -> nat -> Z -> list (assert_info * string).
Variable registry : test_list.
Variable size : nat.

Local Abbreviation ledger := (ledger body_errors registry).
Local Abbreviation count := (count body_errors registry).
Local Abbreviation counts := (counts body_errors registry).
Local Abbreviation total := (total body_errors registry).
Local Abbreviation comm_size := (comm_size registry).
Local Abbreviation ntests := (ntests registry).
Local Abbreviation ideal := (ideal body_errors registry).
Local Abbreviation proc_inv := (proc_inv body_errors registry size).
Local Abbreviation trans := (trans body_errors registry size).
Local Abbreviation gathered := (gathered body_errors registry).
Local Abbreviation sent_count := (sent_count body_errors registry).
Local Abbreviation recv_count := (recv_count body_errors registry).
Local Abbreviation posted_of := (posted_of body_errors registry).
Local Abbreviation matched_of := (matched_of body_errors registry).
Local Abbreviation event_ok := (event_ok body_errors registry size).
Local Abbreviation partial_report := (partial_report body_errors registry).
Local Abbreviation report := (report body_errors registry).
Local Abbreviation failure_lines := (failure_lines body_errors registry).
Local Abbreviation lines_upto := (lines_upto body_errors registry).
Local Abbreviation console_of := (console_of body_errors registry).
Local Abbreviation enough := (enough registry size).

Ltac pc_cases :=
  repeat match goal with
  | |- context [decide ?P] => destruct (decide P)
  | |- context [(?a <? ?b)%nat] => destruct (Nat.ltb_spec a b)
  | |- context [(?a =? ?b)%nat] => destruct (Nat.eqb_spec a b)
  | H : _ /\ _ |- _ => destruct H
  end; simpl in *; try reflexivity; try lia.

Lemma root_prints_barriers (r r' : nat) (s : string) :
  entered (map (pair r) (root_prints r s)) r' = 0%nat.
Proof. unfold root_prints. now destruct (r =? 0)%nat. Qed.

(** Case analysis on a step of the expected run, rank 0 apart. *)
Lemma trans_pos (r : nat) (p p' : proc) (evs : list event) :
  trans r p p' evs -> (pos p <= pos p')%nat.
Proof. intros H. unfold pos. trans_cases H; lia. Qed.

Ltac split_ifs :=
  unfold root_prints;
  repeat match goal with
  | |- context [decide ?P] => destruct (decide P)
  | |- context [if ?c then _ else _] => destruct c eqn:?
  | H : _ /\ _ |- _ => destruct H
  end; simpl in *.

Lemma trans_entered (r : nat) (p p' : proc) (evs : list event) :
  proc_inv r p -> trans r p p' evs ->
  entered_of p' = (entered_of p + entered (map (pair r) evs) r)%nat.
Proof.
  intros Hinv H. unfold entered_of, entered. trans_inv Hinv H;
    split_ifs; try lia; try contradiction.
Qed.

Lemma trans_gathered (r : nat) (p p' : proc) (evs : list event) (ti : nat) :
  proc_inv r p -> trans r p p' evs ->
  gathered r p' ti = gathered r p ti ++ contributions (map (pair r) evs) ti r.
Proof.
  intros Hinv H. unfold Expected.gathered, contributions, pos.
  destruct (decide (ti = p_ti p)) as [->|Hne];
    trans_inv Hinv H; split_ifs; try reflexivity; try lia;
    repeat match goal with H : _ /\ _ |- _ => destruct H end; subst;
    try reflexivity; try lia.
Qed.

Lemma count_out (ti r : nat) : (comm_size ti <= r)%nat -> count ti r = 0%nat.
Proof.
  intros H. unfold Expected.count, Expected.ledger, Expected.comm_size in *.
  destruct (tests registry !! ti) as [t|]; [|reflexivity].
  destruct (Z.ltb_spec (Z.of_nat r) (test_size t)); [lia|reflexivity].
Qed.

Ltac nat_facts :=
  repeat match goal with
  | H : (_ <? _)%nat = true |- _ => apply Nat.ltb_lt in H
  | H : (_ <? _)%nat = false |- _ => apply Nat.ltb_ge in H
  | H : (_ =? _)%nat = true |- _ => apply Nat.eqb_eq in H
  | H : (_ =? _)%nat = false |- _ => apply Nat.eqb_neq in H
  | H : _ /\ _ |- _ => destruct H
  end.

(** Only the send loop sends. *)
Lemma trans_sent_cases (r : nat) (p p' : proc) (evs : list event) :
  proc_inv r p -> trans r p p' evs ->
  (exists fi f,
     p_pc p = PSend fi /\ ledger (p_ti p) r !! fi = Some f /\
     p' = goto p (PSend (S fi)) /\
     evs = [EIssend (p_ti p) 0 fi (fail_message r f)]) \/
  (forallb (fun e => negb (is_send e)) evs = true /\
   forall ti, sent_count r p' ti = sent_count r p ti).
Proof.
  intros Hinv H.
  destruct H; try (right; split;
    [ unfold root_prints; repeat match goal with
        |- context [if ?c then _ else _] => destruct c end; reflexivity
    | intros ti0; unfold Expected.sent_count, pos;
      destruct Hinv as [_ Hpc];
      destruct (r =? 0)%nat eqn:Er0; simpl;
      repeat match goal with E : p_pc ?p = _ |- _ => rewrite E in * end;
      simpl in *; unfold Expected.in_iteration in *;
      split_ifs; nat_facts; subst; try reflexivity; try lia;
      try (rewrite count_out by lia; reflexivity);
      try match goal with
          | |- Expected.count _ _ ?t _ = 0%nat =>
              replace t with (p_ti p) by lia; apply count_out; lia
          end ]).
  left. eauto 10.
Qed.

Lemma no_send_projections (r r' : nat) (evs : list event) (ti tag : nat) :
  forallb (fun e => negb (is_send e)) evs = true ->
  sent_tags (map (pair r) evs) ti r' = [] /\
  posted (map (pair r) evs) ti r' tag = [].
Proof.
  induction evs as [|e evs IH]; [now split|].
  simpl. intros [He Hevs]%andb_prop. destruct (IH Hevs) as [IH1 IH2].
  unfold sent_tags, posted in *. simpl.
  destruct e; try discriminate; simpl; now rewrite ?IH1, ?IH2.
Qed.

Lemma trans_sent_tags (r : nat) (p p' : proc) (evs : list event) (ti : nat) :
  proc_inv r p -> trans r p p' evs ->
  seq 0 (sent_count r p' ti)
  = seq 0 (sent_count r p ti) ++ sent_tags (map (pair r) evs) ti r.
Proof.
  intros Hinv H.
  destruct (trans_sent_cases r p p' evs Hinv H)
    as [(fi & f & Ek & Ef & -> & ->)|[Hno Hsame]].
  - unfold Expected.sent_count, sent_tags, pos. simpl. rewrite Ek. simpl.
    split_ifs; nat_facts; subst; rewrite ?app_nil_r; try reflexivity;
      try lia; try congruence; try exact (seq_S _ 0).
  - rewrite Hsame. destruct (no_send_projections r r evs ti 0 Hno) as [-> _].
    now rewrite app_nil_r.
Qed.

Lemma trans_posted (r : nat) (p p' : proc) (evs : list event) (ti tag : nat) :
  proc_inv r p -> trans r p p' evs ->
  posted_of r p' ti tag
  = posted_of r p ti tag ++ posted (map (pair r) evs) ti r tag.
Proof.
  intros Hinv H. unfold Expected.posted_of.
  destruct (trans_sent_cases r p p' evs Hinv H)
    as [(fi & f & Ek & Ef & -> & ->)|[Hno Hsame]].
  - unfold Expected.sent_count, posted, pos. simpl. rewrite Ek. simpl.
    destruct (decide (ti = p_ti p)) as [->|Hne].
    + rewrite Nat.eqb_refl.
      destruct (Nat.ltb_spec (p_ti p * 13 + 11) (p_ti p * 13 + 11)); [lia|].
      destruct (decide (tag = fi)) as [->|Hne].
      * rewrite decide_True by tauto.
        destruct (Nat.ltb_spec fi (S fi)); [|lia].
        destruct (Nat.ltb_spec fi fi); [lia|].
        rewrite Ef. reflexivity.
      * rewrite decide_False by (intros (_ & _ & _ & ?); congruence).
        rewrite app_nil_r.
        destruct (Nat.ltb_spec tag (S fi)), (Nat.ltb_spec tag fi);
          try reflexivity; lia.
    + rewrite decide_False by (intros (_ & ? & _); congruence).
      rewrite app_nil_r.
      destruct (Nat.eqb_spec (p_ti p) ti); [congruence|reflexivity].
  - rewrite Hsame. destruct (no_send_projections r r evs ti tag Hno) as [_ ->].
    now rewrite app_nil_r.
Qed.

(** Only the receive loops receive, and only on rank 0. *)
Lemma trans_recv_cases (r : nat) (p p' : proc) (evs : list event) :
  proc_inv r p -> trans r p p' evs ->
  (exists ri fi f,
     r = 0%nat /\ p_pc p = PRecv ri fi /\ (ri < comm_size (p_ti p))%nat /\
     ledger (p_ti p) ri !! fi = Some f /\
     p' = goto p (PRecv ri (S fi)) /\
     evs = [ERecv (p_ti p) ri fi (fail_message ri f);
            EPrintf (fail_message ri f +:+ nl)]) \/
  (forallb (fun e => negb (is_recv e)) evs = true /\
   (r = 0%nat -> forall ti src, recv_count p' ti src = recv_count p ti src)).
Proof.
  intros Hinv H.
  destruct H; try (right; split;
    [ unfold root_prints; repeat match goal with
        |- context [if ?c then _ else _] => destruct c end; reflexivity
    | intros -> ti0 src; unfold Expected.recv_count, pos;
      destruct Hinv as [_ Hpc]; simpl;
      repeat match goal with E : p_pc ?p = _ |- _ => rewrite E in * end;
      simpl in *; unfold Expected.in_iteration in *;
      split_ifs; nat_facts; subst; try reflexivity; try lia;
      try (rewrite count_out by lia; reflexivity);
      try match goal with
          | |- Expected.count _ _ ?t _ = 0%nat =>
              replace t with (p_ti p) by lia; apply count_out; lia
          | |- 0%nat = Expected.count _ _ ?t _ =>
              symmetry; replace t with (p_ti p) by lia; apply count_out; lia
          end ]).
  left. eauto 15.
Qed.

Lemma no_recv_matched (r : nat) (evs : list event) (ti src tag : nat) :
  forallb (fun e => negb (is_recv e)) evs = true ->
  matched (map (pair r) evs) ti src tag = 0%nat.
Proof.
  induction evs as [|e evs IH]; [reflexivity|].
  simpl. intros [He Hevs]%andb_prop. specialize (IH Hevs).
  unfold matched in *. simpl.
  destruct e; try discriminate; simpl; exact IH.
Qed.

Lemma trans_matched (p p' : proc) (evs : list event) (ti src tag : nat) :
  proc_inv 0 p -> trans 0 p p' evs ->
  matched_of p' ti src tag
  = (matched_of p ti src tag + matched (map (pair 0%nat) evs) ti src tag)%nat.
Proof.
  intros Hinv H. unfold Expected.matched_of.
  destruct (trans_recv_cases 0 p p' evs Hinv H)
    as [(ri & fi & f & _ & Ek & Hri & Ef & -> & ->)|[Hno Hsame]].
  - unfold Expected.recv_count, matched, pos. simpl. rewrite Ek. simpl.
    destruct (decide (ti = p_ti p)) as [->|Hne].
    + rewrite Nat.eqb_refl.
      destruct (Nat.ltb_spec (p_ti p * 13 + 12) (p_ti p * 13 + 12)); [lia|].
      destruct (decide (src = ri)) as [->|Hsrc].
      * rewrite Nat.ltb_irrefl, Nat.eqb_refl.
        destruct (decide (tag = fi)) as [->|Htag].
        -- rewrite decide_True by tauto.
           destruct (Nat.ltb_spec fi (S fi)); [|lia].
           destruct (Nat.ltb_spec fi fi); [lia|]. reflexivity.
        -- rewrite decide_False by (intros (_ & _ & _ & ?); congruence).
           simpl.
           destruct (Nat.ltb_spec tag (S fi)), (Nat.ltb_spec tag fi);
             try reflexivity; lia.
      * rewrite decide_False by (intros (_ & _ & ? & _); congruence).
        simpl. destruct (Nat.eqb_spec src ri); [congruence|]. lia.
    + rewrite decide_False by (intros (_ & ? & _); congruence).
      simpl. destruct (Nat.eqb_spec (p_ti p) ti); [congruence|]. lia.
  - rewrite (Hsame eq_refl), no_recv_matched by assumption. lia.
Qed.

Lemma trans_event_ok (r : nat) (p p' : proc) (evs : list event) :
  proc_inv r p -> trans r p p' evs -> Forall (event_ok r) evs.
Proof.
  intros Hinv H. trans_inv Hinv H; unfold root_prints; simpl;
    rewrite ?Er0;
    repeat match goal with
    | |- context [if ?c then _ else _] => destruct c eqn:?
    end;
    repeat constructor; simpl; try assumption; try lia;
    try match goal with H : _ !! _ = Some _ |- _ => now rewrite H end.
Qed.

Lemma lines_upto_S (ti ri fi : nat) (f : fail_info) :
  ledger ti ri !! fi = Some f ->
  lines_upto ti ri (S fi) = lines_upto ti ri fi ++ [fail_message ri f +:+ nl].
Proof.
  intros Hf. unfold Expected.lines_upto.
  rewrite (take_S_r _ _ _ Hf), map_app, app_assoc. reflexivity.
Qed.

Lemma lines_upto_next (ti ri : nat) :
  lines_upto ti (S ri) 0 = lines_upto ti ri (count ti ri).
Proof.
  unfold Expected.lines_upto, Expected.count.
  rewrite seq_S, map_app, concat_app, firstn_all. simpl.
  now rewrite !app_nil_r.
Qed.

Lemma lines_upto_all (ti : nat) :
  lines_upto ti (comm_size ti) 0 = failure_lines ti.
Proof. unfold Expected.lines_upto, Expected.failure_lines. simpl. now rewrite app_nil_r. Qed.

Lemma total_zero_count (ti r : nat) : total ti = 0%nat -> count ti r = 0%nat.
Proof.
  intros H0. destruct (Nat.lt_ge_cases r (comm_size ti)) as [Hr|Hr].
  - assert (count ti r <= total ti)%nat; [|lia].
    unfold Expected.total. apply sum_list_with_in, elem_of_seq. lia.
  - now apply count_out.
Qed.

Lemma total_zero_lines (ti : nat) : total ti = 0%nat -> failure_lines ti = [].
Proof.
  intros H0. unfold Expected.failure_lines.
  induction (seq 0 (comm_size ti)) as [|r rs IH]; [reflexivity|].
  simpl. rewrite IH, app_nil_r.
  pose proof (total_zero_count ti r H0) as Hc. unfold Expected.count in Hc.
  now destruct (ledger ti r).
Qed.

Lemma report_participant (ti : nat) (t : test_info) :
  tests registry !! ti = Some t -> (0 < comm_size ti)%nat ->
  report ti = running_line t ::
              (if (total ti =? 0)%nat then [success_line t]
               else failure_lines ti ++ [fail_line t]).
Proof.
  intros Ht Hc. unfold Expected.report. rewrite Ht.
  unfold Expected.comm_size in Hc. rewrite Ht in Hc.
  destruct (Z.ltb_spec 0 (test_size t)); [reflexivity|lia].
Qed.

Lemma report_outsider (ti : nat) : (comm_size ti <= 0)%nat -> report ti = [].
Proof.
  unfold Expected.report, Expected.comm_size. destruct (tests registry !! ti) as [t|];
    [|reflexivity].
  intros Hc. destruct (Z.ltb_spec 0 (test_size t)); [lia|reflexivity].
Qed.

Lemma trans_console (p p' : proc) (evs : list event) :
  proc_inv 0 p -> trans 0 p p' evs ->
  console_of p' = console_of p ++ prints evs.
Proof.
  intros Hinv H. unfold Expected.console_of, Expected.partial_report, prints.
  destruct Hinv as [_ Hpc].
  inversion H; subst; simpl;
    repeat match goal with E : p_pc ?p = _ |- _ => rewrite E in * end;
    simpl in *; unfold Expected.in_iteration in *;
    repeat match goal with H : _ /\ _ |- _ => destruct H end;
    repeat match goal with
    | H : tests registry !! _ = Some _ |- _ => rewrite H
    | H : p_ti p = _ |- _ => rewrite H
    end;
    rewrite ?app_nil_r; try reflexivity.
  all: rewrite ?lines_upto_next, ?lines_upto_all.
  all: try match goal with
           | Hf : Expected.ledger _ _ _ _ !! _ = Some _ |- _ =>
               rewrite (lines_upto_S _ _ _ _ Hf)
           end.
  all: try (rewrite report_outsider by lia).
  all: try match goal with
           | |- context [report 0 ++ concat (map report (seq 1 ?n))] =>
               change (report 0 ++ concat (map report (seq 1 n)))
                 with (concat (map report (seq 0 (S n))));
               rewrite seq_S, map_app, concat_app; simpl; rewrite app_nil_r
           end.
  all: try match goal with
           | Ht : tests registry !! ?i = Some ?t |- context [report ?i] =>
               rewrite (report_participant _ t Ht) by lia
           end.
  all: repeat match goal with
              | |- context [tests registry !! ?x] =>
                  destruct (tests registry !! x) eqn:?
              end.
  all: try (unfold Expected.lines_upto; simpl).
  all: repeat match goal with
              | |- context [(total ?x =? 0)%nat] =>
                  destruct (Nat.eqb_spec (total x) 0)
              end; simpl.
  all: rewrite ?total_zero_lines by assumption.
  all: rewrite ?app_nil_r, <- ?app_assoc; simpl; try reflexivity.
  all: try (exfalso;
            match goal with
            | H : tests registry !! _ = None |- _ =>
                apply lookup_ge_None in H; unfold Expected.ntests in *; lia
            end).
  all: rewrite <- ?(assoc_L (++)); reflexivity.
Qed.

End Steps.

(** ** The driver: the history and its readings *)

Lemma entered_app (l1 l2 : list (nat * event)) (r : nat) :
  entered (l1 ++ l2) r = (entered l1 r + entered l2 r)%nat.
Proof. unfold entered. now rewrite omap_app, length_app. Qed.

Lemma contributions_app (l1 l2 : list (nat * event)) (ti r : nat) :
  contributions (l1 ++ l2) ti r = contributions l1 ti r ++ contributions l2 ti r.
Proof. unfold contributions. now rewrite omap_app. Qed.

Lemma sent_tags_app (l1 l2 : list (nat * event)) (ti r : nat) :
  sent_tags (l1 ++ l2) ti r = sent_tags l1 ti r ++ sent_tags l2 ti r.
Proof. unfold sent_tags. now rewrite omap_app. Qed.

Lemma posted_app (l1 l2 : list (nat * event)) (ti r tag : nat) :
  posted (l1 ++ l2) ti r tag = posted l1 ti r tag ++ posted l2 ti r tag.
Proof. unfold posted. now rewrite omap_app. Qed.

Lemma matched_app (l1 l2 : list (nat * event)) (ti src tag : nat) :
  matched (l1 ++ l2) ti src tag
  = (matched l1 ti src tag + matched l2 ti src tag)%nat.
Proof. unfold matched. now rewrite omap_app, length_app. Qed.

(** The events of one rank say nothing about another. *)
Lemma other_rank (r r' : nat) (evs : list event) :
  r <> r' ->
  entered (map (pair r) evs) r' = 0%nat /\
  (forall ti, contributions (map (pair r) evs) ti r' = []) /\
  (forall ti, sent_tags (map (pair r) evs) ti r' = []) /\
  (forall ti tag, posted (map (pair r) evs) ti r' tag = []).
Proof.
  intros Hne. unfold entered, contributions, sent_tags, posted.
  induction evs as [|e evs (IH1 & IH2 & IH3 & IH4)]; [now repeat split|].
  simpl. repeat split; intros;
    destruct e; simpl; repeat case_decide;
    try assumption; try apply IH2; try apply IH3; try apply IH4;
    exfalso; intuition congruence.
Qed.

Lemma other_rank_matched (r : nat) (evs : list event) (ti src tag : nat) :
  r <> 0%nat -> matched (map (pair r) evs) ti src tag = 0%nat.
Proof.
  intros Hne. unfold matched.
  induction evs as [|e evs IH]; [reflexivity|].
  simpl. destruct e; simpl; try exact IH.
  case_decide; [exfalso; intuition congruence|exact IH].
Qed.

Lemma events_of_emit (r r' : nat) (evs : list event) (p' : proc) (w : world) :
  events_of r' (emit r evs p' w)
  = events_of r' w ++ (if decide (r = r') then evs else []).
Proof.
  unfold events_of, emit. simpl. rewrite omap_app. f_equal.
  destruct (decide (r = r')) as [->|Hne];
    induction evs as [|e evs IH]; simpl; try reflexivity;
    case_decide; simpl in *; try congruence;
    try (f_equal; exact IH); exact IH.
Qed.

Lemma console_emit (r : nat) (evs : list event) (p' : proc) (w : world) :
  console (emit r evs p' w)
  = console w ++ (if decide (r = 0%nat) then prints evs else []).
Proof.
  unfold console. rewrite events_of_emit, omap_app.
  now destruct (decide (r = 0%nat)).
Qed.

(** ** The driver: every schedule follows the expected run *)

Section Safety.

Variable body_errors : test_ptr -> nat -> Z -> list (assert_info * string).
Variable registry : test_list.
Variable size : nat.

Local Abbreviation ledger := (ledger body_errors registry).
Local Abbreviation count := (count body_errors registry).
Local Abbreviation counts := (counts body_errors registry).
Local Abbreviation total := (total body_errors registry).
Local Abbreviation comm_size := (comm_size registry).
Local Abbreviation ntests := (ntests registry).
Local Abbreviation ideal := (ideal body_errors registry).
Local Abbreviation proc_inv := (proc_inv body_errors registry size).
Local Abbreviation trans := (trans body_errors registry size).
Local Abbreviation gathered := (gathered body_errors registry).
Local Abbreviation sent_count := (sent_count body_errors registry).
Local Abbreviation recv_count := (recv_count body_errors registry).
Local Abbreviation posted_of := (posted_of body_errors registry).
Local Abbreviation matched_of := (matched_of body_errors registry).
Local Abbreviation event_ok := (event_ok body_errors registry size).
Local Abbreviation console_of := (console_of body_errors registry).
Local Abbreviation enough := (enough registry size).
Local Abbreviation inv := (inv body_errors registry size).
Local Abbreviation proc_ok := (proc_ok body_errors registry size).
Local Abbreviation root_ok := (root_ok body_errors registry).
Local Abbreviation safe_step := (safe_step body_errors).
Local Abbreviation safe_run := (safe_run body_errors).
Local Abbreviation safe_local_step := (safe_local_step body_errors).

Hypothesis Hfit : counts_fit body_errors registry.
Hypothesis Hfresh : fresh registry.

Lemma Forall2_map_eq {A B} (f : A -> option B) (g : A -> B)
    (l : list A) (k : list B) :
  Forall2 (fun x y => f x = Some y) l k ->
  (forall x y, x ∈ l -> f x = Some y -> y = g x) ->
  k = map g l.
Proof.
  induction 1 as [|x y l k Hxy _ IH]; intros Hg; [reflexivity|].
  simpl. f_equal.
  - apply Hg; [left|assumption].
  - apply IH. intros x' y' Hin. apply Hg. now right.
Qed.

(** What the processes in a participant's communicator are. *)
Lemma participant_exists (w : world) (ti ri : nat) :
  inv w -> enough -> (ri < comm_size ti)%nat ->
  exists p, procs w !! ri = Some p.
Proof.
  intros (Hlen & _) He Hri. apply lookup_lt_is_Some_2. rewrite Hlen.
  unfold Expected.comm_size in Hri.
  destruct (tests registry !! ti) as [t|] eqn:Et; [|lia].
  pose proof (enough_sizes registry size t ti He Et) as Hc.
  unfold Expected.comm_size in Hc. rewrite Et in Hc. lia.
Qed.

(** The gather delivers the counts. *)
Lemma gather_all_counts (w : world) (ti : nat) (t : test_info) (cs : list Z) :
  inv w -> enough -> tests registry !! ti = Some t ->
  gather_all (log w) ti (test_size t) (Z.of_nat (count ti 0)) = Some cs ->
  cs = counts ti.
Proof.
  intros Hinv He Ht Hg. unfold gather_all in Hg.
  apply mapM_Some in Hg. unfold Expected.counts.
  rewrite (comm_size_lookup _ _ _ Ht).
  apply (Forall2_map_eq _ _ _ _ Hg).
  intros ri c Hin Hc. apply elem_of_seq in Hin.
  destruct (Nat.eqb_spec ri 0) as [->|Hne]; [congruence|].
  assert (Hri : (ri < comm_size ti)%nat)
    by (rewrite (comm_size_lookup _ _ _ Ht); lia).
  destruct (participant_exists w ti ri Hinv He Hri) as [p Hp].
  destruct Hinv as (_ & Hprocs & _).
  destruct (Hprocs ri p Hp) as (_ & _ & Hgat & _).
  unfold contribution in Hc. rewrite Hgat in Hc.
  unfold Expected.gathered in Hc. destruct (decide _); simpl in Hc; congruence.
Qed.

(** A received buffer is the text of the record its tag names. *)
Lemma incoming_message (w : world) (ti ri fi : nat) (buf : string) :
  inv w -> enough -> (ri < comm_size ti)%nat ->
  incoming (log w) ti ri fi = Some buf ->
  fail_message ri <$> ledger ti ri !! fi = Some buf.
Proof.
  intros Hinv He Hri Hin.
  destruct (participant_exists w ti ri Hinv He Hri) as [p Hp].
  destruct Hinv as (_ & Hprocs & _).
  destruct (Hprocs ri p Hp) as (_ & _ & _ & _ & Hpost).
  unfold incoming in Hin. rewrite Hpost in Hin. unfold Expected.posted_of in Hin.
  destruct (_ <? _)%nat; [|now rewrite lookup_nil in Hin].
  destruct (ledger ti ri !! fi) as [f|]; simpl in *;
    [|now rewrite lookup_nil in Hin].
  apply list_elem_of_lookup_2, list_elem_of_singleton in Hin. congruence.
Qed.

(** What the history lets a process do, ideal MPI lets it do too, with
    the same outcome. *)
Lemma step_refines (w : world) (r : nat) (p p' : proc) (evs : list event) :
  inv w -> procs w !! r = Some p ->
  safe_local_step (substrate (log w) size) r size p = Some (p', evs) ->
  safe_local_step ideal r size p = Some (p', evs).
Proof.
  intros Hinv Hp Hstep.
  apply safe_local_step_Some in Hstep as [Hstep Hdef].
  apply safe_local_step_Some. split; [|exact Hdef].
  pose proof Hinv as (Hlen & Hprocs & Hroot & Hev).
  destruct (Hprocs r p Hp) as ((Hreg & Hpc) & _).
  unfold local_step in *.
  destruct (p_pc p) eqn:Ek; try exact Hstep; simpl in *.
  - destruct (barrier_open _ _ _); [exact Hstep|discriminate].
  - destruct (barrier_open _ _ _); [exact Hstep|discriminate].
  - (* PGather *)
    destruct Hpc as (Hti & Hr & Hcur & He).
    destruct (in_iteration_test body_errors registry r p Hreg Hti)
      as (t & Ht & Hl & Hcs).
    rewrite Hl, Ek in *. simpl in *.
    destruct (Nat.eqb_spec r 0) as [->|Hr0]; [|exact Hstep].
    fold (count (p_ti p) 0) in *.
    rewrite (count_fits body_errors registry Hfit) in *.
    destruct (gather_all _ _ _ _) as [cs|] eqn:Eg; [|discriminate].
    now rewrite (gather_all_counts w _ t cs Hinv He Ht Eg) in Hstep.
  - (* PRecv *)
    destruct Hpc as ((Hti & Hr & Hcur & He) & Hbr & Htot & -> & Hri & Hfi).
    destruct (in_iteration_test body_errors registry 0 p Hreg Hti)
      as (t & Ht & Hl & Hcs).
    rewrite Hl in *. simpl in *.
    destruct (Z.ltb_spec (Z.of_nat ri) (test_size t)) as [Hlt|]; [|exact Hstep].
    destruct (_ <? nth _ _ _); [|exact Hstep].
    destruct (incoming _ _ _ _) as [buf|] eqn:Ein; [|discriminate].
    assert (Hri' : (ri < comm_size (p_ti p))%nat) by lia.
    now rewrite (incoming_message w _ _ _ buf Hinv He Hri' Ein).
  - (* PWaitall *)
    destruct (tests (p_list p) !! p_ti p); [|exact Hstep].
    destruct (sends_complete _ _ _); [exact Hstep|discriminate].
  - destruct (barrier_open _ _ _); [exact Hstep|discriminate].
Qed.

Lemma log_emit (r : nat) (evs : list event) (p' : proc) (w : world) :
  log (emit r evs p' w) = log w ++ map (pair r) evs.
Proof. reflexivity. Qed.

Lemma procs_emit (r : nat) (evs : list event) (p' : proc) (w : world) :
  procs (emit r evs p' w) = <[r := p']> (procs w).
Proof. reflexivity. Qed.

Lemma inv_emit (w : world) (r : nat) (p p' : proc) (evs : list event) :
  inv w -> procs w !! r = Some p -> trans r p p' evs -> proc_inv r p' ->
  inv (emit r evs p' w).
Proof.
  intros (Hlen & Hprocs & Hroot & Hev) Hp Ht Hinv'.
  destruct (Hprocs r p Hp) as (Hinv & Hent & Hgat & Htags & Hpost).
  assert (Hr : (r < length (procs w))%nat) by (now apply lookup_lt_Some in Hp).
  split; [|split; [|split]].
  - rewrite procs_emit. now rewrite length_insert.
  - intros r' q Hq. rewrite procs_emit in Hq. unfold Expected.proc_ok.
    rewrite log_emit.
    destruct (decide (r' = r)) as [->|Hne].
    + rewrite list_lookup_insert_eq in Hq by assumption. injection Hq as <-.
      split; [assumption|].
      rewrite entered_app, Hent, (trans_entered _ _ _ _ _ _ _ Hinv Ht).
      split; [reflexivity|]. split; [|split].
      * intros ti. now rewrite contributions_app, Hgat,
          (trans_gathered _ _ _ _ _ _ _ ti Hinv Ht).
      * intros ti. now rewrite sent_tags_app, Htags,
          (trans_sent_tags _ _ _ _ _ _ _ ti Hinv Ht).
      * intros ti tag. now rewrite posted_app, Hpost,
          (trans_posted _ _ _ _ _ _ _ ti tag Hinv Ht).
    + rewrite list_lookup_insert_ne in Hq by congruence.
      destruct (Hprocs r' q Hq) as (Hinvq & Hentq & Hgatq & Htagsq & Hpostq).
      assert (Hrr : r <> r') by congruence.
      destruct (other_rank r r' evs Hrr) as (O1 & O2 & O3 & O4).
      split; [assumption|].
      rewrite entered_app, O1, Nat.add_0_r. split; [assumption|].
      split; [|split].
      * intros ti. now rewrite contributions_app, O2, app_nil_r.
      * intros ti. now rewrite sent_tags_app, O3, app_nil_r.
      * intros ti tag. now rewrite posted_app, O4, app_nil_r.
  - intros p0 Hp0. rewrite procs_emit in Hp0. unfold Expected.root_ok.
    rewrite console_emit, log_emit.
    destruct (decide (r = 0%nat)) as [->|Hne].
    + rewrite list_lookup_insert_eq in Hp0 by assumption. injection Hp0 as <-.
      destruct (Hroot p Hp) as [Hm Hc]. split.
      * intros ti src tag.
        now rewrite matched_app, Hm, (trans_matched _ _ _ _ _ _ _ _ _ Hinv Ht).
      * now rewrite Hc, (trans_console _ _ _ _ _ _ Hinv Ht).
    + rewrite list_lookup_insert_ne in Hp0 by congruence.
      destruct (Hroot p0 Hp0) as [Hm Hc]. split.
      * intros ti src tag.
        now rewrite matched_app, other_rank_matched, Nat.add_0_r.
      * now rewrite app_nil_r.
  - rewrite log_emit. apply Forall_app. split; [assumption|].
    apply Forall_fmap. simpl.
    exact (trans_event_ok _ _ _ _ _ _ _ Hinv Ht).
Qed.

(** Every step keeps the invariant. *)
Lemma inv_step (w : world) (r : nat) : inv w -> inv (safe_step r w).
Proof.
  intros Hinv. unfold safe_step.
  destruct (procs w !! r) as [p|] eqn:Hp; [|assumption].
  destruct (safe_local_step _ _ _ _) as [[p' evs]|] eqn:Hs;
    [|assumption].
  pose proof Hinv as (Hlen & Hprocs & _).
  rewrite Hlen in Hs.
  apply (step_refines w r p p' evs Hinv Hp) in Hs.
  destruct (Hprocs r p Hp) as (Hpi & _).
  destruct (ideal_step_trans body_errors registry size Hfit r p p' evs Hpi Hs)
    as [Ht Hpi'].
  now apply (inv_emit w r p p' evs).
Qed.

Lemma sent_count_init (r ti : nat) :
  sent_count r (init_proc registry) ti = 0%nat.
Proof.
  unfold Expected.sent_count, pos. simpl.
  destruct (Nat.ltb_spec (ti * 13 + 11) 0); [lia|reflexivity].
Qed.

Lemma recv_count_init (ti src : nat) :
  recv_count (init_proc registry) ti src = 0%nat.
Proof.
  unfold Expected.recv_count, pos. simpl.
  destruct (Nat.ltb_spec (ti * 13 + 12) 0); [lia|reflexivity].
Qed.

Lemma inv_init : inv (init_world size registry).
Proof.
  split; [|split; [|split]].
  - simpl. apply length_replicate.
  - intros r p Hp. simpl in Hp. apply lookup_replicate in Hp as [-> Hr].
    split; [|split; [reflexivity|split; [|split]]].
    + split; [|reflexivity].
      intros j. simpl. unfold Expected.ledger_now. simpl.
      destruct (tests registry !! j) as [t|] eqn:Ej; [|reflexivity]. simpl.
      unfold fresh in Hfresh. rewrite Forall_forall in Hfresh.
      assert (Hf : fails t = []).
      { apply Hfresh. eapply list_elem_of_lookup_2. exact Ej. }
      rewrite andb_false_r. destruct t; simpl in *. now subst.
    + intros ti. unfold Expected.gathered.
      destruct (decide _) as [[Hlt _]|]; [|reflexivity].
      unfold pos in Hlt. simpl in Hlt. lia.
    + intros ti. now rewrite sent_count_init.
    + intros ti tag. unfold Expected.posted_of. now rewrite sent_count_init.
  - intros p0 Hp0. simpl in Hp0. apply lookup_replicate in Hp0 as [-> Hr].
    split; [|reflexivity].
    intros ti src tag. unfold Expected.matched_of. now rewrite recv_count_init.
  - constructor.
Qed.

(** The invariant holds along every schedule. *)
Lemma inv_run (schedule : list nat) :
  inv (safe_run schedule (init_world size registry)).
Proof.
  unfold safe_run.
  induction schedule as [|r schedule IH] using rev_ind; [exact inv_init|].
  rewrite foldl_app. simpl. now apply inv_step.
Qed.

End Safety.

(** ** The driver: what precedes what *)

Lemma matched_mono (l1 l2 : list (nat * event)) (ti src tag : nat) :
  (matched l1 ti src tag <= matched (l1 ++ l2) ti src tag)%nat.
Proof. rewrite matched_app. lia. Qed.

(** Completed sends stay complete while their sender posts nothing new. *)
Lemma sends_complete_mono (l1 l2 : list (nat * event)) (ti r : nat) :
  sends_complete l1 ti r = true ->
  sent_tags l2 ti r = [] ->
  (forall tag, posted l2 ti r tag = []) ->
  sends_complete (l1 ++ l2) ti r = true.
Proof.
  unfold sends_complete. intros Hc Ht Hp.
  rewrite sent_tags_app, Ht, app_nil_r.
  rewrite forallb_forall in *. intros tag Hin.
  specialize (Hc tag Hin). apply Nat.leb_le in Hc. apply Nat.leb_le.
  rewrite posted_app, Hp, app_nil_r.
  pose proof (matched_mono l1 l2 ti r tag). lia.
Qed.

Lemma contributions_mono (l1 l2 : list (nat * event)) (ti r : nat) :
  contributions l1 ti r <> [] -> contributions (l1 ++ l2) ti r <> [].
Proof.
  rewrite contributions_app. destruct (contributions l1 ti r); [congruence|].
  discriminate.
Qed.

Lemma posted_in_log (lg : list (nat * event)) (ti src tag : nat) (buf : string) :
  buf ∈ posted lg ti src tag -> (src, EIssend ti 0 tag buf) ∈ lg.
Proof.
  unfold posted. intros Hin. apply list_elem_of_omap in Hin as ([r e] & Hx & He).
  destruct e; try discriminate.
  case_decide as Hd; [|discriminate].
  destruct Hd as (-> & -> & -> & ->). now injection He as ->.
Qed.

Lemma split_app_cases {A} (l1 l2 a b : list A) (x : A) :
  l1 ++ x :: l2 = a ++ b ->
  (exists l2', a = l1 ++ x :: l2') \/
  (exists l1', l1 = a ++ l1' /\ b = l1' ++ x :: l2).
Proof.
  revert a. induction l1 as [|y l1 IH]; intros [|z a] Heq; simpl in *.
  - right. exists []. now split.
  - left. injection Heq as -> ->. eauto.
  - right. exists (y :: l1). now split.
  - injection Heq as -> Heq. destruct (IH a Heq) as [[l2' ->]|(l1' & -> & ->)].
    + left. eauto.
    + right. eauto.
Qed.

Section Order.

Variable body_errors : test_ptr -> nat -> Z -> list (assert_info * string).
Variable registry : test_list.
Variable size : nat.

Local Abbreviation ledger := (ledger body_errors registry).
Local Abbreviation count := (count body_errors registry).
Local Abbreviation counts := (counts body_errors registry).
Local Abbreviation comm_size := (comm_size registry).
Local Abbreviation ntests := (ntests registry).
Local Abbreviation ideal := (ideal body_errors registry).
Local Abbreviation proc_inv := (proc_inv body_errors registry size).
Local Abbreviation trans := (trans body_errors registry size).
Local Abbreviation gathered := (gathered body_errors registry).
Local Abbreviation sent_count := (sent_count body_errors registry).
Local Abbreviation posted_of := (posted_of body_errors registry).
Local Abbreviation enough := (enough registry size).
Local Abbreviation inv := (inv body_errors registry size).
Local Abbreviation inv_order := (inv_order body_errors registry).
Local Abbreviation timely := (timely body_errors registry).
Local Abbreviation history_ok := (history_ok body_errors registry).
Local Abbreviation safe_step := (safe_step body_errors).
Local Abbreviation safe_run := (safe_run body_errors).
Local Abbreviation safe_local_step := (safe_local_step body_errors).

Hypothesis Hfit : counts_fit body_errors registry.
Hypothesis Hfresh : fresh registry.

(** What let a blocking call return. *)
Lemma recv_enabled (w : world) (r : nat) (p p' : proc) (ri fi : nat)
    (e : event) (buf : string) (evs : list event) :
  p_pc p = PRecv ri fi ->
  safe_local_step (substrate (log w) size) r size p
    = Some (p', ERecv (p_ti p) ri fi buf :: evs) ->
  incoming (log w) (p_ti p) ri fi = Some buf.
Proof.
  intros Ek Hs. apply safe_local_step_Some in Hs as [Hs _].
  unfold local_step in Hs. rewrite Ek in Hs.
  destruct (tests (p_list p) !! p_ti p); [|discriminate]. simpl in Hs.
  destruct (_ <? _); [|discriminate].
  destruct (_ <? _); [|discriminate].
  destruct (incoming _ _ _ _); [|discriminate].
  now injection Hs as _ ->.
Qed.

Lemma waitall_enabled (w : world) (r : nat) (p p' : proc) (ti n : nat)
    (evs : list event) :
  p_pc p = PWaitall ->
  safe_local_step (substrate (log w) size) r size p
    = Some (p', EWaitall ti n :: evs) ->
  sends_complete (log w) (p_ti p) r = true.
Proof.
  intros Ek Hs. apply safe_local_step_Some in Hs as [Hs _].
  unfold local_step in Hs. rewrite Ek in Hs.
  destruct (tests (p_list p) !! p_ti p); [|discriminate]. simpl in Hs.
  now destruct (sends_complete _ _ _).
Qed.

Lemma gather_enabled (w : world) (p : proc) (res : proc * list event) (ri : nat) :
  proc_inv 0 p -> p_pc p = PGather ->
  safe_local_step (substrate (log w) size) 0 size p = Some res ->
  (ri < comm_size (p_ti p))%nat -> ri <> 0%nat ->
  contributions (log w) (p_ti p) ri <> [].
Proof.
  intros [Hreg Hpc] Ek Hs Hri Hne. rewrite Ek in Hpc.
  destruct Hpc as (Hti & Hr & Hcur & He).
  destruct (in_iteration_test body_errors registry 0 p Hreg Hti)
    as (t & Ht & Hl & Hcs).
  destruct res as [p' evs]. apply safe_local_step_Some in Hs as [Hs _].
  unfold local_step in Hs. rewrite Ek, Hl in Hs. simpl in Hs.
  destruct (gather_all _ _ _ _) as [cs|] eqn:Eg; [|discriminate].
  unfold gather_all in Eg. apply mapM_Some in Eg.
  assert (Hin : ri ∈ seq 0 (Z.to_nat (test_size t)))
    by (apply elem_of_seq; lia).
  destruct (Forall2_lookup_l _ _ _ ri ri Eg) as (c & _ & Hc).
  { apply lookup_seq_lt. lia. }
  destruct (Nat.eqb_spec ri 0); [contradiction|].
  unfold contribution in Hc. intros Hnil. now rewrite Hnil in Hc.
Qed.

(** Where a process steps past its gather and past its [MPI_Waitall]. *)
Lemma cross_gather (r : nat) (p p' : proc) (evs : list event) (ti : nat) :
  proc_inv r p -> trans r p p' evs ->
  (pos p <= ti * 13 + 9)%nat -> (ti * 13 + 9 < pos p')%nat ->
  (p_pc p = PGather /\ p_ti p = ti) \/ (comm_size ti <= r)%nat.
Proof.
  intros Hinv H. unfold pos.
  trans_inv Hinv H; intros; try lia;
    try (left; split; [reflexivity|lia]);
    try (right; replace ti with (p_ti p) by lia; lia).
Qed.

Lemma cross_waitall (r : nat) (p p' : proc) (evs : list event) (ti : nat) :
  proc_inv r p -> trans r p p' evs ->
  (pos p <= ti * 13 + 13)%nat -> (ti * 13 + 13 < pos p')%nat ->
  (p_pc p = PWaitall /\ p_ti p = ti /\ evs = [EWaitall ti (count ti r)]) \/
  (comm_size ti <= r)%nat.
Proof.
  intros Hinv H. unfold pos.
  trans_inv Hinv H; intros; try lia;
    try (left; split; [reflexivity|split; [lia|]];
         replace ti with (p_ti p) by lia; reflexivity);
    try (right; replace ti with (p_ti p) by lia; lia).
Qed.

(** The events with something to precede them open the step they belong
    to. *)
Lemma trans_ordered (r : nat) (p p' : proc) (evs pre post : list event)
    (e : event) :
  trans r p p' evs -> evs = pre ++ e :: post ->
  (pre = [] /\
   ((exists fi buf, p_pc p = PSend fi /\ e = EIssend (p_ti p) 0 fi buf) \/
    (exists ri fi buf, p_pc p = PRecv ri fi /\ r = 0%nat /\
       e = ERecv (p_ti p) ri fi buf /\ post = [EPrintf (buf +:+ nl)]) \/
    (exists n, p_pc p = PWaitall /\ e = EWaitall (p_ti p) n /\ post = []) \/
    (p_pc p = PDelete /\ e = EDelete (p_ti p)) \/
    (p_pc p = PCommFree /\ e = ECommFree (p_ti p)))) \/
  (forall lg, timely lg (r, e)).
Proof.
  intros H Heq.
  trans_cases H; unfold root_prints in *; simpl in *; rewrite ?Er0 in *;
    repeat match goal with
    | H : context [if ?c then _ else _] |- _ => destruct c
    end;
    destruct pre as [|e1 [|e2 [|e3 pre]]]; simplify_eq/=;
    try match goal with
        | H : [] = ?l ++ _ :: _ |- _ => destruct l; discriminate
        end;
    try (right; intros lg; exact I);
    left; (split; [reflexivity|]); eauto 12.
Qed.

Lemma sent_count_past (r : nat) (p : proc) (ti : nat) :
  (ti * 13 + 11 < pos p)%nat -> sent_count r p ti = count ti r.
Proof.
  intros H. unfold Expected.sent_count.
  now destruct (Nat.ltb_spec (ti * 13 + 11) (pos p)); [|lia].
Qed.

Lemma sends_complete_nil (lg : list (nat * event)) (ti r : nat) :
  sent_tags lg ti r = [] -> sends_complete lg ti r = true.
Proof. unfold sends_complete. now intros ->. Qed.

(** A step sends nothing for a test whose [MPI_Waitall] is behind. *)
Lemma no_late_sends (r : nat) (p p' : proc) (evs : list event) (ti : nat) :
  proc_inv r p -> trans r p p' evs -> (ti * 13 + 13 < pos p)%nat ->
  sent_tags (map (pair r) evs) ti r = [] /\
  forall tag, posted (map (pair r) evs) ti r tag = [].
Proof.
  intros Hinv Ht Hpos.
  destruct (trans_sent_cases _ _ _ r p p' evs Hinv Ht)
    as [(fi & f & Ek & Ef & -> & ->)|[Hno Hsame]].
  - unfold pos in Hpos. rewrite Ek in Hpos. simpl in Hpos.
    unfold sent_tags, posted. simpl.
    split; [|intros tag]; rewrite decide_False; try reflexivity;
      intros H; decompose [and] H; lia.
  - split; [|intros tag]; now apply no_send_projections.
Qed.

(** Every step keeps the order of the history. *)
Lemma order_step (w : world) (r : nat) :
  inv w -> inv_order w -> inv_order (safe_step r w).
Proof.
  intros Hinv Hord. pose proof Hord as (K1 & K2 & Hh). unfold safe_step.
  destruct (procs w !! r) as [p|] eqn:Hp; [|assumption].
  destruct (safe_local_step _ _ _ _) as [[p' evs]|] eqn:Hs;
    [|assumption].
  pose proof Hinv as (Hlen & Hprocs & _).
  rewrite Hlen in Hs.
  pose proof (step_refines _ _ _ Hfit w r p p' evs Hinv Hp Hs) as Hs'.
  destruct (Hprocs r p Hp) as (Hpi & Hent & Hgat & Htags & Hpost).
  destruct (ideal_step_trans body_errors registry size Hfit r p p' evs Hpi Hs')
    as [Ht Hpi'].
  pose proof (inv_emit _ _ _ w r p p' evs Hinv Hp Ht Hpi')
    as (_ & Hprocs' & _).
  assert (Hr : (r < length (procs w))%nat) by (now apply lookup_lt_Some in Hp).
  assert (Hp' : procs (emit r evs p' w) !! r = Some p').
  { rewrite procs_emit. now apply list_lookup_insert_eq. }
  destruct (Hprocs' r p' Hp') as (_ & _ & Hgat' & Htags' & _).
  split; [|split].
  - intros p0 ti ri Hp0 Hpos Hri. rewrite procs_emit in Hp0.
    destruct (decide (r = 0%nat)) as [->|Hne].
    + rewrite list_lookup_insert_eq in Hp0 by assumption. injection Hp0 as <-.
      destruct (le_lt_dec (pos p) (ti * 13 + 9)) as [Hle|Hlt].
      * destruct (cross_gather 0 p p' evs ti Hpi Ht Hle Hpos)
          as [[Ek <-]|Hout]; [|lia].
        destruct (decide (ri = 0%nat)) as [->|Hri0].
        -- rewrite Hgat'. unfold Expected.gathered.
           rewrite decide_True by (split; assumption). discriminate.
        -- rewrite log_emit. apply contributions_mono.
           now apply (gather_enabled w p (p', evs) ri).
      * rewrite log_emit. apply contributions_mono. now apply (K1 p).
    + rewrite list_lookup_insert_ne in Hp0 by congruence.
      rewrite log_emit. apply contributions_mono. now apply (K1 p0).
  - intros r' q ti Hq Hpos. rewrite procs_emit in Hq.
    destruct (decide (r' = r)) as [->|Hne].
    + rewrite list_lookup_insert_eq in Hq by assumption. injection Hq as <-.
      destruct (le_lt_dec (pos p) (ti * 13 + 13)) as [Hle|Hlt].
      * destruct (cross_waitall r p p' evs ti Hpi Ht Hle Hpos)
          as [(Ek & <- & ->)|Hout].
        -- rewrite log_emit. split.
           ++ apply sends_complete_mono; [|reflexivity|reflexivity].
              exact (waitall_enabled w r p p' _ _ _ Ek Hs).
           ++ intros _. apply elem_of_app. right. simpl. apply list_elem_of_here.
        -- split; [|lia]. apply sends_complete_nil. rewrite Htags'.
           rewrite sent_count_past by lia.
           now rewrite (count_out _ _ ti r Hout).
      * rewrite log_emit. destruct (K2 r p ti Hp Hlt) as [Hc Hw].
        destruct (no_late_sends r p p' evs ti Hpi Ht Hlt) as [N1 N2]. split.
        -- now apply sends_complete_mono.
        -- intros Hrc. apply elem_of_app. left. now apply Hw.
    + rewrite list_lookup_insert_ne in Hq by congruence.
      assert (Hrr : r <> r') by congruence.
      destruct (other_rank r r' evs Hrr) as (_ & _ & O3 & O4).
      rewrite log_emit. destruct (K2 r' q ti Hq Hpos) as [Hc Hw]. split.
      * apply sends_complete_mono; [assumption|apply O3|intros; apply O4].
      * intros Hrc. apply elem_of_app. left. now apply Hw.
  - intros l1 x l2 Heq. rewrite log_emit in Heq. symmetry in Heq.
    destruct (split_app_cases _ _ _ _ _ Heq) as [[l2' Hl]|(l1' & -> & Hl)].
    + exact (Hh l1 x l2' Hl).
    + apply fmap_app_inv in Hl as (pre & rest & -> & Hrest & Hevs).
      symmetry in Hrest. apply fmap_cons_inv in Hrest as (e & post & -> & -> & ->).
      destruct (trans_ordered r p p' _ pre post e Ht Hevs)
        as [[-> Hcases]|Htriv]; [|apply Htriv].
      simpl. rewrite app_nil_r.
      assert (Hpc := proj2 Hpi).
      assert (Hall : (p_ti p * 13 + 11 < pos p)%nat ->
                     sent_tags (log w) (p_ti p) r = seq 0 (count (p_ti p) r)).
      { intros Hpos. now rewrite Htags, sent_count_past. }
      destruct Hcases as [(fi & buf & Ek & ->)
        |[(ri & fi & buf & Ek & -> & -> & ->)
        |[(n & Ek & -> & ->)|[[Ek ->]|[Ek ->]]]]];
        rewrite Ek in Hpc; unfold pos in Hall; rewrite Ek in Hall;
        simpl in Hall |- *.
      * rewrite Hgat. unfold Expected.gathered, pos. rewrite Ek. simpl.
        destruct Hpc as ((_ & Hrc & _) & _).
        rewrite decide_True by (split; [lia|assumption]). discriminate.
      * split.
        -- intros ri' Hri'. apply (K1 p); [assumption| |assumption].
           unfold pos. rewrite Ek. simpl. lia.
        -- apply posted_in_log.
           apply (list_elem_of_lookup_2 _ (matched (log w) (p_ti p) ri fi)).
           simpl in Hevs. subst evs.
           exact (recv_enabled w 0 p p' ri fi (EPrintf (buf +:+ nl)) buf _ Ek Hs).
      * split; [apply Hall; lia|].
        simpl in Hevs. subst evs.
        exact (waitall_enabled w r p p' _ _ _ Ek Hs).
      * destruct (K2 r p (p_ti p) Hp) as [Hc Hw].
        { unfold pos. rewrite Ek. simpl. lia. }
        destruct Hpc as ((_ & Hrc & _) & _).
        split; [split; [apply Hall; lia|assumption]|now apply Hw].
      * destruct (K2 r p (p_ti p) Hp) as [Hc Hw].
        { unfold pos. rewrite Ek. simpl. lia. }
        split; [split; [apply Hall; lia|assumption]|assumption].
Qed.

Lemma order_init : inv_order (init_world size registry).
Proof.
  split; [|split].
  - intros p0 ti ri Hp0 Hpos _. simpl in Hp0.
    apply lookup_replicate in Hp0 as [-> _]. unfold pos in Hpos. simpl in Hpos. lia.
  - intros r p ti Hp Hpos. simpl in Hp.
    apply lookup_replicate in Hp as [-> _]. unfold pos in Hpos. simpl in Hpos. lia.
  - intros l1 x l2 Heq. simpl in Heq. destruct l1; discriminate.
Qed.

Lemma safe_run_snoc (schedule : list nat) (r : nat) (w : world) :
  safe_run (schedule ++ [r]) w = safe_step r (safe_run schedule w).
Proof. unfold safe_run. now rewrite foldl_app. Qed.

Lemma order_run (schedule : list nat) :
  inv_order (safe_run schedule (init_world size registry)).
Proof.
  induction schedule as [|r schedule IH] using rev_ind.
  - apply order_init.
  - rewrite safe_run_snoc. apply order_step; [|assumption].
    apply (inv_run _ _ _ Hfit Hfresh).
Qed.

End Order.

(** ** The driver: every launch can run to the end *)

Lemma mapM_None_inv {A B} (f : A -> option B) (l : list A) :
  mapM f l = None -> exists x, x ∈ l /\ f x = None.
Proof.
  induction l as [|a l IH]; [discriminate|].
  intros H. destruct (f a) as [b|] eqn:Ea.
  - destruct (mapM f l) as [k|] eqn:El.
    + exfalso. revert H. cbn. now rewrite Ea, El.
    + destruct (IH eq_refl) as (x & Hx & Hf). exists x. split; [now right|easy].
  - exists a. split; [now left|easy].
Qed.

Lemma forallb_false_inv {A} (f : A -> bool) (l : list A) :
  forallb f l = false -> exists i x, l !! i = Some x /\ f x = false.
Proof.
  induction l as [|a l IH]; [discriminate|]. simpl.
  destruct (f a) eqn:Ea; simpl.
  - intros H. destruct (IH H) as (i & x & Hi & Hx). now exists (S i), x.
  - intros _. now exists 0%nat, a.
Qed.

Section Liveness.

Variable body_errors : test_ptr -> nat -> Z -> list (assert_info * string).
Variable registry : test_list.
Variable size : nat.

Local Abbreviation ledger := (ledger body_errors registry).
Local Abbreviation count := (count body_errors registry).
Local Abbreviation counts := (counts body_errors registry).
Local Abbreviation total := (total body_errors registry).
Local Abbreviation comm_size := (comm_size registry).
Local Abbreviation ntests := (ntests registry).
Local Abbreviation ideal := (ideal body_errors registry).
Local Abbreviation proc_inv := (proc_inv body_errors registry size).
Local Abbreviation trans := (trans body_errors registry size).
Local Abbreviation gathered := (gathered body_errors registry).
Local Abbreviation sent_count := (sent_count body_errors registry).
Local Abbreviation recv_count := (recv_count body_errors registry).
Local Abbreviation posted_of := (posted_of body_errors registry).
Local Abbreviation matched_of := (matched_of body_errors registry).
Local Abbreviation enough := (enough registry size).
Local Abbreviation inv := (inv body_errors registry size).
Local Abbreviation safe_step := (safe_step body_errors).
Local Abbreviation safe_run := (safe_run body_errors).
Local Abbreviation safe_local_step := (safe_local_step body_errors).

Hypothesis Hfit : counts_fit body_errors registry.
Hypothesis Hfresh : fresh registry.
Hypothesis Hrec : records_fit body_errors registry.

(** With no more than 2^21 records on a rank no step of [main] is
    undefined. *)
Lemma defined_step (net : mpi) (r : nat) (p p' : proc) (evs : list event) :
  proc_inv r p ->
  local_step body_errors net r size p = Some (p', evs) ->
  p_pc p' <> PUndefined.
Proof.
  intros Hpi Hs Hu.
  destruct (undefined_step body_errors registry size net r p p' evs Hpi Hs Hu)
    as (fi & f & _ & Ef & Em & _).
  apply int_mul_None in Em. apply Em.
  apply lookup_lt_Some in Ef. fold (count (p_ti p) r) in Ef.
  pose proof (Hrec (p_ti p) r) as Hb. fold (count (p_ti p) r) in Hb.
  change (Z.of_nat FAIL_MESSAGE_SIZE) with 1024 in *. lia.
Qed.

(** A process that cannot step sits in one of the four blocking calls. *)
Lemma blocked_cases (lg : list (nat * event)) (r : nat) (p : proc) :
  proc_inv r p -> returned p = false ->
  safe_local_step (substrate lg size) r size p = None ->
  ((p_pc p = PWait0 \/ p_pc p = PWait1 \/ p_pc p = PWaitT) /\
   barrier_open lg size r = false) \/
  (p_pc p = PGather /\ r = 0%nat /\
   exists ri, (ri < comm_size (p_ti p))%nat /\ ri <> 0%nat /\
              contributions lg (p_ti p) ri = []) \/
  (exists ri fi f, p_pc p = PRecv ri fi /\ r = 0%nat /\
     (ri < comm_size (p_ti p))%nat /\ ledger (p_ti p) ri !! fi = Some f /\
     incoming lg (p_ti p) ri fi = None) \/
  (p_pc p = PWaitall /\ sends_complete lg (p_ti p) r = false).
Proof.
  intros [Hreg Hpc] Hret Hs.
  apply safe_local_step_None in Hs as [Hs|(p' & evs & Hs & Hu)];
    [|now destruct (defined_step _ r p p' evs (conj Hreg Hpc) Hs)].
  unfold returned in Hret. unfold local_step in Hs.
  destruct (p_pc p) eqn:Ek; try discriminate; simpl in Hs.
  - left. destruct (barrier_open _ _ _); [discriminate|]. tauto.
  - now destruct (_ <? _).
  - left. destruct (barrier_open _ _ _); [discriminate|]. tauto.
  - destruct (tests (p_list p) !! p_ti p); [|discriminate].
    now destruct (_ <? _).
  - now destruct (tests (p_list p) !! p_ti p).
  - destruct (tests (p_list p) !! p_ti p); [|discriminate].
    now destruct (run_entry _ _ _ _ _) as [[? ?]|].
  - (* PGather *)
    destruct Hpc as (Hti & Hr & Hcur & He).
    destruct (in_iteration_test body_errors registry r p Hreg Hti)
      as (t & Ht & Hl & Hcs).
    rewrite Hl in Hs. simpl in Hs.
    destruct (Nat.eqb_spec r 0) as [->|Hr0]; [|discriminate].
    destruct (gather_all _ _ _ _) as [cs|] eqn:Eg; [discriminate|].
    right. left. split; [reflexivity|]. split; [reflexivity|].
    unfold gather_all in Eg. apply mapM_None_inv in Eg as (ri & Hin & Hc).
    apply elem_of_seq in Hin.
    destruct (Nat.eqb_spec ri 0) as [->|Hne]; [discriminate|].
    exists ri. split; [lia|]. split; [assumption|].
    unfold contribution in Hc. now destruct (contributions lg (p_ti p) ri).
  - destruct (tests (p_list p) !! p_ti p); [|discriminate].
    now destruct (_ =? _)%nat.
  - destruct (tests (p_list p) !! p_ti p); [|discriminate].
    destruct (_ !! _); [now destruct (int_mul _ _)|discriminate].
  - (* PRecv *)
    destruct Hpc as ((Hti & Hr & Hcur & He) & Hbr & Htot & -> & Hri & Hfi).
    destruct (in_iteration_test body_errors registry 0 p Hreg Hti)
      as (t & Ht & Hl & Hcs).
    rewrite Hl in Hs. simpl in Hs.
    rewrite (Hbr eq_refl), (nth_counts body_errors registry) in Hs.
    destruct (Z.ltb_spec (Z.of_nat ri) (test_size t)) as [Hlt|]; [|discriminate].
    destruct (Z.ltb_spec (Z.of_nat fi) (Z.of_nat (count (p_ti p) ri)))
      as [Hf|]; [|discriminate].
    destruct (incoming _ _ _ _) eqn:Ein; [discriminate|].
    right. right. left.
    destruct (lookup_lt_is_Some_2 (ledger (p_ti p) ri) fi) as [f Ef].
    { unfold Expected.count in Hf. lia. }
    exists ri, fi, f. repeat split; try assumption; lia.
  - (* PWaitall *)
    destruct (tests (p_list p) !! p_ti p); [|discriminate].
    destruct (sends_complete _ _ _) eqn:Ec; [discriminate|].
    right. right. right. now split.
  - now destruct (tests (p_list p) !! p_ti p).
  - left. destruct (barrier_open _ _ _); [discriminate|]. tauto.
  - contradiction.
Qed.

(** Who has entered fewer barriers than a process waiting in one is
    behind it, and has not returned. *)
Lemma entered_behind (r r' : nat) (p q : proc) :
  proc_inv r p -> proc_inv r' q ->
  p_pc p = PWait0 \/ p_pc p = PWait1 \/ p_pc p = PWaitT ->
  (entered_of q < entered_of p)%nat ->
  (pos q < pos p)%nat /\ returned q = false.
Proof.
  intros [_ Hp] [_ Hq] Hk. unfold entered_of, pos, returned.
  destruct Hk as [Ek|[Ek|Ek]]; rewrite Ek in *; simpl in *;
    destruct (p_pc q); simpl in *; unfold Expected.in_iteration in *;
    intros; split; try reflexivity; try lia; try tauto;
    repeat match goal with H : _ /\ _ |- _ => destruct H end;
    try lia; try contradiction.
Qed.

Lemma early_not_returned (r' : nat) (q : proc) (ti : nat) :
  proc_inv r' q -> enough -> (ti < ntests)%nat ->
  (pos q <= ti * 13 + 12)%nat -> returned q = false.
Proof.
  intros [_ Hq] He Hti. unfold pos, returned.
  destruct (p_pc q); simpl in *; try reflexivity; intros; [tauto|lia].
Qed.

(** Behind a blocked process there is one that has not returned. *)
Lemma behind (w : world) (r : nat) (p : proc) :
  inv w -> procs w !! r = Some p -> returned p = false ->
  safe_local_step (substrate (log w) size) r size p = None ->
  exists r' q, procs w !! r' = Some q /\ returned q = false /\
               (key r' q < key r p)%nat.
Proof.
  intros Hinv Hp Hret Hs.
  pose proof Hinv as (Hlen & Hprocs & Hroot & _).
  destruct (Hprocs r p Hp) as (Hpi & Hent & Hgat & Htags & Hpost).
  assert (Hr : (r < size)%nat) by (rewrite <- Hlen; now apply lookup_lt_Some in Hp).
  destruct (blocked_cases (log w) r p Hpi Hret Hs)
    as [[Hk Hb]|[(Ek & -> & ri & Hri & Hne & Hc)
       |[(ri & fi & f & Ek & -> & Hri & Ef & Hin)|[Ek Hc]]]].
  - (* a barrier *)
    unfold barrier_open in Hb.
    apply forallb_false_inv in Hb as (i & r' & Hi & Hle).
    apply lookup_seq in Hi as [-> Hi]. simpl in Hle.
    apply Nat.leb_gt in Hle.
    destruct (lookup_lt_is_Some_2 (procs w) i) as [q Hq]; [lia|].
    destruct (Hprocs i q Hq) as (Hqi & Hentq & _).
    rewrite Hent, Hentq in Hle.
    destruct (entered_behind r i p q Hpi Hqi Hk Hle) as [Hpos Hrq].
    exists i, q. split; [assumption|]. split; [assumption|].
    unfold key. destruct (i =? 0)%nat, (r =? 0)%nat; lia.
  - (* the gather on rank 0 *)
    pose proof Hpi as [_ Hpc]. rewrite Ek in Hpc.
    destruct Hpc as (Hti & Hr0 & Hcur & He).
    destruct (participant_exists _ _ _ w (p_ti p) ri Hinv He Hri) as [q Hq].
    destruct (Hprocs ri q Hq) as (Hqi & _ & Hgatq & _).
    rewrite Hgatq in Hc. unfold Expected.gathered in Hc.
    destruct (decide _) as [|Hn]; [discriminate|].
    assert (Hpos : (pos q <= p_ti p * 13 + 9)%nat) by lia.
    exists ri, q. split; [assumption|].
    split; [apply (early_not_returned ri q (p_ti p)); try assumption; lia|].
    unfold key, pos at 2. rewrite Ek. simpl.
    destruct (Nat.eqb_spec ri 0); [contradiction|]. lia.
  - (* a receive on rank 0 *)
    pose proof Hpi as [_ Hpc]. rewrite Ek in Hpc.
    destruct Hpc as ((Hti & Hr0 & Hcur & He) & _ & _ & _ & _ & Hfi).
    destruct (participant_exists _ _ _ w (p_ti p) ri Hinv He Hri) as [q Hq].
    destruct (Hprocs ri q Hq) as (Hqi & _ & _ & _ & Hpostq).
    destruct (Hroot p Hp) as [Hm _].
    unfold incoming in Hin. rewrite Hpostq, Hm in Hin.
    unfold Expected.matched_of, Expected.recv_count, Expected.posted_of, pos at 1 in Hin.
    rewrite Ek, Ef in Hin. simpl in Hin.
    rewrite !Nat.eqb_refl, !Nat.ltb_irrefl in Hin.
    destruct (Nat.ltb_spec fi (sent_count ri q (p_ti p))) as [|Hge];
      [discriminate|].
    assert (Hpos : (pos q <= p_ti p * 13 + 11)%nat).
    { destruct (le_lt_dec (pos q) (p_ti p * 13 + 11)) as [|Hlt]; [assumption|].
      rewrite (sent_count_past body_errors registry) in Hge by assumption.
      apply lookup_lt_Some in Ef. unfold Expected.count in Hge. lia. }
    exists ri, q. split; [assumption|].
    split; [apply (early_not_returned ri q (p_ti p)); try assumption; lia|].
    unfold key, pos at 2. rewrite Ek. simpl.
    destruct (ri =? 0)%nat; lia.
  - (* the wait for the sends *)
    pose proof Hpi as [_ Hpc]. rewrite Ek in Hpc.
    destruct Hpc as ((Hti & Hrc & Hcur & He) & _).
    destruct (lookup_lt_is_Some_2 (procs w) 0) as [p0 Hp0]; [lia|].
    destruct (Hprocs 0%nat p0 Hp0) as (Hpi0 & _).
    destruct (Hroot p0 Hp0) as [Hm _].
    unfold sends_complete in Hc.
    apply forallb_false_inv in Hc as (i & tag & Hi & Hle).
    apply Nat.leb_gt in Hle.
    rewrite Htags, (sent_count_past body_errors registry) in Hi
      by (unfold pos; rewrite Ek; simpl; lia).
    apply lookup_seq in Hi as [-> Hi]. simpl in Hle.
    rewrite Hpost, Hm in Hle. unfold Expected.posted_of, Expected.matched_of in Hle.
    assert (Hpos : (pos p0 <= p_ti p * 13 + 12)%nat).
    { destruct (le_lt_dec (pos p0) (p_ti p * 13 + 12)) as [|Hlt]; [assumption|].
      unfold Expected.recv_count in Hle.
      destruct (Nat.ltb_spec (p_ti p * 13 + 12) (pos p0)); [|lia].
      destruct (Nat.ltb_spec i (count (p_ti p) r)); [|lia].
      destruct (_ <? _)%nat; [|simpl in Hle; lia].
      destruct (ledger (p_ti p) r !! i); simpl in Hle; lia. }
    exists 0%nat, p0. split; [assumption|].
    split; [apply (early_not_returned 0 p0 (p_ti p)); assumption|].
    unfold key, pos at 2. rewrite Ek. simpl.
    destruct (r =? 0)%nat; lia.
Qed.

(** While a process has not returned, some process can step. *)
Lemma progress (w : world) (r : nat) (p : proc) :
  inv w -> procs w !! r = Some p -> returned p = false ->
  exists r' q res, procs w !! r' = Some q /\
    safe_local_step (substrate (log w) size) r' size q = Some res.
Proof.
  intros Hinv. remember (key r p) as k eqn:Hk. revert r p Hk.
  induction k as [k IH] using lt_wf_ind. intros r p -> Hp Hret.
  destruct (safe_local_step (substrate (log w) size) r size p) as [res|] eqn:Hs.
  - now exists r, p, res.
  - destruct (behind w r p Hinv Hp Hret Hs) as (r' & q & Hq & Hrq & Hlt).
    exact (IH _ Hlt r' q eq_refl Hq Hrq).
Qed.

(** *** Every step is a step forward *)

Lemma total_le_most (ti : nat) : (total ti <= most body_errors registry)%nat.
Proof.
  destruct (Nat.lt_ge_cases ti ntests) as [Hlt|Hge].
  - unfold Expected.most. apply sum_list_with_in, elem_of_seq. lia.
  - assert (Hc : comm_size ti = 0%nat).
    { unfold Expected.comm_size. unfold Expected.ntests in Hge.
      now rewrite (lookup_ge_None_2 _ _ Hge). }
    unfold Expected.total. rewrite Hc. simpl. lia.
Qed.

Lemma count_le_most (ti r : nat) : (count ti r <= most body_errors registry)%nat.
Proof.
  pose proof (count_le_total body_errors registry ti r).
  pose proof (total_le_most ti). lia.
Qed.

Lemma comm_size_le (ti : nat) : enough -> (comm_size ti <= size)%nat.
Proof.
  intros He. unfold Expected.comm_size.
  destruct (tests registry !! ti) as [t|] eqn:Et; [|lia].
  pose proof (enough_sizes registry size t ti He Et) as Hc.
  unfold Expected.comm_size in Hc. now rewrite Et in Hc.
Qed.

Lemma inner_lt (r : nat) (p : proc) :
  proc_inv r p ->
  (inner body_errors registry p < (size + 1) * (most body_errors registry + 1))%nat.
Proof.
  intros [_ Hpc]. unfold Expected.inner. set (m := most body_errors registry).
  destruct (p_pc p) eqn:Ek; try nia.
  - destruct Hpc as (_ & _ & _ & Hfi).
    pose proof (count_le_most (p_ti p) r). fold m in H. nia.
  - destruct Hpc as ((_ & _ & _ & He) & _ & _ & _ & Hri & Hfi).
    pose proof (count_le_most (p_ti p) ri). fold m in H.
    pose proof (comm_size_le (p_ti p) He). nia.
Qed.

Lemma trans_forward (r : nat) (p p' : proc) (evs : list event) :
  proc_inv r p -> trans r p p' evs ->
  (pos p < pos p')%nat \/
  (pos p = pos p' /\
   (inner body_errors registry p < inner body_errors registry p')%nat).
Proof.
  intros Hinv H. unfold pos, Expected.inner.
  trans_inv Hinv H; try (left; lia); right; (split; [reflexivity|]);
    try lia.
  all: match goal with
       | |- context [count ?t ?ri] => pose proof (count_le_most t ri)
       end; lia.
Qed.

Lemma trans_weight (r : nat) (p p' : proc) (evs : list event) :
  proc_inv r p -> trans r p p' evs ->
  (weight body_errors registry size p < weight body_errors registry size p')%nat.
Proof.
  intros Hinv H. unfold Expected.weight.
  pose proof (inner_lt r p Hinv) as Hin.
  set (k := ((size + 1) * (most body_errors registry + 1))%nat) in *.
  destruct (trans_forward r p p' evs Hinv H) as [Hlt|[-> Hlt]]; [|lia].
  assert ((pos p + 1) * k <= pos p' * k)%nat
    by (apply Nat.mul_le_mono_r; lia).
  lia.
Qed.

Lemma weight_le (r : nat) (p : proc) :
  proc_inv r p ->
  (weight body_errors registry size p
   <= (ntests * 13 + 19) * ((size + 1) * (most body_errors registry + 1)))%nat.
Proof.
  intros Hinv. unfold Expected.weight.
  pose proof (inner_lt r p Hinv) as Hin.
  set (k := ((size + 1) * (most body_errors registry + 1))%nat) in *.
  assert (Hpos : (pos p + 1 <= ntests * 13 + 19)%nat).
  { destruct Hinv as [_ Hpc]. unfold pos.
    destruct (p_pc p); simpl in *; unfold Expected.in_iteration in *;
      repeat match goal with H : _ /\ _ |- _ => destruct H end; lia. }
  assert ((pos p + 1) * k <= (ntests * 13 + 19) * k)%nat
    by (apply Nat.mul_le_mono_r; lia).
  lia.
Qed.

Lemma sum_list_with_insert {A} (f : A -> nat) (l : list A) (i : nat) (x y : A) :
  l !! i = Some x ->
  (sum_list_with f (<[i := y]> l) + f x = sum_list_with f l + f y)%nat.
Proof.
  revert i. induction l as [|a l IH]; intros [|i] Hi; try discriminate.
  - injection Hi as ->. simpl. lia.
  - simpl in *. specialize (IH i Hi). lia.
Qed.

Lemma sum_list_with_le {A} (f : A -> nat) (l : list A) (b : nat) :
  (forall i x, l !! i = Some x -> (f x <= b)%nat) ->
  (sum_list_with f l <= length l * b)%nat.
Proof.
  induction l as [|a l IH]; intros H; [simpl; lia|].
  simpl. pose proof (H 0%nat a eq_refl).
  assert (sum_list_with f l <= length l * b)%nat
    by (apply IH; intros i x Hi; exact (H (S i) x Hi)).
  lia.
Qed.

Lemma measure_le (w : world) :
  inv w -> (measure body_errors registry size w <= ceiling body_errors registry size)%nat.
Proof.
  intros (Hlen & Hprocs & _). unfold Expected.measure, Expected.ceiling. rewrite <- Hlen at 2.
  apply sum_list_with_le. intros i p Hp.
  destruct (Hprocs i p Hp) as (Hpi & _). now apply (weight_le i).
Qed.

Lemma measure_step (w : world) (r : nat) (p : proc) (res : proc * list event) :
  inv w -> procs w !! r = Some p ->
  safe_local_step (substrate (log w) size) r size p = Some res ->
  (measure body_errors registry size w
   < measure body_errors registry size (safe_step r w))%nat.
Proof.
  intros Hinv Hp Hs. destruct res as [p' evs].
  pose proof Hinv as (Hlen & Hprocs & _).
  unfold safe_step. rewrite Hp, Hlen, Hs.
  pose proof (step_refines _ _ _ Hfit w r p p' evs Hinv Hp Hs) as Hs'.
  destruct (Hprocs r p Hp) as (Hpi & _).
  destruct (ideal_step_trans body_errors registry size Hfit r p p' evs Hpi Hs')
    as [Ht _].
  pose proof (trans_weight r p p' evs Hpi Ht).
  unfold Expected.measure. rewrite procs_emit.
  pose proof (sum_list_with_insert (weight body_errors registry size)
                (procs w) r p p' Hp).
  lia.
Qed.

(** From every world a launch reaches, some schedule runs every process
    to its [return]. *)
Lemma completes (w : world) :
  inv w -> exists schedule, all_returned (safe_run schedule w) = true.
Proof.
  remember (ceiling body_errors registry size
            - measure body_errors registry size w)%nat as n eqn:Hn.
  revert w Hn. induction n as [n IH] using lt_wf_ind. intros w -> Hinv.
  destruct (all_returned w) eqn:Hall; [now exists []|].
  unfold all_returned in Hall.
  apply forallb_false_inv in Hall as (r & p & Hp & Hret).
  destruct (progress w r p Hinv Hp Hret) as (r' & q & res & Hq & Hs).
  pose proof (measure_step w r' q res Hinv Hq Hs) as Hlt.
  pose proof (inv_step _ _ _ Hfit w r' Hinv) as Hinv'.
  pose proof (measure_le _ Hinv') as Hle.
  assert (Hdec : (ceiling body_errors registry size
                  - measure body_errors registry size (safe_step r' w)
                  < ceiling body_errors registry size
                  - measure body_errors registry size w)%nat) by lia.
  destruct (IH _ Hdec (safe_step r' w) eq_refl Hinv') as [schedule Hdone].
  now exists (r' :: schedule).
Qed.

End Liveness.

(** ** The driver: how a launch ends *)

Lemma send_in_log (lg : list (nat * event)) (r ti tag : nat) (buf : string) :
  (r, EIssend ti 0 tag buf) ∈ lg ->
  tag ∈ sent_tags lg ti r /\ buf ∈ posted lg ti r tag.
Proof.
  intros Hin. unfold sent_tags, posted. split.
  - apply list_elem_of_omap. exists (r, EIssend ti 0 tag buf).
    split; [assumption|]. now rewrite decide_True.
  - apply list_elem_of_omap. exists (r, EIssend ti 0 tag buf).
    split; [assumption|]. now rewrite decide_True.
Qed.

Lemma matched_in_log (lg : list (nat * event)) (ti src tag : nat) :
  (0 < matched lg ti src tag)%nat ->
  exists buf, (0%nat, ERecv ti src tag buf) ∈ lg.
Proof.
  unfold matched. intros Hlen.
  destruct (omap _ lg) as [|[] l] eqn:El; [simpl in Hlen; lia|].
  assert (Hin : tt ∈ omap (fun x : nat * event =>
            match x with
            | (r, ERecv ti' src' tag' _) =>
                if decide (r = 0%nat /\ ti' = ti /\ src' = src /\ tag' = tag)
                then Some tt else None
            | _ => None
            end) lg) by (rewrite El; left).
  apply list_elem_of_omap in Hin as ([r e] & Hx & He).
  destruct e; try discriminate.
  case_decide as Hd; [|discriminate].
  destruct Hd as (-> & -> & -> & ->). eauto.
Qed.

Lemma safe_run_app (body_errors : test_ptr -> nat -> Z -> list (assert_info * string))
    (s1 s2 : list nat) (w : world) :
  safe_run body_errors (s1 ++ s2) w = safe_run body_errors s2 (safe_run body_errors s1 w).
Proof. unfold safe_run. now rewrite foldl_app. Qed.

Section Ending.

Variable body_errors : test_ptr -> nat -> Z -> list (assert_info * string).
Variable registry : test_list.
Variable size : nat.

Local Abbreviation ledger := (ledger body_errors registry).
Local Abbreviation count := (count body_errors registry).
Local Abbreviation total := (total body_errors registry).
Local Abbreviation comm_size := (comm_size registry).
Local Abbreviation ntests := (ntests registry).
Local Abbreviation report := (report body_errors registry).
Local Abbreviation proc_inv := (proc_inv body_errors registry size).
Local Abbreviation trans := (trans body_errors registry size).
Local Abbreviation enough := (enough registry size).
Local Abbreviation inv := (inv body_errors registry size).
Local Abbreviation all_sent := (all_sent body_errors registry).
Local Abbreviation safe_step := (safe_step body_errors).
Local Abbreviation safe_run := (safe_run body_errors).
Local Abbreviation safe_local_step := (safe_local_step body_errors).

Hypothesis Hfit : counts_fit body_errors registry.
Hypothesis Hfresh : fresh registry.

(** Sends that are all complete have all been received. *)
Lemma all_sent_received (lg : list (nat * event)) (ti r tag : nat)
    (buf : string) :
  Forall (fun x => event_ok body_errors registry size x.1 x.2) lg ->
  all_sent lg ti r ->
  (r, EIssend ti 0 tag buf) ∈ lg -> (0%nat, ERecv ti r tag buf) ∈ lg.
Proof.
  intros Hev [_ Hc] Hin.
  destruct (send_in_log lg r ti tag buf Hin) as [Htag Hbuf].
  unfold sends_complete in Hc. rewrite forallb_forall in Hc.
  assert (Htag' : In tag (sent_tags lg ti r)) by (now apply list_elem_of_In).
  specialize (Hc tag Htag'). apply Nat.leb_le in Hc.
  assert (Hpos : (0 < matched lg ti r tag)%nat).
  { destruct (posted lg ti r tag); [inversion Hbuf|simpl in Hc; lia]. }
  destruct (matched_in_log lg ti r tag Hpos) as [buf' Hin'].
  rewrite Forall_forall in Hev.
  pose proof (Hev _ Hin) as [_ E1]. pose proof (Hev _ Hin') as [_ E2].
  simpl in E1, E2. assert (buf' = buf) as -> by congruence. assumption.
Qed.

(** Only the two [return]s return. *)
Lemma trans_returned (r : nat) (p p' : proc) (evs : list event) :
  trans r p p' evs -> returned p' = true ->
  EFinalize ∈ evs /\ EReturn 0 ∈ evs.
Proof.
  intros H. unfold returned.
  trans_cases H; try discriminate; intros _; split;
    unfold root_prints; rewrite ?Er0; repeat constructor.
Qed.

Lemma exits_step (w : world) (r : nat) :
  inv w -> exits_ok w -> exits_ok (safe_step r w).
Proof.
  intros Hinv Hex. unfold safe_step.
  destruct (procs w !! r) as [p|] eqn:Hp; [|assumption].
  destruct (safe_local_step _ _ _ _) as [[p' evs]|] eqn:Hs;
    [|assumption].
  pose proof Hinv as (Hlen & Hprocs & _).
  rewrite Hlen in Hs.
  pose proof (step_refines _ _ _ Hfit w r p p' evs Hinv Hp Hs) as Hs'.
  destruct (Hprocs r p Hp) as (Hpi & _).
  destruct (ideal_step_trans body_errors registry size Hfit r p p' evs Hpi Hs')
    as [Ht _].
  assert (Hr : (r < length (procs w))%nat) by (now apply lookup_lt_Some in Hp).
  intros r' q Hq Hret. rewrite procs_emit in Hq. rewrite log_emit.
  destruct (decide (r' = r)) as [->|Hne].
  - rewrite list_lookup_insert_eq in Hq by assumption. injection Hq as <-.
    destruct (trans_returned r p p' evs Ht Hret) as [H1 H2].
    split; apply elem_of_app; right; now apply list_elem_of_fmap_2.
  - rewrite list_lookup_insert_ne in Hq by congruence.
    destruct (Hex r' q Hq Hret) as [H1 H2].
    split; apply elem_of_app; now left.
Qed.

Lemma exits_run (schedule : list nat) :
  exits_ok (safe_run schedule (init_world size registry)).
Proof.
  induction schedule as [|r schedule IH] using rev_ind.
  - intros r p Hp Hret. simpl in Hp.
    apply lookup_replicate in Hp as [-> _]. discriminate.
  - rewrite safe_run_snoc. apply exits_step; [|assumption].
    apply (inv_run _ _ _ Hfit Hfresh).
Qed.

(** What stands on the terminal when every process has returned. *)
Lemma final_console (w : world) :
  inv w -> (1 <= size)%nat -> all_returned w = true ->
  (enough /\ console w = (nl +:+ nl) :: concat (map report (seq 0 ntests))) \/
  (~ enough /\
   console w = [nl +:+ nl; shortfall_line (largest_test_size registry)]).
Proof.
  intros (Hlen & Hprocs & Hroot & _) Hsize Hall.
  destruct (lookup_lt_is_Some_2 (procs w) 0) as [p0 Hp0]; [lia|].
  unfold all_returned in Hall. rewrite forallb_forall in Hall.
  assert (Hret : returned p0 = true).
  { apply Hall, list_elem_of_In. now apply list_elem_of_lookup_2 in Hp0. }
  destruct (Hprocs 0%nat p0 Hp0) as ([_ Hpc] & _).
  destruct (Hroot p0 Hp0) as [_ Hc]. rewrite Hc.
  unfold Expected.console_of, Expected.partial_report. unfold returned in Hret.
  destruct (p_pc p0); try discriminate.
  - right. now destruct Hpc.
  - left. destruct Hpc as [-> He]. split; [assumption|].
    unfold Expected.ntests. rewrite (lookup_ge_None_2 (tests registry)) by lia.
    now rewrite app_nil_r.
Qed.

End Ending.

(** ** The driver: a launch against the run that stops short *)

Lemma run_snoc
    (body_errors : test_ptr -> nat -> Z -> list (assert_info * string))
    (schedule : list nat) (r : nat) (w : world) :
  run body_errors (schedule ++ [r]) w
  = step body_errors r (run body_errors schedule w).
Proof. unfold run. now rewrite foldl_app. Qed.

Lemma run_app
    (body_errors : test_ptr -> nat -> Z -> list (assert_info * string))
    (s1 s2 : list nat) (w : world) :
  run body_errors (s1 ++ s2) w
  = run body_errors s2 (run body_errors s1 w).
Proof. unfold run. now rewrite foldl_app. Qed.

Lemma console_log (w w' : world) : log w = log w' -> console w = console w'.
Proof. intros H. unfold console, events_of. now rewrite H. Qed.

Section Tracking.

Variable body_errors : test_ptr -> nat -> Z -> list (assert_info * string).
Variable registry : test_list.
Variable size : nat.

Local Abbreviation inv := (inv body_errors registry size).
Local Abbreviation tracks := (tracks body_errors).

Hypothesis Hfit : counts_fit body_errors registry.
Hypothesis Hfresh : fresh registry.

(** A step of the launch is the step of the held run, or the undefined
    step, which the held run does not take; a process past undefined
    behaviour does nothing more. *)
Lemma tracks_step (ws w : world) (r : nat) :
  inv ws -> tracks ws w ->
  tracks (safe_step body_errors r ws) (step body_errors r w).
Proof.
  intros Hinv (Hlog & Hlen & Hrel).
  pose proof Hinv as (Hsz & Hprocs & _).
  unfold safe_step, step.
  destruct (procs ws !! r) as [p|] eqn:Hp.
  2: { assert (Hn : procs w !! r = None).
       { apply lookup_ge_None. apply lookup_ge_None in Hp. lia. }
       rewrite Hn. now split. }
  destruct (lookup_lt_is_Some_2 (procs w) r) as [q Hq].
  { apply lookup_lt_Some in Hp. lia. }
  rewrite Hq, Hlog, Hlen, Hsz.
  destruct (Hprocs r p Hp) as (Hpi & _).
  assert (Hr : (r < length (procs w))%nat) by (now apply lookup_lt_Some in Hq).
  pose proof (Hrel r p q Hp Hq) as Hpq. rewrite Hsz in Hpq.
  destruct Hpq as [->|[-> Hund]].
  - destruct (safe_local_step body_errors (substrate (log ws) size) r size p)
      as [[p' evs]|] eqn:Hss.
    + apply safe_local_step_Some in Hss as [Hss Hd]. rewrite Hss.
      split; [now rewrite !log_emit, Hlog|].
      split; [now rewrite !procs_emit, !length_insert|].
      intros r' p1 q1 H1 H2. rewrite procs_emit in H1, H2.
      rewrite procs_emit, length_insert.
      destruct (decide (r' = r)) as [->|Hne].
      * rewrite list_lookup_insert_eq in H1 by lia.
        rewrite list_lookup_insert_eq in H2 by lia.
        left. congruence.
      * rewrite list_lookup_insert_ne in H1 by congruence.
        rewrite list_lookup_insert_ne in H2 by congruence.
        exact (Hrel r' p1 q1 H1 H2).
    + apply safe_local_step_None in Hss as [Hss|(p' & evs & Hss & Hu)];
        rewrite Hss; [now split|].
      destruct (undefined_step body_errors registry size _ r p p' evs
                  Hpi Hss Hu) as (fi & f & _ & _ & _ & -> & Hall).
      assert (p' = goto p PUndefined) as ->.
      { specialize (Hall (substrate (log ws) size)). congruence. }
      split; [rewrite log_emit; simpl; now rewrite app_nil_r|].
      split; [now rewrite procs_emit, length_insert|].
      intros r' p1 q1 H1 H2. rewrite procs_emit in H2. rewrite Hsz.
      destruct (decide (r' = r)) as [->|Hne].
      * rewrite list_lookup_insert_eq in H2 by lia.
        assert (p1 = p) as -> by congruence. injection H2 as <-.
        right. split; [reflexivity|exact Hall].
      * rewrite list_lookup_insert_ne in H2 by congruence.
        rewrite <- Hsz. exact (Hrel r' p1 q1 H1 H2).
  - unfold safe_local_step. rewrite (Hund (substrate (log ws) size)).
    unfold local_step at 1. simpl. now split.
Qed.

Lemma tracks_run (schedule : list nat) :
  tracks (safe_run body_errors schedule (init_world size registry))
         (run body_errors schedule (init_world size registry)).
Proof.
  induction schedule as [|r schedule IH] using rev_ind.
  - split; [reflexivity|]. split; [reflexivity|].
    intros r p q Hp Hq. left. simpl in *. congruence.
  - rewrite run_snoc, safe_run_snoc. apply tracks_step; [|exact IH].
    apply (inv_run _ _ _ Hfit Hfresh).
Qed.

(** The history of a launch is a history of the held run. *)
Lemma run_log (schedule : list nat) :
  log (run body_errors schedule (init_world size registry))
  = log (safe_run body_errors schedule (init_world size registry)).
Proof. now destruct (tracks_run schedule). Qed.

(** A process of a launch that is not past undefined behaviour is the
    process of the held run. *)
Lemma run_proc (schedule : list nat) (r : nat) (q : proc) :
  procs (run body_errors schedule (init_world size registry)) !! r = Some q ->
  p_pc q <> PUndefined ->
  procs (safe_run body_errors schedule (init_world size registry)) !! r
  = Some q.
Proof.
  intros Hq Hd. destruct (tracks_run schedule) as (_ & Hlen & Hrel).
  destruct (lookup_lt_is_Some_2
              (procs (safe_run body_errors schedule (init_world size registry))) r)
    as [p Hp].
  { apply lookup_lt_Some in Hq. lia. }
  destruct (Hrel r p q Hp Hq) as [->|[-> _]]; [exact Hp|].
  now destruct Hd.
Qed.

(** A launch in which every process has returned is the held run. *)
Lemma run_returned (schedule : list nat) :
  all_returned (run body_errors schedule (init_world size registry)) = true ->
  run body_errors schedule (init_world size registry)
  = safe_run body_errors schedule (init_world size registry).
Proof.
  intros Hall. pose proof (run_log schedule) as Hlog.
  pose proof (tracks_run schedule) as (_ & Hlen & _).
  unfold all_returned in Hall. rewrite forallb_forall in Hall.
  assert (Hprocs :
    procs (run body_errors schedule (init_world size registry))
    = procs (safe_run body_errors schedule (init_world size registry))).
  { apply list_eq. intros r.
    destruct (procs (run body_errors schedule (init_world size registry)) !! r)
      as [q|] eqn:Hq.
    - symmetry. apply run_proc; [exact Hq|].
      assert (Hret : returned q = true).
      { apply Hall, list_elem_of_In. now apply list_elem_of_lookup_2 in Hq. }
      unfold returned in Hret. intros E. now rewrite E in Hret.
    - symmetry. apply lookup_ge_None. apply lookup_ge_None in Hq. lia. }
  destruct (run body_errors schedule (init_world size registry)),
    (safe_run body_errors schedule (init_world size registry)).
  simpl in *. now subst.
Qed.

(** With no more than 2^21 records on a rank a launch is the held run. *)
Lemma run_safe (schedule : list nat) :
  records_fit body_errors registry ->
  run body_errors schedule (init_world size registry)
  = safe_run body_errors schedule (init_world size registry).
Proof.
  intros Hrec. induction schedule as [|r schedule IH] using rev_ind;
    [reflexivity|].
  rewrite run_snoc, safe_run_snoc, IH.
  pose proof (inv_run body_errors registry size Hfit Hfresh schedule) as Hinv.
  set (w := safe_run body_errors schedule (init_world size registry)) in *.
  unfold step, safe_step.
  destruct (procs w !! r) as [p|] eqn:Hp; [|reflexivity].
  destruct Hinv as (Hsz & Hprocs & _). rewrite Hsz.
  destruct (Hprocs r p Hp) as (Hpi & _).
  destruct (local_step body_errors (substrate (log w) size) r size p)
    as [[p' evs]|] eqn:Hs.
  - pose proof (defined_step _ _ _ Hrec _ r p p' evs Hpi Hs) as Hd.
    assert (Hss : safe_local_step body_errors (substrate (log w) size) r size p
                  = Some (p', evs)) by (now apply safe_local_step_Some).
    now rewrite Hss.
  - unfold safe_local_step. now rewrite Hs.
Qed.

End Tracking.

(** ** The driver: a launch with too few processes *)

Lemma local_step_early
    (be1 be2 : test_ptr -> nat -> Z -> list (assert_info * string))
    (net : mpi) (r size : nat) (p : proc) :
  early p = true ->
  local_step be1 net r size p = local_step be2 net r size p.
Proof.
  unfold early, local_step. now destruct (p_pc p).
Qed.

Lemma local_step_short
    (be : test_ptr -> nat -> Z -> list (assert_info * string))
    (net : mpi) (r size : nat) (registry : test_list) (p p' : proc)
    (evs : list event) :
  Z.of_nat size < largest_test_size registry ->
  early p = true -> p_list p = registry ->
  local_step be net r size p = Some (p', evs) ->
  early p' = true /\ p_list p' = registry.
Proof.
  intros Hshort He Hl. unfold early in *. unfold local_step.
  destruct (p_pc p); try discriminate; simpl.
  - intros [= <- <-]. now split.
  - intros [= <- <-]. now split.
  - destruct (mpi_barrier net r); [|discriminate]. intros [= <- <-]. now split.
  - rewrite Hl. destruct (Z.ltb_spec (Z.of_nat size) (largest_test_size registry));
      [|lia].
    intros [= <- <-]. now split.
Qed.

(** With too few processes the entry points play no part in the run. *)
Lemma short_run
    (be : test_ptr -> nat -> Z -> list (assert_info * string))
    (registry : test_list) (size : nat) (schedule : list nat) :
  Z.of_nat size < largest_test_size registry ->
  run be schedule (init_world size registry)
    = run silent schedule (init_world size registry) /\
  length (procs (run be schedule (init_world size registry))) = size /\
  forall r p, procs (run be schedule (init_world size registry)) !! r = Some p ->
    early p = true /\ p_list p = registry.
Proof.
  intros Hshort. induction schedule as [|r schedule IH] using rev_ind.
  - split; [reflexivity|]. split; [apply length_replicate|].
    intros r p Hp. simpl in Hp. apply lookup_replicate in Hp as [-> _].
    now split.
  - rewrite !run_snoc. destruct IH as (IH & Hlen & Hearly). rewrite <- IH.
    set (w := run be schedule (init_world size registry)) in *.
    unfold step. destruct (procs w !! r) as [p|] eqn:Hp;
      [|split; [reflexivity|split; assumption]].
    destruct (Hearly r p Hp) as [He Hl].
    rewrite <- (local_step_early be silent _ _ _ _ He). rewrite Hlen.
    destruct (local_step be _ r size p) as [[p' evs]|] eqn:Hs;
      [|split; [reflexivity|split; assumption]].
    split; [reflexivity|]. split.
    + simpl. now rewrite length_insert.
    + intros r' q Hq. simpl in Hq.
      destruct (decide (r' = r)) as [->|Hne].
      * rewrite list_lookup_insert_eq in Hq by (now apply lookup_lt_Some in Hp).
        injection Hq as <-.
        exact (local_step_short be _ r size registry p p' evs Hshort He Hl Hs).
      * rewrite list_lookup_insert_ne in Hq by congruence.
        exact (Hearly r' q Hq).
Qed.

Lemma silent_fit (registry : test_list) : counts_fit silent registry.
Proof.
  intros ti. unfold total.
  assert (H0 : forall l, sum_list_with (count silent registry ti) l = 0%nat).
  { induction l as [|r l IH]; [reflexivity|]. simpl. rewrite IH.
    unfold count, ledger, errors_of, silent.
    destruct (tests registry !! ti); [|reflexivity].
    now destruct (_ <? _). }
  rewrite H0. reflexivity.
Qed.

(** ** The driver: what every launch does *)

Section Reach.

Variable body_errors : test_ptr -> nat -> Z -> list (assert_info * string).
Variable registry : test_list.
Variable size : nat.

Hypothesis Hfit : counts_fit body_errors registry.
Hypothesis Hfresh : fresh registry.

(** Every event of every launch says what it should. *)
Lemma reach_event (schedule : list nat) (r : nat) (e : event) :
  (r, e) ∈ log (run body_errors schedule (init_world size registry)) ->
  event_ok body_errors registry size r e.
Proof.
  rewrite (run_log body_errors registry size Hfit Hfresh). intros Hin.
  destruct (inv_run body_errors registry size Hfit Hfresh schedule) as (_ & _ & _ & Hev).
  rewrite Forall_forall in Hev. exact (Hev _ Hin).
Qed.

Lemma reach_timely (schedule : list nat) (l1 l2 : list (nat * event))
    (x : nat * event) :
  log (run body_errors schedule (init_world size registry)) = l1 ++ x :: l2 ->
  timely body_errors registry l1 x /\
  Forall (fun y => event_ok body_errors registry size y.1 y.2) l1 /\
  event_ok body_errors registry size x.1 x.2.
Proof.
  rewrite (run_log body_errors registry size Hfit Hfresh). intros Hlog.
  destruct (order_run body_errors registry size Hfit Hfresh schedule) as (_ & _ & Hh).
  destruct (inv_run body_errors registry size Hfit Hfresh schedule) as (_ & _ & _ & Hev).
  split; [exact (Hh l1 x l2 Hlog)|].
  rewrite Hlog in Hev. apply Forall_app in Hev as [H1 H2].
  split; [assumption|]. now inversion H2.
Qed.

(** The local variables of a process that has not met undefined
    behaviour are as they should be. *)
Lemma reach_proc (schedule : list nat) (r : nat) (p : proc) :
  procs (run body_errors schedule (init_world size registry)) !! r = Some p ->
  p_pc p <> PUndefined ->
  proc_inv body_errors registry size r p.
Proof.
  intros Hp Hd.
  pose proof (run_proc body_errors registry size Hfit Hfresh schedule r p Hp Hd)
    as Hp'.
  destruct (inv_run body_errors registry size Hfit Hfresh schedule)
    as (_ & Hprocs & _).
  now destruct (Hprocs r p Hp').
Qed.

Lemma reach_length (schedule : list nat) :
  length (procs (run body_errors schedule (init_world size registry))) = size.
Proof.
  destruct (tracks_run body_errors registry size Hfit Hfresh schedule)
    as (_ & Hlen & _).
  destruct (inv_run body_errors registry size Hfit Hfresh schedule) as (Hsz & _).
  lia.
Qed.

(** A launch in which every process has returned went as it should. *)
Lemma reach_returned (schedule : list nat) :
  all_returned (run body_errors schedule (init_world size registry)) = true ->
  inv body_errors registry size
    (run body_errors schedule (init_world size registry)) /\
  exits_ok (run body_errors schedule (init_world size registry)).
Proof.
  intros Hall.
  rewrite (run_returned body_errors registry size Hfit Hfresh schedule Hall).
  split; [apply (inv_run _ _ _ Hfit Hfresh)|apply (exits_run _ _ _ Hfit Hfresh)].
Qed.

(** With no more than 2^21 records on a rank, whatever has happened, the
    launch can still run to its end. *)
Lemma reach_end (schedule : list nat) :
  records_fit body_errors registry ->
  exists rest,
    all_returned (run body_errors (schedule ++ rest) (init_world size registry))
    = true.
Proof.
  intros Hrec.
  destruct (completes body_errors registry size Hfit Hrec _
              (inv_run body_errors registry size Hfit Hfresh schedule))
    as [rest Hrest].
  exists rest.
  rewrite (run_safe body_errors registry size Hfit Hfresh _ Hrec).
  now rewrite safe_run_app.
Qed.


End Reach.

(** ** The text of the report lines *)

Lemma substring_length (n : nat) (s : string) :
  String.length (String.substring 0 n s) = Nat.min n (String.length s).
Proof.
  revert s. induction n as [|n IH]; intros [|c s]; simpl; try reflexivity.
  now rewrite IH.
Qed.

Lemma substring_prefix (n : nat) (s : string) :
  exists rest, s = String.substring 0 n s +:+ rest.
Proof.
  revert s. induction n as [|n IH]; intros [|c s].
  - now exists "".
  - now exists (String c s).
  - now exists "".
  - destruct (IH s) as [rest Hrest]. exists rest.
    change (String c s = String c (String.substring 0 n s +:+ rest)).
    now rewrite <- Hrest.
Qed.



(** What is sent is always the beginning of the failure text. *)
Lemma fail_message_prefix (rank : nat) (f : fail_info) :
  exists rest, fail_text rank f = fail_message rank f +:+ rest.
Proof. unfold fail_message, snprintf. apply substring_prefix. Qed.

Lemma silent_records_fit (registry : test_list) : records_fit silent registry.
Proof.
  intros ti r. unfold count, ledger, errors_of, silent.
  change (Z.of_nat FAIL_MESSAGE_SIZE) with 1024.
  destruct (tests registry !! ti); [|cbn; lia].
  destruct (_ <? _); cbn; lia.
Qed.

(** ** The driver: the report *)




(** C2. On every launch with fewer processes than the largest test asks
    for, whatever the interleaving: no entry point is ever run; only rank
    0 prints; every process that returns returns 0; once every process has
    returned, the terminal shows the blank lines and the diagnostic, once,
    and every process has called [MPI_Finalize] and returned 0; the
    diagnostic is the line of line 66, which names the largest test size
    in decimal; and from any point the launch can run to that end. *)
Theorem C2_too_few_processes
    (body_errors : test_ptr -> nat -> Z -> list (assert_info * string))
    (registry : test_list) (size : nat) (schedule : list nat) :
  fresh registry -> (1 <= size)%nat ->
  Z.of_nat size < largest_test_size registry ->
  let w := run body_errors schedule (init_world size registry) in
  (forall r ti, (r, EBody ti) ∉ log w) /\
  (forall r s, (r, EPrintf s) ∈ log w -> r = 0%nat) /\
  (forall r status, (r, EReturn status) ∈ log w -> status = 0) /\
  (all_returned w = true ->
   console w = [nl +:+ nl; shortfall_line (largest_test_size registry)] /\
   forall r, (r < size)%nat ->
     (r, EFinalize) ∈ log w /\ (r, EReturn 0) ∈ log w) /\
  shortfall_line (largest_test_size registry)
  = "please launch with at least "
      +:+ pretty (largest_test_size registry) +:+ " procs!" +:+ nl /\
  contains (shortfall_line (largest_test_size registry))
           (pretty (largest_test_size registry)) /\
  (exists rest,
     all_returned (run body_errors (schedule ++ rest) (init_world size registry))
     = true).
Proof.
  intros Hfresh Hsize Hshort w.
  pose proof (silent_fit registry) as Hfit.
  assert (Hw : w = run silent schedule (init_world size registry))
    by (apply short_run; assumption).
  assert (Hne : ~ enough registry size) by (unfold enough; lia).
  split; [|split; [|split; [|split; [|split; [|split]]]]].
  - intros r ti Hin. rewrite Hw in Hin.
    pose proof (reach_event silent registry size Hfit Hfresh schedule _ _ Hin)
      as (_ & _ & He).
    contradiction.
  - intros r s Hin. rewrite Hw in Hin.
    exact (reach_event silent registry size Hfit Hfresh schedule _ _ Hin).
  - intros r status Hin. rewrite Hw in Hin.
    exact (reach_event silent registry size Hfit Hfresh schedule _ _ Hin).
  - intros Hall. rewrite Hw in Hall.
    destruct (reach_returned silent registry size Hfit Hfresh schedule Hall)
      as [Hinv Hex].
    rewrite <- Hw in Hinv, Hex, Hall.
    split.
    + destruct (final_console silent registry size w Hinv Hsize Hall)
        as [[He _]|[_ Hc]]; [contradiction|assumption].
    + intros r Hr.
      destruct Hinv as (Hlen & _).
      destruct (lookup_lt_is_Some_2 (procs w) r) as [p Hp]; [lia|].
      apply (Hex r p Hp).
      unfold all_returned in Hall. rewrite forallb_forall in Hall.
      apply Hall, list_elem_of_In. now apply list_elem_of_lookup_2 in Hp.
  - reflexivity.
  - unfold shortfall_line. apply contains_app_r, contains_prefix.
  - destruct (reach_end silent registry size Hfit Hfresh schedule
                (silent_records_fit registry)) as [rest Hrest].
    exists rest.
    now rewrite (proj1 (short_run body_errors registry size
                          (schedule ++ rest) Hshort)).
Qed.

Lemma C2_too_few_processes_witness :
  fresh uneven_tests /\ (1 <= 1)%nat /\
  Z.of_nat 1 < largest_test_size uneven_tests /\
  console (run uneven_errors (round_robin 1 8) (init_world 1 uneven_tests))
  = [nl +:+ nl; shortfall_line 2].
Proof.
  assert (Hfresh : fresh uneven_tests) by (repeat constructor).
  assert (Hsize : (1 <= 1)%nat) by lia.
  assert (Hshort : Z.of_nat 1 < largest_test_size uneven_tests)
    by (vm_compute; reflexivity).
  split; [exact Hfresh|]. split; [exact Hsize|]. split; [exact Hshort|].
  pose proof (C2_too_few_processes uneven_errors uneven_tests 1
                (round_robin 1 8) Hfresh Hsize Hshort) as (_ & _ & _ & Hc & _).
  apply Hc. vm_compute. reflexivity.
Defined.



(** C9. On every launch, whatever the interleaving, at the moment a
    process leaves [MPI_Waitall] for a test (line 204) it waits on as many
    requests as its ledger has records, it has posted one send per record
    and each of them is complete; at the moment it frees its requests and
    its send buffer (lines 205-207), and at the moment it ends the
    iteration of that test (line 218), its sends for the test are all
    posted and complete, each message it sent has been received by rank 0,
    and it has left [MPI_Waitall] for that test if it takes part in it.
    The counts are taken to fit [int]. *)
Theorem C9_waitall_before_release
    (body_errors : test_ptr -> nat -> Z -> list (assert_info * string))
    (registry : test_list) (size : nat) (schedule : list nat)
    (l1 l2 : list (nat * event)) (r ti : nat) :
  counts_fit body_errors registry -> fresh registry ->
  let w := run body_errors schedule (init_world size registry) in
  let received :=
    forall tag buf, (r, EIssend ti 0 tag buf) ∈ l1 ->
                    (0%nat, ERecv ti r tag buf) ∈ l1 in
  (forall n, log w = l1 ++ (r, EWaitall ti n) :: l2 ->
     n = count body_errors registry ti r /\
     all_sent body_errors registry l1 ti r /\ received) /\
  (log w = l1 ++ (r, EDelete ti) :: l2 ->
     (r, EWaitall ti (count body_errors registry ti r)) ∈ l1 /\
     all_sent body_errors registry l1 ti r /\ received) /\
  (log w = l1 ++ (r, ECommFree ti) :: l2 ->
     ((r < comm_size registry ti)%nat ->
      (r, EWaitall ti (count body_errors registry ti r)) ∈ l1) /\
     all_sent body_errors registry l1 ti r /\ received).
Proof.
  intros Hfit Hfresh w received.
  split; [|split].
  - intros n Hlog.
    destruct (reach_timely body_errors registry size Hfit Hfresh
                schedule l1 l2 _ Hlog) as (Hall & Hev & Hn).
    split; [exact Hn|]. split; [exact Hall|].
    intros tag buf.
    exact (all_sent_received body_errors registry size l1 ti r tag buf Hev Hall).
  - intros Hlog.
    destruct (reach_timely body_errors registry size Hfit Hfresh
                schedule l1 l2 _ Hlog) as ([Hall Hw] & Hev & _).
    split; [exact Hw|]. split; [exact Hall|].
    intros tag buf.
    exact (all_sent_received body_errors registry size l1 ti r tag buf Hev Hall).
  - intros Hlog.
    destruct (reach_timely body_errors registry size Hfit Hfresh
                schedule l1 l2 _ Hlog) as ([Hall Hw] & Hev & _).
    split; [exact Hw|]. split; [exact Hall|].
    intros tag buf.
    exact (all_sent_received body_errors registry size l1 ti r tag buf Hev Hall).
Qed.

Lemma C9_waitall_before_release_witness :
  counts_fit uneven_errors uneven_tests /\ fresh uneven_tests /\
  let lg := log (run uneven_errors (round_robin 2 60) (init_world 2 uneven_tests)) in
  exists k, lg !! k = Some (1%nat, EDelete 0) /\
    (1%nat, EWaitall 0 2) ∈ take k lg /\
    all_sent uneven_errors uneven_tests (take k lg) 0 1.
Proof.
  assert (Hfit : counts_fit uneven_errors uneven_tests)
    by (intros [|[|ti]]; vm_compute; reflexivity).
  assert (Hfresh : fresh uneven_tests) by (repeat constructor).
  split; [exact Hfit|]. split; [exact Hfresh|].
  intros lg. exists 22%nat. split; [vm_compute; reflexivity|].
  pose proof (C9_waitall_before_release uneven_errors uneven_tests 2
                (round_robin 2 60) (take 22 lg) (drop 23 lg) 1 0 Hfit Hfresh)
    as (_ & Hd & _).
  destruct Hd as (Hw & Hall & _); [vm_compute; reflexivity|].
  split; [exact Hw|exact Hall].
Defined.

(** ** Registration of tests *)

(** [add_test] pushes one [test_info] per requested size, in the order of
    the sizes and after the tests already there, each with the same entry
    point and name and an empty ledger; it leaves [current_test] and the
    tests already there alone.  With no size at all ([TEST(name)]) it
    registers nothing. *)
Theorem add_test_appends (test : test_ptr) (test_sizes : list Z)
    (name : string) (l : test_list) :
  current_test (add_test test test_sizes name l) = current_test l /\
  tests (add_test test test_sizes name l)
  = tests l ++ map (registered test name) test_sizes /\
  add_test test [] name l = l.
Proof.
  split; [|split; [|reflexivity]]; unfold add_test;
    revert l; induction test_sizes as [|n ns IH]; intros l; simpl.
  - reflexivity.
  - now rewrite IH.
  - now rewrite app_nil_r.
  - rewrite IH. simpl. unfold push_back. now rewrite <- app_assoc.
Qed.

Lemma built_fresh_registry (l : test_list) :
  built l -> current_test l = 0 /\ fresh l.
Proof.
  induction 1 as [|test test_sizes name l Hb [IHc IHf]].
  - split; [reflexivity|constructor].
  - destruct (add_test_appends test test_sizes name l) as (Hc & Ht & _).
    split; [congruence|]. unfold fresh. rewrite Ht.
    apply Forall_app. split; [exact IHf|].
    apply Forall_forall. intros t Hin.
    apply list_elem_of_fmap in Hin as (n & -> & _). reflexivity.
Qed.

(** Whatever [TEST] declarations a program has, when [main] starts
    [current_test] is 0 and every ledger is empty; so a failure registered
    before the driver runs a test lands in the first test's ledger, if there
    is one. *)
Theorem built_registry_is_fresh (l : test_list) :
  built l ->
  current_test l = 0 /\ Forall (fun t => fails t = []) (tests l) /\
  (tests l <> [] -> current_valid l).
Proof.
  intros Hb. destruct (built_fresh_registry l Hb) as [Hc Hf].
  split; [assumption|]. split; [exact Hf|].
  intros Hne. unfold current_valid. rewrite Hc.
  destruct (tests l); [contradiction|]. simpl. lia.
Qed.

Lemma dummy_tests_built : built dummy_tests.
Proof. unfold dummy_tests. repeat constructor. Qed.

Lemma built_registry_is_fresh_witness :
  built dummy_tests /\ current_test dummy_tests = 0 /\
  current_valid dummy_tests.
Proof.
  split; [exact dummy_tests_built|].
  destruct (built_registry_is_fresh dummy_tests dummy_tests_built)
    as (Hc & _ & Hv).
  split; [exact Hc|]. apply Hv. vm_compute. discriminate.
Defined.

(** [largest_test_size] (lines 56-61) is at least every registered size
    and never negative; it is 0, when no test asks for a process, or the
    size of some registered test. *)
Theorem largest_test_size_is_maximum (l : test_list) :
  (forall t, t ∈ tests l -> test_size t <= largest_test_size l) /\
  0 <= largest_test_size l /\
  (largest_test_size l = 0 \/
   exists t, t ∈ tests l /\ test_size t = largest_test_size l).
Proof.
  split; [intros t; apply largest_test_size_ge|].
  split; [apply (largest_test_size_fold (tests l) 0)|].
  unfold largest_test_size.
  assert (Hgen : forall ts a,
    fold_left (fun largest t => if test_size t >? largest then test_size t
                                else largest) ts a = a \/
    exists t, t ∈ ts /\
      test_size t = fold_left (fun largest t =>
                                 if test_size t >? largest then test_size t
                                 else largest) ts a).
  { induction ts as [|t ts IH]; intros a; simpl; [now left|].
    destruct (IH (if test_size t >? a then test_size t else a))
      as [Heq|(u & Hu & Heq)].
    - rewrite Heq. destruct (test_size t >? a); [|now left].
      right. exists t. split; [left|reflexivity].
    - right. exists u. split; [now right|assumption]. }
  destruct (Hgen (tests l) 0) as [Heq|Hex]; [now left|now right].
Qed.

(** ** Entry points written with the macros *)

Lemma with_fails_same (t : test_info) : with_fails t (fails t) = t.
Proof. now destruct t. Qed.

Lemma appended_nil (l : test_list) : appended l l [].
Proof.
  split; [reflexivity|]. intros j.
  destruct (tests l !! j) as [t|]; simpl; [|reflexivity].
  destruct (decide _); [|reflexivity].
  now rewrite app_nil_r, with_fails_same.
Qed.

Lemma appended_app (l l1 l2 : test_list) (fs gs : list fail_info) :
  appended l l1 fs -> appended l1 l2 gs -> appended l l2 (fs ++ gs).
Proof.
  intros [Hc1 Ht1] [Hc2 Ht2]. split; [congruence|].
  intros j. rewrite Ht2, Ht1, Hc1.
  destruct (tests l !! j) as [t|]; simpl; [|reflexivity].
  destruct (decide _); [|reflexivity].
  simpl. now rewrite <- app_assoc.
Qed.

Lemma appended_length (l l' : test_list) (fs : list fail_info) :
  appended l l' fs -> length (tests l') = length (tests l).
Proof.
  intros [_ Ht].
  apply Nat.le_antisymm; apply Nat.nlt_ge; intros Hlt.
  - destruct (lookup_lt_is_Some_2 _ _ Hlt) as [t Hl].
    rewrite Ht in Hl.
    destruct (tests l !! length (tests l)) eqn:E; [|discriminate].
    apply lookup_lt_Some in E. lia.
  - destruct (lookup_lt_is_Some_2 _ _ Hlt) as [t Hl].
    specialize (Ht (length (tests l'))). rewrite Hl in Ht.
    destruct (tests l' !! length (tests l')) eqn:E; [|discriminate].
    apply lookup_lt_Some in E. lia.
Qed.

Lemma appended_valid (l l' : test_list) (fs : list fail_info) :
  appended l l' fs -> current_valid l -> current_valid l'.
Proof.
  intros Ha Hv. unfold current_valid.
  rewrite (appended_length l l' fs Ha). destruct Ha as [-> _]. exact Hv.
Qed.

Lemma appended_unique (l l1 l2 : test_list) (fs : list fail_info) :
  appended l l1 fs -> appended l l2 fs -> l1 = l2.
Proof.
  intros [Hc1 Ht1] [Hc2 Ht2].
  destruct l1 as [c1 t1], l2 as [c2 t2]. simpl in *. f_equal; [congruence|].
  apply list_eq. intros j. now rewrite Ht1, Ht2.
Qed.

Lemma appended_current_fails (l l' : test_list) (fs : list fail_info) :
  appended l l' fs -> current_valid l ->
  current_fails l' = current_fails l ++ fs.
Proof.
  intros [Hc Ht] [Hlo Hhi]. unfold current_fails. rewrite Hc, Ht.
  destruct (lookup_lt_is_Some_2 (tests l) (Z.to_nat (current_test l)))
    as [t Hl]; [lia|].
  rewrite Hl. simpl. now rewrite decide_True.
Qed.

Lemma register_error_appended (l : test_list) (info : assert_info)
    (why : string) :
  current_valid l ->
  exists l', register_error info why l = Some (tt, l') /\
             appended l l' [{| assertion := info; reason := why |}].
Proof.
  intros Hv.
  destruct (register_error_lookup l info why Hv) as (l' & Hl' & Hc & Ht).
  exists l'. now repeat split.
Qed.

Lemma assert_true_verdict {T} `{Primitive T} (a : T) (info : assert_info) :
  verdict_of (assert_true a info)
    (if truthy a then None else Some (info, show a +:+ " is falsy")).
Proof. intros l. unfold assert_true. now destruct (truthy a). Qed.

Lemma assert_eq_verdict {T} `{Primitive T} (a b : T) (info : assert_info) :
  verdict_of (assert_eq a b info)
    (if op_eq a b then None
     else Some (info, show a +:+ " does not equal " +:+ show b)).
Proof. intros l. unfold assert_eq. now destruct (op_eq a b). Qed.

Lemma assert_ieee754_eq_verdict
    (stream_float : float_format -> nat -> spec_float -> string)
    (fmt : float_format) (info : assert_info) (a b : spec_float)
    (ulp_tol : Z) (abs_tol : spec_float) :
  exists v, verdict_of
              (assert_ieee754_eq stream_float fmt info a b ulp_tol abs_tol) v /\
            forall i why, v = Some (i, why) -> i = info.
Proof.
  unfold assert_ieee754_eq.
  destruct (garbage_first a) as [r1 q1], (garbage_second b) as [r2 q2].
  repeat match goal with
  | |- context [if ?c then _ else _] => destruct c
  end;
  first [ exists None; split; [intros l; reflexivity|discriminate]
        | eexists (Some (info, _)); split;
          [intros l; reflexivity|now intros i why [= <- _]] ].
Qed.

Lemma check_verdict
    (stream_float : float_format -> nat -> spec_float -> string) (c : M bool) :
  check stream_float c -> exists v, verdict_of c v.
Proof.
  intros [T HT a info|T HT a b info|fmt info a b ulp_tol abs_tol _].
  - eexists. apply assert_true_verdict.
  - eexists. apply assert_eq_verdict.
  - destruct (assert_ieee754_eq_verdict stream_float fmt info a b ulp_tol abs_tol)
      as (v & Hv & _).
    now exists v.
Qed.

Lemma verdict_run (c : M bool) (v : option (assert_info * string))
    (l : test_list) :
  verdict_of c v -> current_valid l ->
  exists l', c l = Some (bool_decide (v = None), l') /\
             appended l l' (map record_of (option_list v)).
Proof.
  intros Hv Hl. rewrite (Hv l). destruct v as [[info why]|].
  - destruct (register_error_appended l info why Hl) as (l' & Hl' & Ha).
    exists l'. unfold mbind, M_bind. rewrite Hl'. now split.
  - exists l. split; [reflexivity|apply appended_nil].
Qed.

Lemma foldl_errors_appended (errs : list (assert_info * string))
    (l : test_list) :
  current_valid l ->
  exists l',
    foldl (fun acc '(info, why) =>
             match acc with
             | Some (_, l') => register_error info why l'
             | None => None
             end) (Some (tt, l)) errs = Some (tt, l') /\
    appended l l' (map record_of errs).
Proof.
  intros Hv. destruct (run_entry_foldl errs l Hv) as (l' & Hl' & Hc & Ht).
  exists l'. split; [assumption|]. split; [assumption|].
  assert (Hm : map (fun '(info, why) => {| assertion := info; reason := why |})
                   errs = map record_of errs)
    by (apply map_ext; now intros [info why]).
  rewrite Hm in Ht. exact Ht.
Qed.

(** An entry point that touches the harness through the macros only
    behaves, from every registry whose current test is registered, like
    one fixed list of [register_error] calls: it appends those records, in
    order, to the ledger of the current test and changes nothing else.
    This is what the driver assumes of an entry point. *)
Theorem harness_body_appends
    (stream_float : float_format -> nat -> spec_float -> string) (s : body) :
  harness_body stream_float s ->
  exists (go_on : bool) (errs : list (assert_info * string)),
    forall (l : test_list) (f : test_ptr) (rank : nat) (n : Z),
      current_valid l ->
      exists l', s l = Some (go_on, l') /\
        appended l l' (map record_of errs) /\
        run_entry (fun _ _ _ => errs) f rank n l = Some (tt, l').
Proof.
  assert (Hrun : forall errs l l' f rank n,
    current_valid l -> appended l l' (map record_of errs) ->
    run_entry (fun _ _ _ => errs) f rank n l = Some (tt, l')).
  { intros errs l l' f rank n Hv Ha. unfold run_entry.
    destruct (foldl_errors_appended errs l Hv) as (l'' & -> & Ha').
    now rewrite (appended_unique l l' l'' _ Ha Ha'). }
  induction 1 as [| |c Hc|c Hc|s1 s2 H1 IH1 H2 IH2].
  - exists true, []. intros l f rank n Hv. exists l.
    split; [reflexivity|]. split; [apply appended_nil|].
    apply Hrun; [assumption|apply appended_nil].
  - exists false, []. intros l f rank n Hv. exists l.
    split; [reflexivity|]. split; [apply appended_nil|].
    apply Hrun; [assumption|apply appended_nil].
  - destruct (check_verdict stream_float c Hc) as [v Hv].
    exists true, (option_list v). intros l f rank n Hl.
    destruct (verdict_run c v l Hv Hl) as (l' & Hl' & Ha).
    exists l'. split; [|split; [assumption|now apply Hrun]].
    unfold expression, mbind, M_bind. now rewrite Hl'.
  - destruct (check_verdict stream_float c Hc) as [v Hv].
    exists (bool_decide (v = None)), (option_list v). intros l f rank n Hl.
    destruct (verdict_run c v l Hv Hl) as (l' & Hl' & Ha).
    exists l'. split; [|split; [assumption|now apply Hrun]].
    unfold return_unless, mbind, M_bind. rewrite Hl'.
    now destruct (bool_decide (v = None)).
  - destruct IH1 as (g1 & e1 & IH1), IH2 as (g2 & e2 & IH2).
    exists (g1 && g2), (if g1 then e1 ++ e2 else e1). intros l f rank n Hl.
    destruct (IH1 l f rank n Hl) as (l1 & Hl1 & Ha1 & _).
    unfold then_, mbind, M_bind. rewrite Hl1. destruct g1; simpl.
    + pose proof (appended_valid l l1 _ Ha1 Hl) as Hv1.
      destruct (IH2 l1 f rank n Hv1) as (l2 & Hl2 & Ha2 & _).
      exists l2. split; [assumption|].
      assert (Ha : appended l l2 (map record_of (e1 ++ e2)))
        by (rewrite map_app; now apply (appended_app l l1 l2)).
      split; [assumption|now apply Hrun].
    + exists l1. split; [reflexivity|]. split; [assumption|now apply Hrun].
Qed.

Lemma harness_body_appends_witness :
  exists (go_on : bool) (errs : list (assert_info * string)),
    forall (l : test_list) (f : test_ptr) (rank : nat) (n : Z),
      current_valid l ->
      exists l', serial_double_straddle stream_bits l = Some (go_on, l') /\
        appended l l' (map record_of errs) /\
        run_entry (fun _ _ _ => errs) f rank n l = Some (tt, l').
Proof.
  apply (harness_body_appends stream_bits).
  apply hb_assert. apply check_ieee754. now right.
Defined.

Lemma then_run (s1 s2 : body) (l l1 : test_list) (go_on : bool) :
  s1 l = Some (go_on, l1) ->
  then_ s1 s2 l = if go_on then s2 l1 else Some (false, l1).
Proof.
  intros H1. unfold then_, mbind, M_bind. rewrite H1.
  destruct go_on; reflexivity.
Qed.

Lemma expression_run (c : M bool) (l l1 : test_list) (ok : bool) :
  c l = Some (ok, l1) -> expression c l = Some (true, l1).
Proof. intros Hc. unfold expression, mbind, M_bind. now rewrite Hc. Qed.

Lemma return_unless_run (c : M bool) (l l1 : test_list) (ok : bool) :
  c l = Some (ok, l1) -> return_unless c l = Some (ok, l1).
Proof.
  intros Hc. unfold return_unless, mbind, M_bind. rewrite Hc.
  destruct ok; reflexivity.
Qed.

(** In a row of [EXPECT_TRUE] statements every falsy argument leaves its
    record and control reaches the end; in a row of [ASSERT_TRUE]
    statements the first falsy argument leaves its record and the entry
    point returns, so that at most one record is left.  The record of
    [ASSERT_TRUE] is labelled [EXPECT_TRUE(...)] like the other's. *)
Theorem expect_goes_on_assert_returns {T} `{Primitive T} (FILE : string)
    (xs : list (Z * string * T)) (l : test_list) :
  current_valid l ->
  let falsy := List.filter (fun x => negb (truthy x.2)) xs in
  let record := fun x : Z * string * T =>
    {| assertion := info_of x.1.1 FILE ("EXPECT_TRUE(" +:+ x.1.2 +:+ ")");
       reason := show x.2 +:+ " is falsy" |} in
  (exists l',
     block (map (fun x => expression (EXPECT_TRUE x.1.1 FILE x.1.2 x.2)) xs) l
     = Some (true, l') /\
     appended l l' (map record falsy)) /\
  (exists l',
     block (map (fun x => ASSERT_TRUE x.1.1 FILE x.1.2 x.2) xs) l
     = Some (bool_decide (falsy = []), l') /\
     appended l l' (take 1 (map record falsy))).
Proof.
  intros Hv falsy record. subst falsy. split.
  - revert l Hv. induction xs as [|[[ln src] a] xs IH]; intros l Hv.
    + exists l. split; [reflexivity|apply appended_nil].
    + pose proof (assert_true_verdict a
                    (info_of ln FILE ("EXPECT_TRUE(" +:+ src +:+ ")"))) as Hc.
      destruct (verdict_run _ _ l Hc Hv) as (l1 & Hl1 & Ha1).
      destruct (IH l1 (appended_valid _ _ _ Ha1 Hv)) as (l2 & Hl2 & Ha2).
      exists l2. simpl.
      rewrite (then_run _ _ l l1 true (expression_run _ l l1 _ Hl1)).
      split; [exact Hl2|].
      destruct (truthy a); simpl in *.
      * now apply (appended_app l l1 l2 []).
      * now apply (appended_app l l1 l2 [_]).
  - revert l Hv. induction xs as [|[[ln src] a] xs IH]; intros l Hv.
    + exists l. split; [reflexivity|apply appended_nil].
    + pose proof (assert_true_verdict a
                    (info_of ln FILE ("EXPECT_TRUE(" +:+ src +:+ ")"))) as Hc.
      destruct (verdict_run _ _ l Hc Hv) as (l1 & Hl1 & Ha1).
      simpl.
      rewrite (then_run _ _ l l1 _ (return_unless_run _ l l1 _ Hl1)).
      destruct (truthy a); simpl in *.
      * destruct (IH l1 (appended_valid _ _ _ Ha1 Hv)) as (l2 & Hl2 & Ha2).
        exists l2. split; [exact Hl2|].
        now apply (appended_app l l1 l2 []).
      * exists l1. split; [reflexivity|]. rewrite take_0. exact Ha1.
Qed.

Lemma expect_goes_on_assert_returns_witness :
  current_valid running_serial_add /\
  exists l',
    block [ASSERT_TRUE 1 "t.cpp" "a" 1; ASSERT_TRUE 2 "t.cpp" "b" 0;
           ASSERT_TRUE 3 "t.cpp" "c" 0] running_serial_add
    = Some (false, l') /\
    appended running_serial_add l'
      [{| assertion := info_of 2 "t.cpp" "EXPECT_TRUE(b)";
          reason := "0 is falsy" |}].
Proof.
  split; [exact running_serial_add_valid|].
  exact (proj2 (expect_goes_on_assert_returns "t.cpp"
                  [(1, "a", 1); (2, "b", 0); (3, "c", 0)]
                  running_serial_add running_serial_add_valid)).
Defined.

(** ** Tolerance-based equality: more of its behaviour *)

Lemma register_error_answers (info : assert_info) (why : string)
    (l : test_list) :
  fst <$> (register_error info why ;; mret false) l
  = if decide (current_valid l) then Some false else None.
Proof.
  destruct (decide (current_valid l)) as [Hv|Hn].
  - destruct (register_error_valid l info why Hv) as (l' & Hl' & _).
    unfold mbind, M_bind. now rewrite Hl'.
  - unfold mbind, M_bind. now rewrite register_error_invalid.
Qed.

Section Ieee754More.

Variable stream_float : float_format -> nat -> spec_float -> string.
Variable fmt : float_format.

Lemma garbage_flags (a b : spec_float) :
  (garbage_first a).2 || (garbage_second b).2 = garbage a b.
Proof.
  unfold garbage_first, garbage_second, garbage.
  destruct (isnan a), (isinf a), (isnan b), (isinf b); reflexivity.
Qed.

(** The answer of the predicate is [ieee754_verdict]; a failure is
    answered only if it can be registered. *)
Lemma assert_ieee754_eq_answer (info : assert_info) (a b : spec_float)
    (ulp_tol : Z) (abs_tol : spec_float) (l : test_list) :
  fst <$> assert_ieee754_eq stream_float fmt info a b ulp_tol abs_tol l
  = if ieee754_verdict fmt a b ulp_tol abs_tol then Some true
    else if decide (current_valid l) then Some false else None.
Proof.
  unfold assert_ieee754_eq, ieee754_verdict.
  rewrite <- garbage_flags.
  destruct (garbage_first a) as [r1 q1], (garbage_second b) as [r2 q2].
  simpl fst; simpl snd.
  destruct (q1 || q2); [apply register_error_answers|].
  fold (absolute_case a b abs_tol).
  destruct (absolute_case a b abs_tol).
  - destruct (flt_gt _ abs_tol); simpl negb;
      [apply register_error_answers|reflexivity].
  - destruct (bits_of fmt a >? bits_of fmt b).
    + destruct (_ - _ >? _); simpl negb;
        [apply register_error_answers|reflexivity].
    + destruct (bits_of fmt b >? bits_of fmt a); [|reflexivity].
      destruct (_ - _ >? _); simpl negb;
        [apply register_error_answers|reflexivity].
Qed.

Lemma assert_ieee754_eq_passes (info : assert_info) (a b : spec_float)
    (ulp_tol : Z) (abs_tol : spec_float) (l : test_list) :
  ieee754_verdict fmt a b ulp_tol abs_tol = true <->
  assert_ieee754_eq stream_float fmt info a b ulp_tol abs_tol l = Some (true, l).
Proof.
  pose proof (assert_ieee754_eq_answer info a b ulp_tol abs_tol l) as Ha.
  split.
  - intros Hv. rewrite Hv in Ha.
    destruct (assert_ieee754_eq _ _ _ _ _ _ _ l) as [[v l']|] eqn:E;
      [|discriminate].
    simpl in Ha. injection Ha as ->.
    now rewrite (assert_ieee754_eq_true_pure _ _ _ _ _ _ _ _ _ E) in *.
  - intros E. rewrite E in Ha. simpl in Ha.
    destruct (ieee754_verdict fmt a b ulp_tol abs_tol); [reflexivity|].
    destruct (decide _); discriminate.
Qed.

End Ieee754More.

(** The sign of a rounded sum is the only thing its sign argument
    decides. *)
Lemma SFabs_binary_round (prec emax : Z) (m : positive) (e : Z) :
  SFabs (binary_round prec emax true m e)
  = SFabs (binary_round prec emax false m e).
Proof.
  unfold binary_round. destruct (shl_align _ _ _) as [mz ez].
  unfold binary_round_aux.
  destruct (shr_fexp prec emax (Z.pos mz) ez loc_Exact) as [mrs' e'].
  destruct (shr_fexp prec emax _ e' loc_Exact) as [mrs'' e''].
  destruct (shr_m mrs''); try reflexivity.
  now destruct (_ <=? _).
Qed.

Lemma SFabs_binary_normalize_opp (prec emax m e : Z) :
  SFabs (binary_normalize prec emax (- m) e false)
  = SFabs (binary_normalize prec emax m e false).
Proof.
  destruct m as [|p|p]; simpl; [reflexivity| |symmetry];
    apply SFabs_binary_round.
Qed.

(** [|a - b|] is [|b - a|]. *)
Lemma SFabs_sub_comm (prec emax : Z) (a b : spec_float) :
  isnan a = false -> isinf a = false -> isnan b = false -> isinf b = false ->
  SFabs (SFsub prec emax a b) = SFabs (SFsub prec emax b a).
Proof.
  destruct a as [sa|sa| |sa ma ea], b as [sb|sb| |sb mb eb];
    try discriminate; intros _ _ _ _.
  - now destruct sa, sb.
  - reflexivity.
  - reflexivity.
  - unfold SFsub. rewrite (Z.min_comm eb ea).
    rewrite <- SFabs_binary_normalize_opp. f_equal. f_equal. lia.
Qed.

Lemma ieee754_verdict_comm (fmt : float_format) (a b : spec_float)
    (ulp_tol : Z) (abs_tol : spec_float) :
  ieee754_verdict fmt a b ulp_tol abs_tol
  = ieee754_verdict fmt b a ulp_tol abs_tol.
Proof.
  unfold ieee754_verdict.
  assert (Hg : garbage a b = garbage b a).
  { unfold garbage. destruct (isnan a), (isinf a), (isnan b), (isinf b);
      reflexivity. }
  rewrite <- Hg. destruct (garbage a b) eqn:Eg; [reflexivity|].
  assert (Hc : absolute_case a b abs_tol = absolute_case b a abs_tol).
  { unfold absolute_case.
    rewrite (andb_comm (flt_lt (fabs a) abs_tol)).
    now destruct (signbit a), (signbit b). }
  rewrite <- Hc. destruct (absolute_case a b abs_tol).
  - unfold fabs, flt_sub. rewrite (SFabs_sub_comm _ _ a b); [reflexivity|..];
      unfold garbage in Eg;
      destruct (isnan a), (isinf a), (isnan b), (isinf b);
      try discriminate; reflexivity.
  - destruct (Z.gtb_spec (bits_of fmt a) (bits_of fmt b)),
             (Z.gtb_spec (bits_of fmt b) (bits_of fmt a));
      try reflexivity; lia.
Qed.

(** The answer of [assert_ieee754_eq] does not depend on the order of the
    operands, whatever they are (only the text of the failure does). *)
Theorem assert_ieee754_eq_symmetric
    (stream_float : float_format -> nat -> spec_float -> string)
    (fmt : float_format) (info : assert_info) (a b : spec_float)
    (ulp_tol : Z) (abs_tol : spec_float) (l : test_list) :
  fst <$> assert_ieee754_eq stream_float fmt info a b ulp_tol abs_tol l
  = fst <$> assert_ieee754_eq stream_float fmt info b a ulp_tol abs_tol l.
Proof.
  rewrite !assert_ieee754_eq_answer. now rewrite ieee754_verdict_comm.
Qed.

(** A comparison that succeeds with a ULP tolerance [ulp_tol >= 0]
    succeeds with every larger one (same [abs_tol]). *)
Theorem wider_ulp_tol_still_passes
    (stream_float : float_format -> nat -> spec_float -> string)
    (fmt : float_format) (info : assert_info) (a b : spec_float)
    (ulp_tol ulp_tol' : Z) (abs_tol : spec_float) (l : test_list) :
  instantiated fmt -> 0 <= ulp_tol <= ulp_tol' -> int_range ulp_tol' ->
  assert_ieee754_eq stream_float fmt info a b ulp_tol abs_tol l
    = Some (true, l) ->
  assert_ieee754_eq stream_float fmt info a b ulp_tol' abs_tol l
    = Some (true, l).
Proof.
  intros Hf Hle Hr. rewrite <- !assert_ieee754_eq_passes.
  unfold ieee754_verdict.
  rewrite (to_unsigned_id fmt ulp_tol Hf) by (unfold int_range in *; lia).
  rewrite (to_unsigned_id fmt ulp_tol' Hf) by (unfold int_range in *; lia).
  destruct (garbage a b); [easy|].
  destruct (absolute_case a b abs_tol); [easy|].
  destruct (bits_of fmt a >? bits_of fmt b).
  - destruct (Z.gtb_spec (bits_of fmt a - bits_of fmt b) ulp_tol),
             (Z.gtb_spec (bits_of fmt a - bits_of fmt b) ulp_tol');
      try easy; lia.
  - destruct (bits_of fmt b >? bits_of fmt a); [|easy].
    destruct (Z.gtb_spec (bits_of fmt b - bits_of fmt a) ulp_tol),
             (Z.gtb_spec (bits_of fmt b - bits_of fmt a) ulp_tol');
      try easy; lia.
Qed.

Lemma wider_ulp_tol_still_passes_witness :
  instantiated binary64 /\ 0 <= 1 <= 2 /\ int_range 2 /\
  assert_ieee754_eq stream_bits binary64 serial_add_info dbl_1
    (S754_finite false 4503599627370497 (-52)) 2 (epsilon binary64)
    running_serial_add
  = Some (true, running_serial_add).
Proof.
  assert (Hf : instantiated binary64) by (now right).
  assert (Hle : 0 <= 1 <= 2) by lia.
  assert (Hr : int_range 2) by (unfold int_range; lia).
  split; [exact Hf|]. split; [exact Hle|]. split; [exact Hr|].
  apply (wider_ulp_tol_still_passes stream_bits binary64 serial_add_info dbl_1
           (S754_finite false 4503599627370497 (-52)) 1 2 (epsilon binary64)
           running_serial_add Hf Hle Hr).
  vm_compute. reflexivity.
Defined.

(** With a NaN for [abs_tol], two operands of opposite sign compare equal
    however far apart they are: the test [diff > tol] of line 166 is false
    for a NaN. *)
Theorem nan_abs_tol_accepts_opposite_signs
    (stream_float : float_format -> nat -> spec_float -> string)
    (fmt : float_format) (info : assert_info) (a b : spec_float)
    (ulp_tol : Z) (l : test_list) :
  garbage a b = false -> signbit a <> signbit b ->
  assert_ieee754_eq stream_float fmt info a b ulp_tol S754_nan l
    = Some (true, l).
Proof.
  intros Hg Hs. apply assert_ieee754_eq_passes. unfold ieee754_verdict.
  rewrite Hg. unfold absolute_case.
  destruct (signbit a), (signbit b); try congruence; simpl;
    unfold flt_gt; now destruct (fabs (flt_sub fmt a b)).
Qed.

Lemma nan_abs_tol_accepts_opposite_signs_witness :
  garbage (SFopp dbl_1) dbl_2 = false /\
  signbit (SFopp dbl_1) <> signbit dbl_2 /\
  assert_ieee754_eq stream_bits binary64 serial_add_info (SFopp dbl_1) dbl_2 0
    S754_nan running_serial_add
  = Some (true, running_serial_add).
Proof.
  assert (Hg : garbage (SFopp dbl_1) dbl_2 = false) by reflexivity.
  assert (Hs : signbit (SFopp dbl_1) <> signbit dbl_2) by discriminate.
  split; [exact Hg|]. split; [exact Hs|].
  exact (nan_abs_tol_accepts_opposite_signs stream_bits binary64
           serial_add_info (SFopp dbl_1) dbl_2 0 running_serial_add Hg Hs).
Defined.

(** Zeros compare equal whatever their signs and whatever [ulp_tol],
    although the bit patterns of [+0] and [-0] are far apart, as long as
    [abs_tol] is not below zero. *)
Theorem zeros_compare_equal
    (stream_float : float_format -> nat -> spec_float -> string)
    (fmt : float_format) (info : assert_info) (s1 s2 : bool)
    (ulp_tol : Z) (abs_tol : spec_float) (l : test_list) :
  flt_lt abs_tol (S754_zero false) = false ->
  assert_ieee754_eq stream_float fmt info (S754_zero s1) (S754_zero s2)
    ulp_tol abs_tol l
  = Some (true, l).
Proof.
  intros Ht. apply assert_ieee754_eq_passes. unfold ieee754_verdict.
  change (garbage (S754_zero s1) (S754_zero s2)) with false. cbv iota.
  assert (Hgt : flt_gt (S754_zero false) abs_tol = false).
  { unfold flt_gt, flt_lt, SFltb in *.
    destruct abs_tol as [s|[]| |[] m e]; try reflexivity; discriminate. }
  assert (Hd : fabs (flt_sub fmt (S754_zero s1) (S754_zero s2))
               = S754_zero false) by (now destruct s1, s2).
  rewrite Hd, Hgt. simpl negb.
  destruct (absolute_case _ _ _) eqn:Ec; [reflexivity|].
  assert (s1 = s2) as ->.
  { unfold absolute_case in Ec. now destruct s1, s2. }
  now rewrite Z.gtb_ltb, Z.ltb_irrefl.
Qed.

Lemma zeros_compare_equal_witness :
  flt_lt (epsilon binary64) (S754_zero false) = false /\
  assert_ieee754_eq stream_bits binary64 serial_add_info
    (S754_zero false) (S754_zero true) 0 (epsilon binary64) running_serial_add
  = Some (true, running_serial_add).
Proof.
  assert (Ht : flt_lt (epsilon binary64) (S754_zero false) = false)
    by reflexivity.
  split; [exact Ht|].
  exact (zeros_compare_equal stream_bits binary64 serial_add_info false true 0
           (epsilon binary64) running_serial_add Ht).
Defined.

(** ** The driver: more of what every launch does *)

Lemma bodies_app (l1 l2 : list (nat * event)) (ti r : nat) :
  bodies (l1 ++ l2) ti r = (bodies l1 ti r + bodies l2 ti r)%nat.
Proof. unfold bodies. now rewrite omap_app, length_app. Qed.

Lemma bodies_other_rank (r r' : nat) (evs : list event) (ti : nat) :
  r <> r' -> bodies (map (pair r) evs) ti r' = 0%nat.
Proof.
  intros Hne. unfold bodies.
  induction evs as [|e evs IH]; [reflexivity|].
  simpl. destruct e; simpl; try exact IH.
  case_decide; [exfalso; intuition congruence|exact IH].
Qed.

Lemma bodies_in_log (lg : list (nat * event)) (ti r : nat) :
  (0 < bodies lg ti r)%nat -> (r, EBody ti) ∈ lg.
Proof.
  unfold bodies. intros Hlen.
  destruct (omap _ lg) as [|[] l] eqn:El; [simpl in Hlen; lia|].
  assert (Hin : tt ∈ omap (fun x : nat * event =>
            match x with
            | (r', EBody ti') =>
                if decide (r' = r /\ ti' = ti) then Some tt else None
            | _ => None
            end) lg) by (rewrite El; left).
  apply list_elem_of_omap in Hin as ([r' e] & Hx & He).
  destruct e; try discriminate.
  case_decide as Hd; [|discriminate]. now destruct Hd as [-> ->].
Qed.

Lemma entered_mono (l1 l2 : list (nat * event)) (r : nat) :
  (entered l1 r <= entered (l1 ++ l2) r)%nat.
Proof. rewrite entered_app. lia. Qed.

Section Launch.

Variable body_errors : test_ptr -> nat -> Z -> list (assert_info * string).
Variable registry : test_list.
Variable size : nat.

Hypothesis Hfit : counts_fit body_errors registry.
Hypothesis Hfresh : fresh registry.

(** A step changes nothing or is a step of the expected run. *)
Lemma step_cases (w : world) (r : nat) :
  inv body_errors registry size w ->
  safe_step body_errors r w = w \/
  exists p p' evs,
    procs w !! r = Some p /\
    safe_local_step body_errors (substrate (log w) size) r size p = Some (p', evs) /\
    trans body_errors registry size r p p' evs /\
    proc_inv body_errors registry size r p /\
    safe_step body_errors r w = emit r evs p' w.
Proof.
  intros Hinv. unfold safe_step.
  destruct (procs w !! r) as [p|] eqn:Hp; [|now left].
  pose proof Hinv as (Hlen & Hprocs & _). rewrite Hlen.
  destruct (safe_local_step _ _ _ _ _) as [[p' evs]|] eqn:Hs; [|now left].
  right. exists p, p', evs.
  pose proof (step_refines _ _ _ Hfit w r p p' evs Hinv Hp Hs) as Hs'.
  destruct (Hprocs r p Hp) as (Hpi & _).
  destruct (ideal_step_trans body_errors registry size Hfit r p p' evs Hpi Hs')
    as [Ht _].
  split; [reflexivity|]. split; [exact Hs|]. split; [exact Ht|].
  split; [exact Hpi|reflexivity].
Qed.

(** What holds at the start and is kept by every step holds on every
    launch. *)
Lemma run_invariant (P : world -> Prop) :
  P (init_world size registry) ->
  (forall w r, inv body_errors registry size w ->
               inv_order body_errors registry w -> P w ->
               P (safe_step body_errors r w)) ->
  forall schedule, P (safe_run body_errors schedule (init_world size registry)).
Proof.
  intros H0 Hstep schedule.
  induction schedule as [|r schedule IH] using rev_ind; [exact H0|].
  rewrite safe_run_snoc. apply Hstep; [|  |exact IH].
  - apply (inv_run body_errors registry size Hfit Hfresh).
  - apply (order_run body_errors registry size Hfit Hfresh).
Qed.

(** The entry point is called where the body is. *)
Lemma trans_bodies (r : nat) (p p' : proc) (evs : list event) (ti : nat) :
  proc_inv body_errors registry size r p ->
  trans body_errors registry size r p p' evs ->
  body_runs registry r p' ti
  = (body_runs registry r p ti + bodies (map (pair r) evs) ti r)%nat.
Proof.
  intros Hinv H. unfold body_runs, bodies, pos.
  destruct (decide (ti = p_ti p)) as [->|Hne];
    trans_inv Hinv H; unfold root_prints;
    repeat match goal with
    | |- context [decide ?P] => destruct (decide P)
    | |- context [if ?c then _ else _] => destruct c eqn:?
    | H : _ /\ _ |- _ => destruct H
    end; simpl in *; try reflexivity; try lia;
    repeat match goal with H : _ /\ _ |- _ => destruct H end; subst;
    try reflexivity; try lia.
Qed.

Lemma body_step (w : world) (r : nat) :
  inv body_errors registry size w ->
  inv_body registry w -> inv_body registry (safe_step body_errors r w).
Proof.
  intros Hinv Hb.
  destruct (step_cases w r Hinv) as [->|(p & p' & evs & Hp & _ & Ht & Hpi & ->)];
    [assumption|].
  assert (Hr : (r < length (procs w))%nat) by (now apply lookup_lt_Some in Hp).
  intros r' q ti Hq. rewrite procs_emit in Hq. rewrite log_emit, bodies_app.
  destruct (decide (r' = r)) as [->|Hne].
  - rewrite list_lookup_insert_eq in Hq by assumption. injection Hq as <-.
    now rewrite (Hb r p ti Hp), (trans_bodies r p p' evs ti Hpi Ht).
  - rewrite list_lookup_insert_ne in Hq by congruence.
    rewrite (Hb r' q ti Hq), bodies_other_rank by congruence. lia.
Qed.

Lemma body_run (schedule : list nat) :
  inv_body registry (safe_run body_errors schedule (init_world size registry)).
Proof.
  apply run_invariant.
  - intros r p ti Hp. simpl in Hp. apply lookup_replicate in Hp as [-> _].
    unfold body_runs. destruct (decide _) as [[H _]|]; [|reflexivity].
    unfold pos in H. simpl in H. lia.
  - intros w r Hinv _ Hb. now apply body_step.
Qed.

(** What lets a process out of the barrier that ends a test. *)
Lemma barrier_enabled (w : world) (r : nat) (p : proc)
    (res : proc * list event) :
  p_pc p = PWaitT ->
  safe_local_step body_errors (substrate (log w) size) r size p = Some res ->
  barrier_open (log w) size r = true.
Proof.
  intros Ek Hs. destruct res as [p' evs].
  apply safe_local_step_Some in Hs as [Hs _].
  unfold local_step in Hs. rewrite Ek in Hs. simpl in Hs.
  now destruct (barrier_open (log w) size r).
Qed.

Lemma cross_waitT (r : nat) (p p' : proc) (evs : list event) (ti : nat) :
  proc_inv body_errors registry size r p ->
  trans body_errors registry size r p p' evs ->
  (pos p <= ti * 13 + 17)%nat -> (ti * 13 + 17 < pos p')%nat ->
  p_pc p = PWaitT /\ p_ti p = ti.
Proof.
  intros Hinv H. unfold pos.
  trans_inv Hinv H; intros; try lia; (split; [reflexivity|lia]).
Qed.

Lemma entered_past (r : nat) (q : proc) (ti : nat) :
  proc_inv body_errors registry size r q ->
  (3 + ti <= entered_of q)%nat -> (ti * 13 + 17 <= pos q)%nat.
Proof.
  intros [_ Hpc]. unfold entered_of, pos.
  destruct (p_pc q); simpl in *; unfold in_iteration in *;
    repeat match goal with H : _ /\ _ |- _ => destruct H end; lia.
Qed.

Lemma sync_step (w : world) (r : nat) :
  inv body_errors registry size w ->
  inv_sync w -> inv_sync (safe_step body_errors r w).
Proof.
  intros Hinv Hsy.
  destruct (step_cases w r Hinv) as [->|(p & p' & evs & Hp & Hs & Ht & Hpi & ->)];
    [assumption|].
  pose proof Hinv as (Hlen & Hprocs & _).
  assert (Hr : (r < length (procs w))%nat) by (now apply lookup_lt_Some in Hp).
  intros r0 q ti r' Hq Hpos Hr'. rewrite procs_emit in Hq, Hr'.
  rewrite length_insert in Hr'. rewrite log_emit.
  pose proof (entered_mono (log w) (map (pair r) evs) r') as Hmono.
  destruct (decide (r0 = r)) as [->|Hne].
  - rewrite list_lookup_insert_eq in Hq by assumption. injection Hq as <-.
    destruct (le_lt_dec (pos p) (ti * 13 + 17)) as [Hle|Hlt].
    + destruct (cross_waitT r p p' evs ti Hpi Ht Hle Hpos) as [Ek <-].
      pose proof (barrier_enabled w r p _ Ek Hs) as Hb.
      unfold barrier_open in Hb. rewrite forallb_forall in Hb.
      assert (Hin : In r' (seq 0 size)) by (apply in_seq; lia).
      specialize (Hb r' Hin). apply Nat.leb_le in Hb.
      destruct (Hprocs r p Hp) as (_ & Hent & _).
      rewrite Hent in Hb. unfold entered_of in Hb. rewrite Ek in Hb. lia.
    + pose proof (Hsy r p ti r' Hp Hlt Hr'). lia.
  - rewrite list_lookup_insert_ne in Hq by congruence.
    pose proof (Hsy r0 q ti r' Hq Hpos Hr'). lia.
Qed.

(** Only the head of the loop splits the communicator. *)
Lemma trans_split (r : nat) (p p' : proc) (evs pre post : list event)
    (t : nat) (c : Z) :
  trans body_errors registry size r p p' evs ->
  evs = pre ++ ESplit t c :: post ->
  pre = [] /\ p_pc p = PLoop /\ p_ti p = t.
Proof.
  intros H Heq.
  trans_cases H; unfold root_prints in *; simpl in *; rewrite ?Er0 in *;
    repeat match goal with
    | H : context [if ?c then _ else _] |- _ => destruct c
    end;
    destruct pre as [|e1 [|e2 [|e3 pre]]]; simplify_eq/=;
    try match goal with
        | H : [] = ?l ++ _ :: _ |- _ => destruct l; discriminate
        end;
    now repeat split.
Qed.

Lemma separate_step (w : world) (r : nat) :
  inv body_errors registry size w -> inv_order body_errors registry w ->
  inv_body registry w -> inv_sync w ->
  inv_separate body_errors registry w ->
  inv_separate body_errors registry (safe_step body_errors r w).
Proof.
  intros Hinv (_ & K2 & _) Hb Hsy Hsep.
  destruct (step_cases w r Hinv) as [->|(p & p' & evs & Hp & Hs & Ht & Hpi & ->)];
    [assumption|].
  pose proof Hinv as (Hlen & Hprocs & _).
  intros l1 x l2 Heq. rewrite log_emit in Heq. symmetry in Heq.
  destruct (split_app_cases _ _ _ _ _ Heq) as [[l2' Hl]|(l1' & -> & Hl)].
  - exact (Hsep l1 x l2' Hl).
  - apply fmap_app_inv in Hl as (pre & rest & -> & Hrest & Hevs).
    symmetry in Hrest. apply fmap_cons_inv in Hrest as (e & post & -> & -> & ->).
    destruct e as [| | | |[|ti] c| | | | | | |]; try exact I.
    destruct (trans_split r p p' _ pre post (S ti) c Ht Hevs) as (-> & Ek & Eti).
    simpl. rewrite app_nil_r. intros r' Hr'.
    pose proof Hpi as [_ Hpc]. rewrite Ek in Hpc. destruct Hpc as [_ He].
    assert (Hsz : (r' < length (procs w))%nat).
    { pose proof (comm_size_le registry size ti He). lia. }
    destruct (lookup_lt_is_Some_2 _ _ Hsz) as [q Hq].
    destruct (Hprocs r' q Hq) as (Hqi & Hent & _ & Htags & _).
    assert (Hpos : (ti * 13 + 17 <= pos q)%nat).
    { apply (entered_past r' q ti Hqi). rewrite <- Hent.
      apply (Hsy r p ti r' Hp); [|assumption].
      unfold pos. rewrite Ek, Eti. simpl. lia. }
    destruct (K2 r' q ti Hq) as [Hc Hw]; [lia|].
    split; [|split; [split|]].
    + apply bodies_in_log. rewrite (Hb r' q ti Hq). unfold body_runs.
      rewrite decide_True by (split; [lia|assumption]). lia.
    + rewrite Htags, (sent_count_past body_errors registry) by lia.
      reflexivity.
    + exact Hc.
    + now apply Hw.
Qed.

Lemma separate_run (schedule : list nat) :
  let w := safe_run body_errors schedule (init_world size registry) in
  inv_body registry w /\ inv_sync w /\ inv_separate body_errors registry w.
Proof.
  apply (run_invariant
           (fun w => inv_body registry w /\ inv_sync w /\
                     inv_separate body_errors registry w)).
  - split; [exact (body_run [])|]. split.
    + intros r p ti r' Hp Hpos _. simpl in Hp.
      apply lookup_replicate in Hp as [-> _].
      unfold pos in Hpos. simpl in Hpos. lia.
    + intros l1 x l2 Heq. simpl in Heq. destruct l1; discriminate.
  - intros w r Hinv Hord (Hb & Hsy & Hsep).
    split; [now apply body_step|]. split; [now apply sync_step|].
    now apply separate_step.
Qed.

End Launch.

(** On every launch, when a process is about to call an entry point,
    [current_test] is the index of that test and names a registered test:
    every [register_error] of the entry point finds its ledger, whatever
    the entry point and however many records it leaves.  The counts are
    taken to fit [int]. *)
Theorem entry_points_find_current_test
    (body_errors : test_ptr -> nat -> Z -> list (assert_info * string))
    (registry : test_list) (size : nat) (schedule : list nat)
    (r : nat) (p : proc) :
  counts_fit body_errors registry -> fresh registry ->
  procs (run body_errors schedule (init_world size registry)) !! r = Some p ->
  p_pc p = PBody ->
  current_test (p_list p) = Z.of_nat (p_ti p) /\
  current_valid (p_list p) /\
  forall (errors : test_ptr -> nat -> Z -> list (assert_info * string))
         (f : test_ptr) (n : Z),
    exists l', run_entry errors f r n (p_list p) = Some (tt, l').
Proof.
  intros Hfit Hfresh Hp Ek.
  assert (Hd : p_pc p <> PUndefined) by (rewrite Ek; discriminate).
  destruct (reach_proc body_errors registry size Hfit Hfresh schedule r p
              Hp Hd) as [Hreg Hpc].
  rewrite Ek in Hpc. destruct Hpc as (Hti & _ & Hcur & _).
  assert (Hv : current_valid (p_list p)).
  { unfold current_valid. rewrite Hcur.
    pose proof (reg_sizes registry _ _ Hreg) as Hs.
    apply (f_equal length) in Hs. rewrite !length_map in Hs.
    unfold ntests in Hti. lia. }
  split; [assumption|]. split; [exact Hv|].
  intros errors f n.
  destruct (run_entry_lookup errors f r n (p_list p) Hv) as (l' & Hl' & _).
  now exists l'.
Qed.

Lemma entry_points_find_current_test_witness :
  counts_fit uneven_errors uneven_tests /\ fresh uneven_tests /\
  exists p,
    procs (run uneven_errors (round_robin 2 8) (init_world 2 uneven_tests))
      !! 1%nat = Some p /\
    p_pc p = PBody /\ current_valid (p_list p).
Proof.
  assert (Hfit : counts_fit uneven_errors uneven_tests)
    by (intros [|[|ti]]; vm_compute; reflexivity).
  assert (Hfresh : fresh uneven_tests) by (repeat constructor).
  split; [exact Hfit|]. split; [exact Hfresh|].
  destruct (procs (run uneven_errors (round_robin 2 8)
                     (init_world 2 uneven_tests)) !! 1%nat) as [p|] eqn:Hp;
    [|vm_compute in Hp; discriminate].
  exists p. split; [reflexivity|].
  assert (Ek : p_pc p = PBody)
    by (vm_compute in Hp; injection Hp as <-; reflexivity).
  split; [exact Ek|].
  exact (proj1 (proj2 (entry_points_find_current_test uneven_errors
                         uneven_tests 2 (round_robin 2 8) 1 p Hfit Hfresh Hp
                         Ek))).
Defined.

Lemma returned_position
    (body_errors : test_ptr -> nat -> Z -> list (assert_info * string))
    (registry : test_list) (size : nat) (w : world) (r : nat) (p : proc) :
  inv body_errors registry size w -> enough registry size ->
  all_returned w = true -> procs w !! r = Some p ->
  p_pc p = PExit /\ p_ti p = ntests registry.
Proof.
  intros (_ & Hprocs & _) He Hall Hp.
  unfold all_returned in Hall. rewrite forallb_forall in Hall.
  assert (Hret : returned p = true).
  { apply Hall, list_elem_of_In. now apply list_elem_of_lookup_2 in Hp. }
  destruct (Hprocs r p Hp) as ([_ Hpc] & _). unfold returned in Hret.
  destruct (p_pc p); try discriminate.
  - now destruct Hpc.
  - now destruct Hpc.
Qed.

(** A test registered with a size of zero or less has no participant: on
    no launch is its entry point called or a count handed in for it, and
    its report is empty, so that the terminal never mentions it; it neither
    succeeds nor fails.  The counts are taken to fit [int]. *)
Theorem test_without_processes_is_skipped
    (body_errors : test_ptr -> nat -> Z -> list (assert_info * string))
    (registry : test_list) (size : nat) (schedule : list nat)
    (ti : nat) (t : test_info) :
  counts_fit body_errors registry -> fresh registry -> (1 <= size)%nat ->
  tests registry !! ti = Some t -> test_size t <= 0 ->
  let w := run body_errors schedule (init_world size registry) in
  (forall r, (r, EBody ti) ∉ log w) /\
  (forall r n, (r, EGather ti n) ∉ log w) /\
  report body_errors registry ti = [] /\
  (all_returned w = true ->
   console w = (nl +:+ nl) ::
               concat (map (report body_errors registry)
                           (seq 0 (ntests registry))) \/
   console w = [nl +:+ nl; shortfall_line (largest_test_size registry)]).
Proof.
  intros Hfit Hfresh Hsize Ht Hle w.
  assert (Hc : comm_size registry ti = 0%nat).
  { rewrite (comm_size_lookup registry ti t Ht). lia. }
  split; [|split; [|split]].
  - intros r Hin.
    pose proof (reach_event body_errors registry size Hfit Hfresh schedule _ _ Hin)
      as (_ & Hr & _).
    lia.
  - intros r n Hin.
    pose proof (reach_event body_errors registry size Hfit Hfresh schedule _ _ Hin)
      as (_ & Hr).
    lia.
  - apply report_outsider. lia.
  - intros Hall.
    destruct (reach_returned body_errors registry size Hfit Hfresh schedule Hall)
      as [Hinv _].
    destruct (final_console body_errors registry size w Hinv Hsize Hall)
      as [[_ Hcon]|[_ Hcon]]; [now left|now right].
Qed.

(** On every launch each process calls the entry point of a test at most
    once, and never if it takes no part in the test; when every process
    has returned from a launch with enough processes, each participant of
    each test has called its entry point exactly once.  The counts are
    taken to fit [int]. *)
Theorem entry_point_runs_once
    (body_errors : test_ptr -> nat -> Z -> list (assert_info * string))
    (registry : test_list) (size : nat) (schedule : list nat) (ti r : nat) :
  counts_fit body_errors registry -> fresh registry ->
  let w := run body_errors schedule (init_world size registry) in
  (bodies (log w) ti r <= 1)%nat /\
  ((comm_size registry ti <= r)%nat -> bodies (log w) ti r = 0%nat) /\
  (all_returned w = true -> enough registry size ->
   (ti < ntests registry)%nat -> (r < comm_size registry ti)%nat ->
   bodies (log w) ti r = 1%nat).
Proof.
  intros Hfit Hfresh w0.
  set (w := safe_run body_errors schedule (init_world size registry)).
  assert (Hlog : log w0 = log w)
    by (apply (run_log body_errors registry size Hfit Hfresh)).
  assert (Hsame : all_returned w0 = true -> all_returned w = true).
  { intros Hall. unfold w.
    now rewrite <- (run_returned body_errors registry size Hfit Hfresh
                      schedule Hall). }
  rewrite Hlog.
  destruct (separate_run body_errors registry size Hfit Hfresh schedule)
    as (Hb & _).
  fold w in Hb.
  pose proof (inv_run body_errors registry size Hfit Hfresh schedule) as Hinv.
  fold w in Hinv.
  assert (Hev : forall r e, (r, e) ∈ log w ->
                  event_ok body_errors registry size r e).
  { intros r0 e Hin. rewrite <- Hlog in Hin.
    exact (reach_event body_errors registry size Hfit Hfresh schedule _ _ Hin). }
  assert (Hout : (comm_size registry ti <= r)%nat -> bodies (log w) ti r = 0%nat).
  { intros Hr. destruct (bodies (log w) ti r) eqn:E; [reflexivity|].
    assert (Hin : (r, EBody ti) ∈ log w) by (apply bodies_in_log; lia).
    pose proof (Hev _ _ Hin) as (_ & Hr' & _).
    lia. }
  split; [|split; [exact Hout|]].
  - destruct (procs w !! r) as [p|] eqn:Hp.
    + rewrite (Hb r p ti Hp). unfold body_runs. destruct (decide _); lia.
    + destruct (le_lt_dec (comm_size registry ti) r) as [Hr|Hr];
        [rewrite Hout by assumption; lia|].
      destruct (bodies (log w) ti r) eqn:E; [lia|].
      assert (Hin : (r, EBody ti) ∈ log w) by (apply bodies_in_log; lia).
      pose proof (Hev _ _ Hin) as (_ & _ & He).
      pose proof (comm_size_le registry size ti He).
      apply lookup_ge_None in Hp. destruct Hinv as (Hlen & _). lia.
  - intros Hall He Hti Hr. apply Hsame in Hall.
    pose proof (comm_size_le registry size ti He) as Hcs.
    destruct Hinv as (Hlen & Hprocs & Hroot & Hevs).
    destruct (lookup_lt_is_Some_2 (procs w) r) as [p Hp]; [lia|].
    destruct (returned_position body_errors registry size w r p
                (conj Hlen (conj Hprocs (conj Hroot Hevs))) He Hall Hp)
      as [Ek Eti].
    rewrite (Hb r p ti Hp). unfold body_runs.
    apply decide_True. split; [|assumption].
    unfold pos. rewrite Ek, Eti. simpl. lia.
Qed.

Lemma entry_point_runs_once_witness :
  counts_fit uneven_errors uneven_tests /\ fresh uneven_tests /\
  bodies (log (run uneven_errors (round_robin 2 60) (init_world 2 uneven_tests)))
         0 1 = 1%nat.
Proof.
  assert (Hfit : counts_fit uneven_errors uneven_tests)
    by (intros [|[|ti]]; vm_compute; reflexivity).
  assert (Hfresh : fresh uneven_tests) by (repeat constructor).
  split; [exact Hfit|]. split; [exact Hfresh|].
  pose proof (entry_point_runs_once uneven_errors uneven_tests 2
                (round_robin 2 60) 0 1 Hfit Hfresh) as (_ & _ & Hone).
  apply Hone.
  - vm_compute. reflexivity.
  - vm_compute. discriminate.
  - vm_compute. lia.
  - vm_compute. lia.
Defined.

Lemma test_without_processes_is_skipped_witness :
  let registry := add_test 1%nat [1] "one" (add_test 0%nat [0] "none" instance0) in
  counts_fit silent registry /\ fresh registry /\ (1 <= 1)%nat /\
  report silent registry 0 = [].
Proof.
  intros registry.
  assert (Hfit : counts_fit silent registry) by apply silent_fit.
  assert (Hfresh : fresh registry) by (repeat constructor).
  assert (Hsize : (1 <= 1)%nat) by lia.
  split; [exact Hfit|]. split; [exact Hfresh|]. split; [exact Hsize|].
  assert (Ht : tests registry !! 0%nat
               = Some (registered 0%nat "none" 0)) by reflexivity.
  assert (Hle : test_size (registered 0%nat "none" 0) <= 0) by (simpl; lia).
  exact (proj1 (proj2 (proj2
    (test_without_processes_is_skipped silent registry 1 [] 0 _
       Hfit Hfresh Hsize Ht Hle)))).
Defined.

(** When every process has returned from a launch with enough processes,
    the history holds, for every test and rank, exactly one send per
    record of the rank's ledger, tagged 0, 1, ... in that order, each with
    the text of its record and each received exactly once: no failure
    message is lost, doubled or left unreceived.  The counts are taken to
    fit [int]. *)
Theorem every_failure_sent_and_received_once
    (body_errors : test_ptr -> nat -> Z -> list (assert_info * string))
    (registry : test_list) (size : nat) (schedule : list nat) (ti r : nat) :
  counts_fit body_errors registry -> fresh registry ->
  enough registry size -> (r < size)%nat ->
  let w := run body_errors schedule (init_world size registry) in
  all_returned w = true ->
  sent_tags (log w) ti r = seq 0 (count body_errors registry ti r) /\
  forall tag f,
    ledger body_errors registry ti r !! tag = Some f ->
    posted (log w) ti r tag = [fail_message r f] /\
    matched (log w) ti r tag = 1%nat.
Proof.
  intros Hfit Hfresh He Hr w0 Hall.
  pose proof (run_returned body_errors registry size Hfit Hfresh schedule Hall)
    as Hw.
  unfold w0 in *. rewrite Hw in *. clear Hw w0.
  set (w := safe_run body_errors schedule (init_world size registry)) in *.
  pose proof (inv_run body_errors registry size Hfit Hfresh schedule) as Hinv.
  fold w in Hinv.
  pose proof Hinv as (Hlen & Hprocs & Hroot & _).
  destruct (lookup_lt_is_Some_2 (procs w) r) as [p Hp]; [lia|].
  destruct (lookup_lt_is_Some_2 (procs w) 0) as [p0 Hp0]; [lia|].
  destruct (returned_position body_errors registry size w r p Hinv He Hall Hp)
    as [Ek Eti].
  destruct (returned_position body_errors registry size w 0 p0 Hinv He Hall Hp0)
    as [Ek0 Eti0].
  destruct (Hprocs r p Hp) as (_ & _ & _ & Htags & Hpost).
  destruct (Hroot p0 Hp0) as [Hm _].
  assert (Hsc : sent_count body_errors registry r p ti
                = count body_errors registry ti r).
  { destruct (le_lt_dec (ntests registry) ti) as [Hge|Hlt].
    - unfold sent_count, count, ledger, pos. rewrite Ek, Eti.
      unfold ntests in Hge. rewrite (lookup_ge_None_2 _ _ Hge). simpl.
      now destruct (_ <? _)%nat.
    - apply sent_count_past. unfold pos. rewrite Ek, Eti. simpl. lia. }
  split; [now rewrite Htags, Hsc|].
  intros tag f Hf.
  assert (Htag : (tag < count body_errors registry ti r)%nat)
    by (apply lookup_lt_Some in Hf; exact Hf).
  assert (Hti : (ti < ntests registry)%nat).
  { unfold ledger in Hf. destruct (tests registry !! ti) eqn:E;
      [now apply lookup_lt_Some in E|now rewrite lookup_nil in Hf]. }
  split.
  - rewrite Hpost. unfold posted_of. rewrite Hsc.
    destruct (Nat.ltb_spec tag (count body_errors registry ti r)); [|lia].
    now rewrite Hf.
  - rewrite Hm. unfold matched_of, recv_count, pos. rewrite Ek0, Eti0. simpl.
    destruct (Nat.ltb_spec (ti * 13 + 12) (ntests registry * 13 + 7)); [|lia].
    now destruct (Nat.ltb_spec tag (count body_errors registry ti r)); [|lia].
Qed.

Lemma every_failure_sent_and_received_once_witness :
  counts_fit uneven_errors uneven_tests /\ fresh uneven_tests /\
  enough uneven_tests 2 /\ (1 < 2)%nat /\
  sent_tags (log (run uneven_errors (round_robin 2 60)
                    (init_world 2 uneven_tests))) 0 1
  = seq 0 (count uneven_errors uneven_tests 0 1).
Proof.
  assert (Hfit : counts_fit uneven_errors uneven_tests)
    by (intros [|[|ti]]; vm_compute; reflexivity).
  assert (Hfresh : fresh uneven_tests) by (repeat constructor).
  assert (He : enough uneven_tests 2) by (vm_compute; discriminate).
  assert (Hr : (1 < 2)%nat) by lia.
  split; [exact Hfit|]. split; [exact Hfresh|]. split; [exact He|].
  split; [exact Hr|].
  assert (Hall : all_returned (run uneven_errors (round_robin 2 60)
                                 (init_world 2 uneven_tests)) = true)
    by (vm_compute; reflexivity).
  exact (proj1 (every_failure_sent_and_received_once uneven_errors uneven_tests
                  2 (round_robin 2 60) 0 1 Hfit Hfresh He Hr Hall)).
Defined.

(** Tests do not overlap: at the moment any process splits the
    communicator for test [ti + 1] (line 98), every participant of test
    [ti] has called the entry point of test [ti], has posted one send per
    record, has seen every one of them complete and has left
    [MPI_Waitall].  The counts are taken to fit [int]. *)
Theorem tests_do_not_overlap
    (body_errors : test_ptr -> nat -> Z -> list (assert_info * string))
    (registry : test_list) (size : nat) (schedule : list nat)
    (l1 l2 : list (nat * event)) (r ti : nat) (color : Z) (r' : nat) :
  counts_fit body_errors registry -> fresh registry ->
  log (run body_errors schedule (init_world size registry))
    = l1 ++ (r, ESplit (S ti) color) :: l2 ->
  (r' < comm_size registry ti)%nat ->
  (r', EBody ti) ∈ l1 /\
  all_sent body_errors registry l1 ti r' /\
  (r', EWaitall ti (count body_errors registry ti r')) ∈ l1.
Proof.
  intros Hfit Hfresh Hlog Hr'.
  rewrite (run_log body_errors registry size Hfit Hfresh) in Hlog.
  destruct (separate_run body_errors registry size Hfit Hfresh schedule)
    as (_ & _ & Hsep).
  exact (Hsep l1 _ l2 Hlog r' Hr').
Qed.

Lemma tests_do_not_overlap_witness :
  counts_fit uneven_errors uneven_tests /\ fresh uneven_tests /\
  let lg := log (run uneven_errors (round_robin 2 60)
                   (init_world 2 uneven_tests)) in
  lg !! 30%nat = Some (1%nat, ESplit 1 0) /\
  (0%nat, EBody 0) ∈ take 30 lg /\
  (0%nat, EWaitall 0 1) ∈ take 30 lg.
Proof.
  assert (Hfit : counts_fit uneven_errors uneven_tests)
    by (intros [|[|ti]]; vm_compute; reflexivity).
  assert (Hfresh : fresh uneven_tests) by (repeat constructor).
  split; [exact Hfit|]. split; [exact Hfresh|].
  intros lg. split; [vm_compute; reflexivity|].
  assert (Hlog : lg = take 30 lg ++ (1%nat, ESplit 1 0) :: drop 31 lg)
    by (vm_compute; reflexivity).
  assert (Hr : (0 < comm_size uneven_tests 0)%nat) by (vm_compute; lia).
  destruct (tests_do_not_overlap uneven_errors uneven_tests 2
              (round_robin 2 60) (take 30 lg) (drop 31 lg) 1 0 0 0
              Hfit Hfresh Hlog Hr) as (Hb & _ & Hw).
  split; [exact Hb|exact Hw].
Defined.

(** ** The driver: fair schedules run a launch to its end *)



Section Fair.

Variable body_errors : test_ptr -> nat -> Z -> list (assert_info * string).
Variable registry : test_list.
Variable size : nat.

Hypothesis Hfit : counts_fit body_errors registry.
Hypothesis Hfresh : fresh registry.
Hypothesis Hrec : records_fit body_errors registry.








End Fair.



(** ** The dummy: dealing out and combining the arrays *)

Lemma for_each_S {S} (k : nat) (step : Z -> S -> option S) (s : S) :
  Dummy.for_each (Z.of_nat (Datatypes.S k)) step s
  = Dummy.for_each (Z.of_nat k) step s ≫= step (Z.of_nat k).
Proof.
  unfold Dummy.for_each. rewrite !Nat2Z.id, seq_S, foldl_app. reflexivity.
Qed.

Lemma for_each_0 {S} (step : Z -> S -> option S) (s : S) :
  Dummy.for_each 0 step s = Some s.
Proof. reflexivity. Qed.

Lemma at_index_values {A} (xs : list A) (i : nat) (x : A) :
  xs !! i = Some x -> Dummy.at_index (values xs) (Z.of_nat i) = Some x.
Proof.
  intros Hx. unfold Dummy.at_index, values.
  rewrite decide_True by lia. rewrite Nat2Z.id, list_lookup_fmap, Hx.
  reflexivity.
Qed.

Lemma at_index_outside {A} (xs : list A) (i : Z) :
  Z.of_nat (length xs) <= i -> Dummy.at_index (values xs) i = None.
Proof.
  intros Hi. unfold Dummy.at_index, values.
  rewrite decide_True by lia.
  rewrite (lookup_ge_None_2 (map Some xs)); [reflexivity|].
  rewrite length_map. lia.
Qed.

(** Writing the next element of a half-filled array. *)
Lemma store_next {A} (done : list A) (e : option A) (rest : list (option A))
    (k : nat) (x : A) :
  length done = k ->
  Dummy.store (values done ++ e :: rest) (Z.of_nat k) x
  = Some (values (done ++ [x]) ++ rest).
Proof.
  intros <-. unfold Dummy.store, values.
  rewrite decide_True by (rewrite length_app, length_map; simpl; lia).
  f_equal. rewrite Nat2Z.id.
  rewrite insert_app_r_alt by (rewrite length_map; lia).
  rewrite length_map, Nat.sub_diag. simpl.
  rewrite map_app, <- app_assoc. reflexivity.
Qed.

Lemma int_result_fits (z : Z) :
  - 2 ^ 31 <= z < 2 ^ 31 -> Dummy.int_result z = Some z.
Proof. intros Hz. unfold Dummy.int_result. now rewrite decide_True. Qed.

Lemma take_S_drop {A} (xs : list A) (o k : nat) (x : A) :
  xs !! (k + o)%nat = Some x ->
  take (S k) (drop o xs) = take k (drop o xs) ++ [x].
Proof.
  intros Hx. apply take_S_r. rewrite lookup_drop.
  now rewrite Nat.add_comm.
Qed.

Section SetupLoop.

Context {real : Type} `{Dummy.Real real}.

(** The copy loop of [setup] after [k] rounds. *)
Lemma setup_loop (xs ys : list real) (o nl k : nat) :
  (k <= nl)%nat -> (o + nl <= length xs)%nat -> (o + nl <= length ys)%nat ->
  Z.of_nat (o + nl) < 2 ^ 31 ->
  Dummy.for_each (Z.of_nat k)
    (fun i '(a_local, b_local) =>
       j ← Dummy.int_result (i + Z.of_nat o);
       x ← Dummy.at_index (values xs) j; a_local' ← Dummy.store a_local i x;
       y ← Dummy.at_index (values ys) j; b_local' ← Dummy.store b_local i y;
       Some (a_local', b_local'))
    (replicate nl None, replicate nl None)
  = Some (values (take k (drop o xs)) ++ replicate (nl - k) None,
          values (take k (drop o ys)) ++ replicate (nl - k) None).
Proof.
  intros Hk Hx Hy Hfit. induction k as [|k IH].
  - rewrite for_each_0, !take_0, Nat.sub_0_r. reflexivity.
  - rewrite for_each_S, IH by lia. simpl.
    rewrite int_result_fits by lia. simpl.
    destruct (lookup_lt_is_Some_2 xs (k + o)) as [x Ex]; [lia|].
    destruct (lookup_lt_is_Some_2 ys (k + o)) as [y Ey]; [lia|].
    replace (Z.of_nat k + Z.of_nat o) with (Z.of_nat (k + o)) by lia.
    rewrite (at_index_values xs _ x Ex), (at_index_values ys _ y Ey). simpl.
    assert (Hlx : length (take k (drop o xs)) = k)
      by (rewrite length_take, length_drop; lia).
    assert (Hly : length (take k (drop o ys)) = k)
      by (rewrite length_take, length_drop; lia).
    replace (nl - k)%nat with (S (nl - S k)) by lia. simpl replicate.
    rewrite (store_next _ _ _ k x Hlx). simpl.
    rewrite (store_next _ _ _ k y Hly). simpl.
    now rewrite (take_S_drop xs o k x Ex), (take_S_drop ys o k y Ey).
Qed.

End SetupLoop.

Lemma setup_returns {real : Type} `{Dummy.Real real}
    (comm : nat) (rank size : Z) (xs ys : list real) (n : Z) :
  0 <= rank < size -> 0 <= n < 2 ^ 31 ->
  Z.rem n size = 0 \/ rank <> 0 ->
  n <= Z.of_nat (length xs) -> n <= Z.of_nat (length ys) ->
  let k := Z.to_nat (Z.quot n size) in
  Dummy.setup comm rank size true (values xs) (values ys) n
  = Dummy.Returns
      {| Dummy.rank := rank; Dummy.size := size; Dummy.comm := comm;
         Dummy.type := Dummy.init; Dummy.n_local := Z.quot n size;
         Dummy.a_local := values (block_of xs (Z.to_nat rank) k);
         Dummy.b_local := values (block_of ys (Z.to_nat rank) k);
         Dummy.c_local := replicate k None |}.
Proof.
  intros Hr Hn Hdiv Hx Hy k. unfold Dummy.setup.
  rewrite decide_False by lia.
  assert (Hguard : negb (Z.rem n size =? 0) && (rank =? 0) = false).
  { destruct Hdiv as [-> | Hne]; [reflexivity|].
    destruct (Z.eqb_spec rank 0); [contradiction|apply andb_false_r]. }
  rewrite Hguard. simpl negb. cbv iota.
  assert (Hq : 0 <= Z.quot n size) by (apply Z.quot_pos; lia).
  assert (Hm : size * Z.quot n size <= n) by (apply Z.mul_quot_le; lia).
  unfold Dummy.new_array. rewrite decide_True by assumption.
  assert (Ho : 0 <= rank * Z.quot n size <= (size - 1) * Z.quot n size)
    by nia.
  rewrite int_result_fits by nia. simpl.
  replace (rank * Z.quot n size)
    with (Z.of_nat (Z.to_nat rank * k)) by (unfold k; lia).
  rewrite <- (Z2Nat.id (Z.quot n size)) at 1 by assumption. fold k.
  rewrite (setup_loop xs ys (Z.to_nat rank * k) k k) by (unfold k; nia).
  rewrite Nat.sub_diag. simpl. rewrite !app_nil_r. reflexivity.
Qed.

(** [setup] deals out blocks: a rank that gets past the check and the
    barrier returns with [n / size] elements of each array, those from
    index [rank * (n / size)] on, and with a [c_local] of that length whose
    elements have no value yet.  It reads no element outside the first [n]
    of the caller's arrays. *)
Theorem setup_deals_blocks {real : Type} `{Dummy.Real real}
    (comm : nat) (rank size : Z) (xs ys : list real) (n : Z) :
  0 <= rank < size -> 0 <= n < 2 ^ 31 ->
  Z.rem n size = 0 \/ rank <> 0 ->
  n <= Z.of_nat (length xs) -> n <= Z.of_nat (length ys) ->
  let k := Z.to_nat (Z.quot n size) in
  Dummy.setup comm rank size true (values xs) (values ys) n
  = Dummy.Returns
      {| Dummy.rank := rank; Dummy.size := size; Dummy.comm := comm;
         Dummy.type := Dummy.init; Dummy.n_local := Z.quot n size;
         Dummy.a_local := values (block_of xs (Z.to_nat rank) k);
         Dummy.b_local := values (block_of ys (Z.to_nat rank) k);
         Dummy.c_local := replicate k None |}.
Proof.
  intros Hr Hn Hdiv Hx Hy. now apply setup_returns.
Qed.

Lemma setup_deals_blocks_witness :
  0 <= 1 < 2 /\ 0 <= 8 < 2 ^ 31 /\ (Z.rem 8 2 = 0 \/ 1 <> 0) /\
  8 <= Z.of_nat (length int_fixture_a) /\
  8 <= Z.of_nat (length int_fixture_b) /\
  exists state,
    Dummy.setup 0 1 2 true (values int_fixture_a) (values int_fixture_b) 8
    = Dummy.Returns state /\
    Dummy.n_local state = 4 /\
    Dummy.a_local state = values [5; 6; 7; 8].
Proof.
  assert (H1 : 0 <= 1 < 2) by lia.
  assert (H2 : 0 <= 8 < 2 ^ 31) by lia.
  assert (H3 : Z.rem 8 2 = 0 \/ 1 <> 0) by (now left).
  assert (H4 : 8 <= Z.of_nat (length int_fixture_a)) by (simpl; lia).
  assert (H5 : 8 <= Z.of_nat (length int_fixture_b)) by (simpl; lia).
  split; [exact H1|]. split; [exact H2|]. split; [exact H3|].
  split; [exact H4|]. split; [exact H5|].
  eexists. split;
    [exact (setup_deals_blocks 0 1 2 int_fixture_a int_fixture_b 8
              H1 H2 H3 H4 H5)|].
  split; reflexivity.
Defined.

Lemma blocks_concat {A} (xs : list A) (k m : nat) :
  concat (map (fun r => block_of xs r k) (seq 0 m)) = take (m * k) xs.
Proof.
  induction m as [|m IH]; [reflexivity|].
  rewrite seq_S, map_app, concat_app, IH. simpl. rewrite app_nil_r.
  unfold block_of. rewrite take_take_drop. f_equal. lia.
Qed.

(** When [size] divides [n], the blocks that the ranks get are, in rank
    order, the first [n] elements of the array: nothing is lost and nothing
    is dealt twice. *)
Theorem setup_blocks_cover_the_array {real : Type} `{Dummy.Real real}
    (comm : nat) (size : Z) (xs ys : list real) (n : Z) :
  0 < size -> 0 <= n < 2 ^ 31 -> Z.rem n size = 0 ->
  n <= Z.of_nat (length xs) -> n <= Z.of_nat (length ys) ->
  concat (map (fun r =>
                 match Dummy.setup comm (Z.of_nat r) size true
                         (values xs) (values ys) n with
                 | Dummy.Returns state => Dummy.a_local state
                 | _ => []
                 end) (seq 0 (Z.to_nat size)))
  = values (take (Z.to_nat n) xs).
Proof.
  intros Hs Hn Hrem Hx Hy.
  set (k := Z.to_nat (Z.quot n size)).
  assert (Hmap : map (fun r =>
                 match Dummy.setup comm (Z.of_nat r) size true
                         (values xs) (values ys) n with
                 | Dummy.Returns state => Dummy.a_local state
                 | _ => []
                 end) (seq 0 (Z.to_nat size))
               = map (fun r => values (block_of xs r k)) (seq 0 (Z.to_nat size))).
  { apply map_ext_in. intros r Hin. apply in_seq in Hin.
    rewrite (setup_returns comm (Z.of_nat r) size xs ys n)
      by (try left; lia).
    simpl. now rewrite Nat2Z.id. }
  rewrite Hmap. unfold values.
  rewrite <- (map_map (fun r => block_of xs r k) (map Some)).
  rewrite <- concat_map, blocks_concat. do 2 f_equal.
  assert (Hq : 0 <= Z.quot n size) by (apply Z.quot_pos; lia).
  pose proof (Z.quot_rem' n size) as Hqr. rewrite Hrem in Hqr.
  unfold k. nia.
Qed.

Lemma setup_blocks_cover_the_array_witness :
  0 < 4 /\ 0 <= 8 < 2 ^ 31 /\ Z.rem 8 4 = 0 /\
  8 <= Z.of_nat (length int_fixture_a) /\
  8 <= Z.of_nat (length int_fixture_b) /\
  concat (map (fun r =>
                 match Dummy.setup 0 (Z.of_nat r) 4 true
                         (values int_fixture_a) (values int_fixture_b) 8 with
                 | Dummy.Returns state => Dummy.a_local state
                 | _ => []
                 end) (seq 0 (Z.to_nat 4)))
  = values int_fixture_a.
Proof.
  assert (H1 : 0 < 4) by lia.
  assert (H2 : 0 <= 8 < 2 ^ 31) by lia.
  assert (H3 : Z.rem 8 4 = 0) by reflexivity.
  assert (H4 : 8 <= Z.of_nat (length int_fixture_a)) by (simpl; lia).
  assert (H5 : 8 <= Z.of_nat (length int_fixture_b)) by (simpl; lia).
  split; [exact H1|]. split; [exact H2|]. split; [exact H3|].
  split; [exact H4|]. split; [exact H5|].
  exact (setup_blocks_cover_the_array 0 4 int_fixture_a int_fixture_b 8
           H1 H2 H3 H4 H5).
Defined.

Lemma mapM_snoc {A B} (f : A -> option B) (l : list A) (x : A) :
  mapM f (l ++ [x])
  = zs ← mapM f l; z ← f x; Some (zs ++ [z]).
Proof.
  induction l as [|a l IH]; cbn.
  - now destruct (f x).
  - destruct (f a); cbn; [|reflexivity].
    rewrite IH. destruct (mapM f l); cbn; [|reflexivity].
    now destruct (f x).
Qed.

Lemma mapM_length_Some {A B} (f : A -> option B) (l : list A) (k : list B) :
  mapM f l = Some k -> length k = length l.
Proof. intros Hm. apply mapM_Some in Hm. symmetry. exact (Forall2_length _ _ _ Hm). Qed.

Section CombineLoop.

Context {real : Type} `{Dummy.Real real}.

(** The loop of [add] and [sub] after [k] rounds. *)
Lemma combine_loop (op : real -> real -> option real) (xs ys : list real)
    (c0 : list (option real)) (k : nat) :
  (k <= length xs)%nat -> length ys = length xs -> length c0 = length xs ->
  Dummy.for_each (Z.of_nat k)
    (fun i c =>
       x ← Dummy.at_index (values xs) i;
       y ← Dummy.at_index (values ys) i;
       z ← op x y;
       Dummy.store c i z) c0
  = (fun zs => values zs ++ drop k c0)
      <$> mapM (fun p => op p.1 p.2) (take k (zip xs ys)).
Proof.
  intros Hk Hy Hc. induction k as [|k IH].
  - rewrite for_each_0. reflexivity.
  - rewrite for_each_S, IH by lia.
    destruct (lookup_lt_is_Some_2 xs k) as [x Ex]; [lia|].
    destruct (lookup_lt_is_Some_2 ys k) as [y Ey]; [lia|].
    destruct (lookup_lt_is_Some_2 c0 k) as [e Ee]; [lia|].
    assert (Hz : zip xs ys !! k = Some (x, y)).
    { rewrite lookup_zip_with, Ex. simpl. now rewrite Ey. }
    rewrite (take_S_r _ _ _ Hz), mapM_snoc.
    destruct (mapM (fun p => op p.1 p.2) (take k (zip xs ys))) as [zs|] eqn:Em;
      simpl; [|reflexivity].
    rewrite (at_index_values xs k x Ex), (at_index_values ys k y Ey). simpl.
    destruct (op x y) as [z|]; simpl; [|reflexivity].
    rewrite (drop_S _ _ _ Ee). apply store_next.
    rewrite (mapM_length_Some _ _ _ Em), length_take.
    rewrite length_zip_with. lia.
Qed.

Lemma combine_elementwise (op : real -> real -> option real)
    (state : Dummy.arrays real) (xs ys : list real) :
  Dummy.a_local state = values xs -> Dummy.b_local state = values ys ->
  Dummy.n_local state = Z.of_nat (length xs) ->
  length ys = length xs -> length (Dummy.c_local state) = length xs ->
  Dummy.combine op state
  = match elementwise op xs ys with
    | Some zs => Dummy.Returns (Dummy.with_c_local state (values zs))
    | None => Dummy.Undefined
    end.
Proof.
  intros Ha Hb Hn Hy Hc. unfold Dummy.combine, elementwise.
  rewrite Ha, Hb, Hn, (combine_loop op xs ys _ (length xs)) by lia.
  rewrite firstn_all2 by (rewrite length_zip_with; lia).
  rewrite drop_ge by lia.
  destruct (mapM _ _); simpl; [|reflexivity]. now rewrite app_nil_r.
Qed.

End CombineLoop.

(** [add] and [sub] on a state as [setup] leaves it: the call returns
    exactly when every element's sum (difference) is defined, with all of
    [c_local] written, element by element, and nothing else changed;
    otherwise, as when an [int] overflows, its behaviour is undefined. *)
Theorem add_and_sub_are_elementwise {real : Type} `{Dummy.Real real}
    (state : Dummy.arrays real) (xs ys : list real) :
  Dummy.a_local state = values xs -> Dummy.b_local state = values ys ->
  Dummy.n_local state = Z.of_nat (length xs) ->
  length ys = length xs -> length (Dummy.c_local state) = length xs ->
  Dummy.add state
  = match elementwise Dummy.plus xs ys with
    | Some zs => Dummy.Returns (Dummy.with_c_local state (values zs))
    | None => Dummy.Undefined
    end /\
  Dummy.sub state
  = match elementwise Dummy.minus xs ys with
    | Some zs => Dummy.Returns (Dummy.with_c_local state (values zs))
    | None => Dummy.Undefined
    end.
Proof.
  intros Ha Hb Hn Hy Hc. split; now apply combine_elementwise.
Qed.

Lemma add_and_sub_are_elementwise_witness :
  let state :=
    {| Dummy.rank := 0; Dummy.size := 1; Dummy.comm := 0%nat;
       Dummy.type := Dummy.MPI_INT; Dummy.n_local := 2;
       Dummy.a_local := values [2 ^ 31 - 1; 1]; Dummy.b_local := values [1; 1];
       Dummy.c_local := [None; None] |} in
  Dummy.add state = Dummy.Undefined /\
  Dummy.sub state
  = Dummy.Returns (Dummy.with_c_local state (values [2 ^ 31 - 2; 0])).
Proof.
  intros state.
  exact (add_and_sub_are_elementwise state [2 ^ 31 - 1; 1] [1; 1]
           eq_refl eq_refl eq_refl eq_refl eq_refl).
Defined.

Lemma elementwise_block {A} (op : A -> A -> option A) (xs ys zs : list A)
    (r k : nat) :
  elementwise op xs ys = Some zs ->
  elementwise op (block_of xs r k) (block_of ys r k) = Some (block_of zs r k).
Proof.
  unfold elementwise, block_of. intros Hm.
  apply mapM_Some. apply mapM_Some in Hm.
  rewrite <- zip_with_take, <- zip_with_drop.
  now apply Forall2_take, Forall2_drop.
Qed.

Lemma elementwise_take {A} (op : A -> A -> option A) (xs ys zs : list A)
    (n : nat) :
  elementwise op xs ys = Some zs ->
  elementwise op (take n xs) (take n ys) = Some (take n zs).
Proof.
  unfold elementwise. intros Hm.
  apply mapM_Some. apply mapM_Some in Hm.
  rewrite <- zip_with_take. now apply Forall2_take.
Qed.

(** Dealing the arrays out and adding (subtracting) the blocks gives
    what adding (subtracting) the arrays gives: where every element's
    result is defined, the [c_local] of each rank is its block of the
    element-by-element result. *)
Theorem distributed_add_is_the_serial_add {real : Type} `{Dummy.Real real}
    (comm : nat) (rank size : Z) (xs ys sums diffs : list real) (n : Z) :
  0 <= rank < size -> 0 <= n < 2 ^ 31 -> Z.rem n size = 0 ->
  n <= Z.of_nat (length xs) -> n <= Z.of_nat (length ys) ->
  elementwise Dummy.plus xs ys = Some sums ->
  elementwise Dummy.minus xs ys = Some diffs ->
  let k := Z.to_nat (Z.quot n size) in
  exists state,
    Dummy.setup comm rank size true (values xs) (values ys) n
    = Dummy.Returns state /\
    Dummy.add state
    = Dummy.Returns
        (Dummy.with_c_local state (values (block_of sums (Z.to_nat rank) k))) /\
    Dummy.sub state
    = Dummy.Returns
        (Dummy.with_c_local state (values (block_of diffs (Z.to_nat rank) k))).
Proof.
  intros Hr Hn Hrem Hx Hy Hs Hd k.
  assert (Hq : 0 <= Z.quot n size) by (apply Z.quot_pos; lia).
  assert (Hm : size * Z.quot n size <= n) by (apply Z.mul_quot_le; lia).
  assert (Hlen : forall l : list real, Z.of_nat (length l) >= n ->
            length (block_of l (Z.to_nat rank) k) = k).
  { intros l Hl. unfold block_of. rewrite length_take, length_drop.
    unfold k. nia. }
  pose (state := {| Dummy.rank := rank; Dummy.size := size; Dummy.comm := comm;
                    Dummy.type := Dummy.init; Dummy.n_local := Z.quot n size;
                    Dummy.a_local := values (block_of xs (Z.to_nat rank) k);
                    Dummy.b_local := values (block_of ys (Z.to_nat rank) k);
                    Dummy.c_local := replicate k None |}).
  exists state. split;
    [exact (setup_returns comm rank size xs ys n Hr Hn (or_introl Hrem)
              Hx Hy)|].
  assert (Hn' : Dummy.n_local state
                = Z.of_nat (length (block_of xs (Z.to_nat rank) k)))
    by (simpl; rewrite Hlen by lia; unfold k; lia).
  assert (Hy' : length (block_of ys (Z.to_nat rank) k)
                = length (block_of xs (Z.to_nat rank) k))
    by (rewrite !Hlen by lia; reflexivity).
  assert (Hc' : length (Dummy.c_local state)
                = length (block_of xs (Z.to_nat rank) k))
    by (simpl; rewrite length_replicate, Hlen by lia; reflexivity).
  unfold Dummy.add, Dummy.sub.
  rewrite !(combine_elementwise _ state
              (block_of xs (Z.to_nat rank) k) (block_of ys (Z.to_nat rank) k)
              eq_refl eq_refl Hn' Hy' Hc').
  rewrite (elementwise_block _ xs ys sums _ _ Hs).
  rewrite (elementwise_block _ xs ys diffs _ _ Hd). now split.
Qed.

Lemma distributed_add_is_the_serial_add_witness :
  exists state,
    Dummy.setup 0 1 2 true (values int_fixture_a) (values int_fixture_b) 8
    = Dummy.Returns state /\
    Dummy.add state
    = Dummy.Returns (Dummy.with_c_local state (values [9; 11; 13; 15])) /\
    Dummy.sub state
    = Dummy.Returns (Dummy.with_c_local state (values [1; 1; 1; 1])).
Proof.
  assert (H1 : 0 <= 1 < 2) by lia.
  assert (H2 : 0 <= 8 < 2 ^ 31) by lia.
  assert (H3 : Z.rem 8 2 = 0) by reflexivity.
  assert (H4 : 8 <= Z.of_nat (length int_fixture_a)) by (simpl; lia).
  assert (H5 : 8 <= Z.of_nat (length int_fixture_b)) by (simpl; lia).
  exact (distributed_add_is_the_serial_add 0 1 2 int_fixture_a int_fixture_b
           [1; 3; 5; 7; 9; 11; 13; 15] [1; 1; 1; 1; 1; 1; 1; 1] 8
           H1 H2 H3 H4 H5 eq_refl eq_refl).
Defined.
